(** * ci-tools: ordered job-run ingestion, worker pool, push ceiling, group upsert

    Shallow embedding of
    - [jobrunbigqueryloader]: [allJobsLoaderOptions.Run], [processJobs],
      [jobLoaderOptions.Run], [jobRunLoaderOptions.Run],
      [readJobRunFromGCS], [uploadJobRun];
    - [ci-operator-yaml-creator]: the closure returned by [process];
    - [github-ldap-user-group-creator]: [UpsertGroup], [validate],
      [makeGroups], and of [ensureGroups] the closure [handleGroup] and
      the pruning pass;
    - [jobrunhistoricaldataanalyzer]: [compareAndUpdate].

    Goroutines are modelled by interleaving step relations whose program
    points follow the statements of the Go functions; channels used as
    one-shot gates live in a shared store indexed by allocation order. *)

From stdpp Require Import gmap strings list fin_maps sorting.
From Stdlib Require Import ZArith NArith Lia DecimalString.

Set Warnings "-register-all".
Local Open Scope string_scope.
Local Open Scope list_scope.

(** ** Go errors *)

(** An [error] value.  [ErrWrap p e] is [fmt.Errorf (p ++ ": %w", e)];
    [ErrAggregate] is the value built by [utilerrors.NewAggregate]. *)
Inductive error : Type :=
| ErrAlreadyExists
| ErrNotFound
| ErrCanceled
| ErrMsg (msg : string)
| ErrWrap (prefix : string) (inner : error)
| ErrAggregate (errs : list error).

(** [utilerrors.NewAggregate]: nil for an empty list, otherwise the
    aggregate of the list (the entries handled here are never nil). *)
Definition NewAggregate (errs : list error) : option error :=
  match errs with
  | [] => None
  | _ :: _ => Some (ErrAggregate errs)
  end.

(** [errors.IsAlreadyExists] looks through wrapping. *)
Fixpoint IsAlreadyExists (e : error) : bool :=
  match e with
  | ErrAlreadyExists => true
  | ErrWrap _ inner => IsAlreadyExists inner
  | _ => false
  end.

(** ** github-ldap-user-group-creator: [UpsertGroup] *)
Module Groups.

(** [userv1.Group]: the object name, the optional user list (a Go slice,
    [None] is the nil slice) and the remaining metadata, which
    [UpsertGroup] never inspects. *)
Record Group : Type := mkGroup {
  Name : string;
  Users : option (list string);
  Labels : list (string * string)
}.

(** Calls received by the client, with what they did. *)
Inductive call : Type :=
| CreateOk (g : Group)
| CreateFailed (name : string) (e : error)
| GetOk (name : string)
| GetFailed (name : string) (e : error)
| DeleteOk (name : string)
| DeleteFailed (name : string) (e : error).

(** The cluster behind [ctrlruntimeclient.Client]: the stored groups by
    name, a script of injected faults (one entry consumed per call,
    [Some e] makes that call fail with [e] and change nothing), and the
    log of calls. *)
Record cluster : Type := mkCluster {
  store : gmap string Group;
  faults : list (option error);
  log : list call
}.

Definition next_fault (c : cluster) : option error * list (option error) :=
  match faults c with
  | [] => (None, [])
  | f :: fs => (f, fs)
  end.

Definition clientCreate (g : Group) (c : cluster) : option error * cluster :=
  let '(f, fs) := next_fault c in
  match f with
  | Some e => (Some e, mkCluster (store c) fs (log c ++ [CreateFailed (Name g) e]))
  | None =>
      match store c !! Name g with
      | Some _ =>
          (Some ErrAlreadyExists,
           mkCluster (store c) fs (log c ++ [CreateFailed (Name g) ErrAlreadyExists]))
      | None => (None, mkCluster (<[Name g := g]> (store c)) fs (log c ++ [CreateOk g]))
      end
  end.

Definition clientGet (name : string) (c : cluster) : (error + Group) * cluster :=
  let '(f, fs) := next_fault c in
  match f with
  | Some e => (inl e, mkCluster (store c) fs (log c ++ [GetFailed name e]))
  | None =>
      match store c !! name with
      | Some g => (inr g, mkCluster (store c) fs (log c ++ [GetOk name]))
      | None => (inl ErrNotFound, mkCluster (store c) fs (log c ++ [GetFailed name ErrNotFound]))
      end
  end.

Definition clientDelete (g : Group) (c : cluster) : option error * cluster :=
  let '(f, fs) := next_fault c in
  match f with
  | Some e => (Some e, mkCluster (store c) fs (log c ++ [DeleteFailed (Name g) e]))
  | None =>
      match store c !! Name g with
      | Some _ => (None, mkCluster (delete (Name g) (store c)) fs (log c ++ [DeleteOk (Name g)]))
      | None =>
          (Some ErrNotFound, mkCluster (store c) fs (log c ++ [DeleteFailed (Name g) ErrNotFound]))
      end
  end.

(** [equality.Semantic.DeepEqual] on two [[]string]: a nil slice and an
    empty slice are equal, otherwise element-wise equality. *)
Definition SemanticDeepEqual (a b : option (list string)) : bool :=
  bool_decide (default [] a = default [] b).

(** [UpsertGroup]; the result is [(created, err)]. *)
Definition UpsertGroup (group : Group) (c : cluster) : (bool * option error) * cluster :=
  let '(err, c1) := clientCreate group c in
  match err with
  | None => ((true, None), c1)
  | Some e =>
      if negb (IsAlreadyExists e) then ((false, Some e), c1)
      else
        let '(r, c2) := clientGet (Name group) c1 in
        match r with
        | inl e' => ((false, Some e'), c2)
        | inr existing =>
            if SemanticDeepEqual (Users group) (Users existing) then ((false, None), c2)
            else
              let '(derr, c3) := clientDelete existing c2 in
              match derr with
              | Some e' => ((false, Some (ErrWrap "delete failed" e')), c3)
              | None =>
                  (* Recreate counts as "Update" *)
                  let '(cerr, c4) := clientCreate group c3 in
                  ((false, cerr), c4)
              end
        end
  end.

(** A call that changed the store. *)
Definition is_mutation (k : call) : bool :=
  match k with
  | CreateOk _ | DeleteOk _ => true
  | _ => false
  end.

Definition mutations (c : cluster) : list call := filter (λ k, is_mutation k = true) (log c).

(** Every group is stored under its own name, as the API server keeps
    them. *)
Definition well_keyed (st : gmap string Group) : Prop :=
  forall k g, st !! k = Some g -> Name g = k.

End Groups.

(** ** ci-operator-yaml-creator: the closure returned by [process] *)
Module Creator.

(** Go's [int] on the 64-bit targets the tool is built for. *)
Definition wrap_int (z : Z) : Z := ((z + 2 ^ 63) mod 2 ^ 64 - 2 ^ 63)%Z.

Record ImageStreamTagReference : Type := mkISTR {
  Namespace : string;
  TagName : string;
  Tag : string;
  As : string
}.

#[global] Instance ImageStreamTagReference_eq_dec : EqDecision ImageStreamTagReference.
Proof. solve_decision. Defined.

(** [cioperatorapi.BuildRootImageConfiguration], the two fields read. *)
Record BuildRootImageConfiguration : Type := mkBRI {
  ImageStreamTagRef : option ImageStreamTagReference;
  FromRepository : bool
}.

(** [cioperatorapi.ReleaseBuildConfiguration]: the build root (a pointer,
    [None] is nil) and the rest of the configuration. *)
Record ReleaseBuildConfiguration : Type := mkCfg {
  BuildRootImage : option BuildRootImageConfiguration;
  Rest : string
}.

(** [config.Info]. *)
Record Info : Type := mkInfo {
  Org : string;
  Repo : string;
  Branch : string;
  Variant : string;
  Filename : string
}.

(** [cioperatorapi.CIOperatorInrepoConfig]. *)
Record CIOperatorInrepoConfig : Type := mkInrepo {
  InrepoBuildRootImage : ImageStreamTagReference
}.

#[global] Instance CIOperatorInrepoConfig_eq_dec : EqDecision CIOperatorInrepoConfig.
Proof. solve_decision. Defined.

Definition CIOperatorInrepoConfigFileName : string := ".ci-operator.yaml".

(** What the closure did to the outside world, in order. *)
Inductive event : Type :=
| EvGetFile (org repo branch : string)
| EvWriteConfig (filename data : string)
| EvClone (org repo : string)
| EvCheckout (branch : string)
| EvWriteInrepo (path data : string)
| EvCreatePr (dir org repo branch : string)
| EvChdirRoot
| EvClean.

(** The collaborators handed to [process], and the YAML codec. *)
Record Env : Type := mkEnv {
  filter : Info -> bool;
  repoFileGetter : string -> string -> string -> error + string;
  yamlUnmarshal : string -> error + CIOperatorInrepoConfig;
  yamlMarshalCfg : ReleaseBuildConfiguration -> error + string;
  yamlMarshalInrepo : CIOperatorInrepoConfig -> error + string;
  writeFile : string -> string -> option error;
  clone : string -> string -> error + string;      (* the clone's directory *)
  checkout : string -> string -> option error;     (* directory, branch *)
  ioutilWriteFile : string -> string -> option error;
  createPr : string -> string -> string -> string -> option error
}.

(** Result of one call of the closure: the returned error, the
    configuration as left behind (it is mutated through its pointer), the
    captured [clonesDone] and the events of this call. *)
Record outcome : Type := mkOutcome {
  ret : option error;
  cfg_after : ReleaseBuildConfiguration;
  clones_after : Z;
  events : list event
}.

Section Process.
Variable env : Env.
Variable pushCeiling : Z.

(** The deferred function of the clone path runs after the return value
    is computed. *)
Definition deferred : list event := [EvChdirRoot; EvClean].

Definition process (clonesDone : Z) (cfg : ReleaseBuildConfiguration) (metadata : Info)
  : outcome :=
  if negb (filter env metadata) then mkOutcome None cfg clonesDone []
  else
    match BuildRootImage cfg with
    | None => mkOutcome None cfg clonesDone []
    | Some bri =>
        if FromRepository bri
           || negb (bool_decide (Variant metadata = ""))
           || (negb (bool_decide (Branch metadata = "master"))
               && negb (bool_decide (Branch metadata = "main")))
        then mkOutcome None cfg clonesDone []
        else
          match ImageStreamTagRef bri with
          | None => mkOutcome None cfg clonesDone []
          | Some istr =>
              let ev0 := [EvGetFile (Org metadata) (Repo metadata) (Branch metadata)] in
              match repoFileGetter env (Org metadata) (Repo metadata) (Branch metadata) with
              | inl e => mkOutcome (Some (ErrWrap "failed to get" e)) cfg clonesDone ev0
              | inr data =>
                  match yamlUnmarshal env data with
                  | inl e => mkOutcome (Some (ErrWrap "failed to unmarshal" e)) cfg clonesDone ev0
                  | inr inrepoconfig =>
                      let expected := mkInrepo istr in
                      if bool_decide (inrepoconfig = expected) then
                        let cfg' := mkCfg (Some (mkBRI None true)) (Rest cfg) in
                        match yamlMarshalCfg env cfg' with
                        | inl e =>
                            mkOutcome (Some (ErrWrap "failed to marshal config" e))
                                      cfg' clonesDone ev0
                        | inr serialized =>
                            let ev1 := ev0 ++ [EvWriteConfig (Filename metadata) serialized] in
                            match writeFile env (Filename metadata) serialized with
                            | Some e =>
                                mkOutcome (Some (ErrWrap "failed to write" e)) cfg' clonesDone ev1
                            | None => mkOutcome None cfg' clonesDone ev1
                            end
                        end
                      else
                        match yamlMarshalInrepo env expected with
                        | inl e => mkOutcome (Some (ErrWrap "failed to marshal" e)) cfg clonesDone ev0
                        | inr expectedSerialized =>
                            if bool_decide (0 < pushCeiling)%Z
                               && bool_decide (pushCeiling <= clonesDone)%Z
                            then mkOutcome None cfg clonesDone ev0
                            else
                              let clonesDone' := wrap_int (clonesDone + 1) in
                              let ev1 := ev0 ++ [EvClone (Org metadata) (Repo metadata)] in
                              match clone env (Org metadata) (Repo metadata) with
                              | inl e =>
                                  mkOutcome (Some (ErrWrap "failed to clone" e)) cfg clonesDone' ev1
                              | inr dir =>
                                  let ev2 := ev1 ++ [EvCheckout (Branch metadata)] in
                                  match checkout env dir (Branch metadata) with
                                  | Some e =>
                                      mkOutcome (Some (ErrWrap "failed to checkout" e))
                                                cfg clonesDone' (ev2 ++ deferred)
                                  | None =>
                                      let path := dir +:+ "/" +:+ CIOperatorInrepoConfigFileName in
                                      let ev3 := ev2 ++ [EvWriteInrepo path expectedSerialized] in
                                      match ioutilWriteFile env path expectedSerialized with
                                      | Some e =>
                                          mkOutcome (Some (ErrWrap "falled to write" e))
                                                    cfg clonesDone' (ev3 ++ deferred)
                                      | None =>
                                          mkOutcome
                                            (createPr env dir (Org metadata) (Repo metadata)
                                                      (Branch metadata))
                                            cfg clonesDone'
                                            (ev3
                                               ++ [EvCreatePr dir (Org metadata) (Repo metadata)
                                                              (Branch metadata)]
                                               ++ deferred)
                                      end
                                  end
                              end
                        end
                  end
              end
          end
    end.

(** [main] feeds the configurations to the closure one after the other;
    [clonesDone] starts at 0 and is threaded through. *)
Fixpoint run_from (clonesDone : Z) (inputs : list (ReleaseBuildConfiguration * Info))
  : list outcome :=
  match inputs with
  | [] => []
  | (cfg, md) :: rest =>
      let o := process clonesDone cfg md in
      o :: run_from (clones_after o) rest
  end.

Definition run (inputs : list (ReleaseBuildConfiguration * Info)) : list outcome :=
  run_from 0 inputs.
End Process.

Definition is_clone (e : event) : bool :=
  match e with EvClone _ _ => true | _ => false end.

Definition is_pr (e : event) : bool :=
  match e with EvCreatePr _ _ _ _ => true | _ => false end.

Definition count_in (p : event -> bool) (evs : list event) : nat :=
  length (base.filter (λ e, p e = true) evs).

Definition count_events (p : event -> bool) (os : list outcome) : nat :=
  count_in p (concat (map events os)).

(** The call got past all the early returns and the in-place rewrite:
    the in-repo file was read, differs from the expected one, and the
    expected one serialises. *)
Definition needs_clone (env : Env) (cfg : ReleaseBuildConfiguration) (md : Info) : bool :=
  filter env md &&
  match BuildRootImage cfg with
  | None => false
  | Some bri =>
      negb (FromRepository bri) && bool_decide (Variant md = "")
      && (bool_decide (Branch md = "master") || bool_decide (Branch md = "main"))
      && match ImageStreamTagRef bri with
         | None => false
         | Some istr =>
             match repoFileGetter env (Org md) (Repo md) (Branch md) with
             | inl _ => false
             | inr data =>
                 match yamlUnmarshal env data with
                 | inl _ => false
                 | inr c =>
                     negb (bool_decide (c = mkInrepo istr))
                     && match yamlMarshalInrepo env (mkInrepo istr) with
                        | inl _ => false
                        | inr _ => true
                        end
                 end
             end
         end
  end.

(** The call takes the in-place rewrite branch. *)
Definition already_matches (env : Env) (cfg : ReleaseBuildConfiguration) (md : Info) : bool :=
  filter env md &&
  match BuildRootImage cfg with
  | None => false
  | Some bri =>
      negb (FromRepository bri) && bool_decide (Variant md = "")
      && (bool_decide (Branch md = "master") || bool_decide (Branch md = "main"))
      && match ImageStreamTagRef bri with
         | None => false
         | Some istr =>
             match repoFileGetter env (Org md) (Repo md) (Branch md) with
             | inl _ => false
             | inr data =>
                 match yamlUnmarshal env data with
                 | inl _ => false
                 | inr c => bool_decide (c = mkInrepo istr)
                 end
             end
         end
  end.

(** A small world: every repository carries an outdated
    [.ci-operator.yaml], and every collaborator succeeds. *)
Definition demo_env : Env :=
  mkEnv (λ _, true)
        (λ _ _ _, inr "build_root_image: old")
        (λ _, inr (mkInrepo (mkISTR "openshift" "release" "golang-1.10" "")))
        (λ _, inr "serialized config")
        (λ _, inr "build_root_image: new")
        (λ _ _, None)
        (λ _ _, inr "/tmp/clone")
        (λ _ _, None)
        (λ _ _, None)
        (λ _ _ _ _, None).

Definition demo_cfg : ReleaseBuildConfiguration :=
  mkCfg (Some (mkBRI (Some (mkISTR "openshift" "release" "golang-1.20" "")) false)) "".

Definition demo_inputs : list (ReleaseBuildConfiguration * Info) :=
  [(demo_cfg, mkInfo "openshift" "console" "master" "" "console.yaml");
   (demo_cfg, mkInfo "openshift" "installer" "main" "" "installer.yaml")].

End Creator.

(** ** jobrunbigqueryloader: one job's pipeline *)
Module Loader.

(** [prowv1.ProwJob], the field read here. *)
Record ProwJob : Type := mkProwJob {
  CompletionTime : option Z
}.

(** [jobrunaggregatorapi.JobRunInfo]: an object whose methods answer from
    what was read for the run. *)
Record JobRunInfo : Type := mkInfo {
  InfoRunID : string;
  GetProwJob : error + ProwJob;
  GetAllContent : option error
}.

(** [jobrunaggregatorapi.JobRunRow], the unit written to the sink. *)
Record JobRunRow : Type := mkRow {
  RowName : string;
  RowJobName : string;
  RowPayload : string
}.

(** The collaborators of a job's loader.  [NextJobRunID]
    (jobrunaggregatorlib) and [newJobRunRow] are defined in other files
    of the repository and enter as parameters.  The lister's answer is
    its error or the run identifiers it delivers; what it sends on the
    [errorCh] it also returns is a move of its own, [LoaderObs.FLister]. *)
Record Env : Type := mkEnv {
  getLastJobRunWithDataFn : string -> error + option JobRunRow;
  NextJobRunID : string -> string;
  ListJobRunNamesOlderThanFourHours : string -> string -> error + list string;
  ReadJobRunFromGCS : string -> string -> error + option JobRunInfo;
  newJobRunRow : JobRunInfo -> ProwJob -> JobRunRow;
  Put : JobRunRow -> option error;
  uploadContent : JobRunInfo -> ProwJob -> option error
}.

(** Program points of [jobRunLoaderOptions.Run] and of the goroutine
    around it. *)
Inductive slot_pc : Type :=
| SCreated                        (* built, goroutine not started *)
| SRead                           (* before readJobRunFromGCS *)
| SSelect (jobRun : JobRunInfo)   (* at the select *)
| SUpload (jobRun : JobRunInfo)   (* readyToUpload received, before uploadJobRun *)
| SReturned (err : option error)  (* Run returned, doneUploading closed *)
| SExited.                        (* error sent, Done and Release executed *)

(** [jobRunLoaderOptions]; the two channels are references into the
    channel store. *)
Record jobRunLoaderOptions : Type := mkSlot {
  jobRunID : string;
  readyToUpload : nat;
  doneUploading : nat;
  pc : slot_pc
}.

(** Program points of [jobLoaderOptions.Run] from the loop on. *)
Inductive main_pc : Type :=
| MRange                          (* for jobRunID := range jobRunProcessingCh *)
| MAcquire (jrID : string)        (* slot built, at concurrentWorkers.Acquire *)
| MWait                           (* currentUploaders.Wait() *)
| MReturned (err : option error).

Record state : Type := mkState {
  pending : list string;          (* still to come out of jobRunProcessingCh *)
  chans : list nat;               (* per channel: number of close() calls *)
  lastDoneUploadingCh : nat;
  semCur : Z;                     (* tokens of concurrentWorkers in use *)
  currentUploaders : nat;         (* the WaitGroup counter *)
  slots : list jobRunLoaderOptions;
  insertionErrors : list error;   (* what came through errorCh *)
  sink : list JobRunRow;          (* rows accepted by jobRunInserter.Put *)
  ctxDone : bool;
  main : main_pc
}.

(** Who moves next.  At the select a slot takes [ASlot] for the
    [readyToUpload] case and [ASlotCtxDone] for the [ctx.Done()] case;
    [AAcquireFail] is [Acquire] giving up on a done context. *)
Inductive action : Type :=
| AMain
| AAcquireFail
| ACancel
| ASlot (i : nat)
| ASlotCtxDone (i : nat).

Definition closeChan (c : nat) (cs : list nat) : list nat := alter S c cs.

Definition isClosed (c : nat) (cs : list nat) : bool :=
  match cs !! c with
  | Some (S _) => true
  | _ => false
  end.

Definition set_pc (p : slot_pc) (sl : jobRunLoaderOptions) : jobRunLoaderOptions :=
  mkSlot (jobRunID sl) (readyToUpload sl) (doneUploading sl) p.

Section Pipeline.
Variable env : Env.
Variable jobName : string.
Variable numberOfConcurrentReaders : Z.

(** [readJobRunFromGCS]. *)
Definition readJobRunFromGCS (jrID : string) : error + option JobRunInfo :=
  match ReadJobRunFromGCS env jobName jrID with
  | inl err => inl err
  | inr None => inr None
  | inr (Some jobRunInfo) =>
      match GetProwJob jobRunInfo with
      | inl err => inl (ErrWrap "failed to get prowjob for jobrun" err)
      | inr prowjob =>
          match CompletionTime prowjob with
          | None => inr None
          | Some _ =>
              match GetAllContent jobRunInfo with
              | Some err => inl (ErrWrap "failed to get all content for jobrun" err)
              | None => inr (Some jobRunInfo)
              end
          end
      end
  end.

(** [uploadJobRun]: the returned error and the row the sink accepted. *)
Definition uploadJobRun (jobRun : JobRunInfo) : option error * list JobRunRow :=
  match GetProwJob jobRun with
  | inl err => (Some err, [])
  | inr prowJob =>
      let jobRunRow := newJobRunRow env jobRun prowJob in
      match Put env jobRunRow with
      | Some err => (Some err, [])
      | None =>
          match uploadContent env jobRun prowJob with
          | Some err => (Some err, [jobRunRow])
          | None => (None, [jobRunRow])
          end
      end
  end.

(** Leaving [Run] with [err]: the deferred [close(o.doneUploading)]. *)
Definition slot_return (i : nat) (sl : jobRunLoaderOptions) (err : option error)
           (rows : list JobRunRow) (s : state) : state :=
  mkState (pending s) (closeChan (doneUploading sl) (chans s)) (lastDoneUploadingCh s)
          (semCur s) (currentUploaders s)
          (<[i := set_pc (SReturned err) sl]> (slots s))
          (insertionErrors s) (sink s ++ rows) (ctxDone s) (main s).

Definition slot_goto (i : nat) (sl : jobRunLoaderOptions) (p : slot_pc) (s : state) : state :=
  mkState (pending s) (chans s) (lastDoneUploadingCh s) (semCur s) (currentUploaders s)
          (<[i := set_pc p sl]> (slots s))
          (insertionErrors s) (sink s) (ctxDone s) (main s).

(** The goroutine's tail: [errorCh <- err] when [Run] failed, then the
    deferred [currentUploaders.Done()] and [concurrentWorkers.Release(1)]. *)
Definition slot_exit (i : nat) (sl : jobRunLoaderOptions) (err : option error) (s : state)
  : state :=
  mkState (pending s) (chans s) (lastDoneUploadingCh s)
          (semCur s - 1)%Z (Nat.pred (currentUploaders s))
          (<[i := set_pc SExited sl]> (slots s))
          (insertionErrors s ++ match err with Some e => [e] | None => [] end)
          (sink s) (ctxDone s) (main s).

Definition set_main (m : main_pc) (s : state) : state :=
  mkState (pending s) (chans s) (lastDoneUploadingCh s) (semCur s) (currentUploaders s)
          (slots s) (insertionErrors s) (sink s) (ctxDone s) m.

Definition step_slot (i : nat) (s : state) : option state :=
  match slots s !! i with
  | None => None
  | Some sl =>
      match pc sl with
      | SCreated => None
      | SRead =>
          match readJobRunFromGCS (jobRunID sl) with
          | inl err => Some (slot_return i sl (Some err) [] s)
          | inr None => Some (slot_return i sl None [] s)
          | inr (Some jobRun) => Some (slot_goto i sl (SSelect jobRun) s)
          end
      | SSelect jobRun =>
          if isClosed (readyToUpload sl) (chans s)
          then Some (slot_goto i sl (SUpload jobRun) s)
          else None
      | SUpload jobRun =>
          match uploadJobRun jobRun with
          | (Some err, rows) =>
              Some (slot_return i sl (Some (ErrWrap "failed to upload to bigquery" err)) rows s)
          | (None, rows) => Some (slot_return i sl None rows s)
          end
      | SReturned err => Some (slot_exit i sl err s)
      | SExited => None
      end
  end.

(** The [case <-ctx.Done(): return nil] branch of the select. *)
Definition step_slot_ctx_done (i : nat) (s : state) : option state :=
  match slots s !! i with
  | None => None
  | Some sl =>
      match pc sl with
      | SSelect _ => if ctxDone s then Some (slot_return i sl None [] s) else None
      | _ => None
      end
  end.

(** [newJobRunBigQueryLoaderOptions]: [make(chan struct{})] allocates the
    next channel of the store. *)
Definition newJobRunBigQueryLoaderOptions (jrID : string) (readyToUpload : nat)
           (cs : list nat) : jobRunLoaderOptions * list nat :=
  (mkSlot jrID readyToUpload (length cs) SCreated, cs ++ [0]).

Definition step_main (s : state) : option state :=
  match main s with
  | MRange =>
      match pending s with
      | [] => Some (set_main MWait s)
      | jrID :: rest =>
          let '(jobRunInserter, cs) :=
            newJobRunBigQueryLoaderOptions jrID (lastDoneUploadingCh s) (chans s) in
          Some (mkState rest cs (doneUploading jobRunInserter) (semCur s)
                        (currentUploaders s) (slots s ++ [jobRunInserter])
                        (insertionErrors s) (sink s) (ctxDone s) (MAcquire jrID))
      end
  | MAcquire _ =>
      if bool_decide (semCur s + 1 <= numberOfConcurrentReaders)%Z then
        let i := Nat.pred (length (slots s)) in
        Some (mkState (pending s) (chans s) (lastDoneUploadingCh s)
                      (semCur s + 1)%Z (S (currentUploaders s))
                      (alter (set_pc SRead) i (slots s))
                      (insertionErrors s) (sink s) (ctxDone s) MRange)
      else None
  | MWait =>
      match currentUploaders s with
      | O => Some (set_main (MReturned (NewAggregate (insertionErrors s))) s)
      | S _ => None
      end
  | MReturned _ => None
  end.

Definition step_acquire_fail (s : state) : option state :=
  match main s with
  | MAcquire _ => if ctxDone s then Some (set_main (MReturned (Some ErrCanceled)) s) else None
  | _ => None
  end.

Definition step_cancel (s : state) : option state :=
  if ctxDone s then None
  else Some (mkState (pending s) (chans s) (lastDoneUploadingCh s) (semCur s)
                     (currentUploaders s) (slots s) (insertionErrors s) (sink s)
                     true (main s)).

Definition exec (a : action) (s : state) : option state :=
  match a with
  | AMain => step_main s
  | AAcquireFail => step_acquire_fail s
  | ACancel => step_cancel s
  | ASlot i => step_slot i s
  | ASlotCtxDone i => step_slot_ctx_done i s
  end.

(** A schedule is run action by action; [None] when an action is not
    enabled where the schedule asks for it. *)
Fixpoint run (sched : list action) (s : state) : option state :=
  match sched with
  | [] => Some s
  | a :: rest =>
      match exec a s with
      | None => None
      | Some s' => run rest s'
      end
  end.

(** The loop is entered with [lastDoneUploadingCh] made and closed, the
    semaphore and the WaitGroup fresh. *)
Definition init (ids : list string) : state :=
  mkState ids [1] 0 0%Z 0 [] [] [] false MRange.

(** The resume point computed at the top of [jobLoaderOptions.Run]. *)
Definition startingJobRunID (lastJobRun : option JobRunRow) : string :=
  match lastJobRun with
  | None => "0"
  | Some row => NextJobRunID env (RowName row)
  end.

(** [jobLoaderOptions.Run] up to the loop: either it returns the error
    of the lookup or of the listing, or the loop starts on the listed
    run identifiers. *)
Definition Run_start : error + state :=
  match getLastJobRunWithDataFn env jobName with
  | inl err => inl err
  | inr lastJobRun =>
      match ListJobRunNamesOlderThanFourHours env jobName (startingJobRunID lastJobRun) with
      | inl err => inl err
      | inr ids => inr (init ids)
      end
  end.

End Pipeline.

(** *** Observations on states *)

(** [Run] has returned (its gate is closed). *)
Definition returned (p : slot_pc) : bool :=
  match p with
  | SReturned _ | SExited => true
  | _ => false
  end.

(** The goroutine is started and has not yet run its deferred
    [Release]. *)
Definition active (p : slot_pc) : bool :=
  match p with
  | SRead | SSelect _ | SUpload _ | SReturned _ => true
  | _ => false
  end.

Definition fetching (p : slot_pc) : bool :=
  match p with
  | SRead => true
  | _ => false
  end.

Definition count_slots (f : slot_pc -> bool) (sls : list jobRunLoaderOptions) : nat :=
  sum_list_with (λ sl, if f (pc sl) then 1 else 0) sls.

Definition slot_weight (p : slot_pc) : nat :=
  match p with
  | SCreated => 5
  | SRead => 4
  | SSelect _ => 3
  | SUpload _ => 2
  | SReturned _ => 1
  | SExited => 0
  end.

Definition main_weight (m : main_pc) : nat :=
  match m with
  | MRange | MAcquire _ => 2
  | MWait => 1
  | MReturned _ => 0
  end.

(** A bound on the number of steps left. *)
Definition measure (s : state) : nat :=
  7 * length (pending s) + main_weight (main s)
  + sum_list_with (λ sl, slot_weight (pc sl)) (slots s)
  + (if ctxDone s then 0 else 1).

(** The rows the sink accepts for a run: those of [uploadJobRun] when the
    read classifies the run as ready, none otherwise. *)
Definition commit_rows (env : Env) (jobName : string) (jrID : string) : list JobRunRow :=
  match readJobRunFromGCS env jobName jrID with
  | inr (Some jobRun) => snd (uploadJobRun env jobRun)
  | _ => []
  end.

(** What holds of every state of a job's pipeline started on [ids]. *)
Record Inv (env : Env) (jobName : string) (N : Z) (ids : list string) (s : state)
  : Prop := mkInv {
  inv_ids : map jobRunID (slots s) ++ pending s = ids;
  inv_chans : length (chans s) = S (length (slots s));
  inv_last : lastDoneUploadingCh s = length (slots s);
  inv_first : chans s !! 0 = Some 1;
  inv_slot : forall k sl, slots s !! k = Some sl ->
    readyToUpload sl = k /\ doneUploading sl = S k
    /\ chans s !! S k = Some (if returned (pc sl) then 1 else 0);
  inv_sem : semCur s = Z.of_nat (count_slots active (slots s));
  inv_wg : currentUploaders s = count_slots active (slots s);
  inv_bound : (semCur s <= Z.max 0 N)%Z;
  inv_created : forall k sl, slots s !! k = Some sl -> pc sl = SCreated ->
    S k = length (slots s)
    /\ match main s with
       | MAcquire _ => True
       | MReturned _ => ctxDone s = true
       | _ => False
       end;
  inv_acquire : forall jr, main s = MAcquire jr ->
    exists sl, slots s !! Nat.pred (length (slots s)) = Some sl /\ pc sl = SCreated;
  inv_wait : main s = MWait -> pending s = [];
  inv_ret : forall r, main s = MReturned r ->
    ctxDone s = true
    \/ (pending s = [] /\ r = NewAggregate (insertionErrors s)
        /\ forall k sl, slots s !! k = Some sl -> pc sl = SExited);
  inv_info : forall k sl jobRun, slots s !! k = Some sl ->
    pc sl = SSelect jobRun \/ pc sl = SUpload jobRun ->
    readJobRunFromGCS env jobName (jobRunID sl) = inr (Some jobRun);
  inv_upload : forall k sl jobRun, slots s !! k = Some sl ->
    pc sl = SUpload jobRun -> isClosed (readyToUpload sl) (chans s) = true
}.

(** With no cancellation and every run ready, the slots that have
    returned are the first [m], and the sink holds their rows in order. *)
Definition Ordered (env : Env) (jobName : string) (ids : list string) (s : state) : Prop :=
  exists m,
    m <= length (slots s)
    /\ (forall k sl, slots s !! k = Some sl -> returned (pc sl) = true <-> k < m)
    /\ sink s = take m ids ≫= commit_rows env jobName.

(** The token discipline under which a token is held only during the
    read and given back right after it: the tokens in use are never more
    than the slots that are reading. *)
Definition token_released_after_fetch (env : Env) (jobName : string) (N : Z)
           (ids : list string) : Prop :=
  forall sched s,
    run env jobName N sched (init ids) = Some s ->
    (semCur s <= Z.of_nat (count_slots fetching (slots s)))%Z.

(** The ordering as the specification words it, with no condition on
    the context: when every listed run is ready and every upload
    succeeds, whatever the sink holds is in listing order, along every
    schedule. *)
Definition commits_in_listing_order (env : Env) (jobName : string) (N : Z)
           (ids : list string) : Prop :=
  (forall id, id ∈ ids ->
     exists jobRun row,
       readJobRunFromGCS env jobName id = inr (Some jobRun)
       /\ uploadJobRun env jobRun = (None, [row])) ->
  forall sched s,
    run env jobName N sched (init ids) = Some s ->
    sublist (sink s) (ids ≫= commit_rows env jobName).

(** *** A small store *)

(** Run identifiers read as decimal numbers (anything else reads as 0),
    and the order they are compared in. *)
Definition id_num (id : string) : N :=
  match NilZero.uint_of_string id with
  | Some d => N.of_uint d
  | None => 0%N
  end.

Definition id_lt (a b : string) : Prop := (id_num a < id_num b)%N.

(** Modelled from the spec: [jobrunaggregatorlib.NextJobRunID], whose
    source is missing here, as the successor function that maps an
    identifier to the next one in the (numeric) identifier space. *)
Definition decimal_successor (id : string) : string :=
  NilZero.string_of_uint (N.to_uint (N.succ (id_num id))).

(** Job [release-amd64]: the sink's latest row is run 5, the store holds
    runs 3 to 8, of which 7 has not finished; every collaborator succeeds. *)
Definition demo_env : Env :=
  mkEnv (λ _, inr (Some (mkRow "5" "release-amd64" "")))
        decimal_successor
        (λ _ start,
           inr (base.filter (λ id, (id_num start <= id_num id)%N)
                            ["3"; "4"; "5"; "6"; "7"; "8"]))
        (λ _ jrID,
           inr (Some (mkInfo jrID
                             (inr (mkProwJob (if bool_decide (jrID = "7")
                                              then None else Some 1700000000%Z)))
                             None)))
        (λ jobRun _, mkRow (InfoRunID jobRun) "release-amd64" "")
        (λ _, None)
        (λ _ _, None).

End Loader.

(** ** jobrunbigqueryloader: the worker pool over all jobs *)
Module Pool.

(** [jobrunaggregatorapi.JobRow]. *)
Record JobRow : Type := mkJob {
  JobName : string;
  CollectTestRuns : bool;
  CollectDisruption : bool
}.

Definition wantsTestRunData (job : JobRow) : bool := CollectTestRuns job.
Definition wantsDisruptionData (job : JobRow) : bool := CollectDisruption job.

(** [jobLoaderOptions], the fields that are not collaborators. *)
Record jobLoaderOptions : Type := mkJobLoaderOptions {
  jobName : string;
  numberOfConcurrentReaders : Z
}.

Definition newJobBigQueryLoaderOptions (job : JobRow) : jobLoaderOptions :=
  mkJobLoaderOptions (JobName job) 20.

(** What [allJobsLoaderOptions] is configured with: the job lister, the
    collection predicate, and what [jobLoader.Run] returns for a job. *)
Record Env : Type := mkEnv {
  ListAllJobs : error + list JobRow;
  shouldCollectedDataForJobFn : JobRow -> bool;
  jobLoaderRun : jobLoaderOptions -> option error
}.

(** Program points of [processJobs]. *)
Inductive worker : Type :=
| WRange                     (* for job := range jobChan *)
| WRunning (job : JobRow)    (* inside jobLoader.Run *)
| WSend (err : error)        (* at errChan <- err *)
| WDone.                     (* wg.Done() executed *)

Record state : Type := mkState {
  jobChan : list JobRow;       (* the closed, pre-filled queue *)
  errChan : list error;
  errChanCap : nat;
  workers : list worker;
  wg : nat;
  returned : option (option error)
}.

Inductive action : Type :=
| PWorker (w : nat)
| PMain.

Section PoolRun.
Variable env : Env.

Definition set_worker (w : nat) (x : worker) (s : state) : state :=
  mkState (jobChan s) (errChan s) (errChanCap s) (<[w := x]> (workers s)) (wg s) (returned s).

Definition step_worker (w : nat) (s : state) : option state :=
  match workers s !! w with
  | None => None
  | Some WRange =>
      match jobChan s with
      | [] =>
          Some (mkState [] (errChan s) (errChanCap s) (<[w := WDone]> (workers s))
                        (Nat.pred (wg s)) (returned s))
      | job :: rest =>
          if negb (shouldCollectedDataForJobFn env job)
          then Some (mkState rest (errChan s) (errChanCap s) (workers s) (wg s) (returned s))
          else Some (mkState rest (errChan s) (errChanCap s) (<[w := WRunning job]> (workers s))
                             (wg s) (returned s))
      end
  | Some (WRunning job) =>
      match jobLoaderRun env (newJobBigQueryLoaderOptions job) with
      | Some err => Some (set_worker w (WSend err) s)
      | None => Some (set_worker w WRange s)
      end
  | Some (WSend err) =>
      if bool_decide (length (errChan s) < errChanCap s)
      then Some (mkState (jobChan s) (errChan s ++ [err]) (errChanCap s)
                         (<[w := WRange]> (workers s)) (wg s) (returned s))
      else None
  | Some WDone => None
  end.

(** [wg.Wait()], then the drain of [errChan] into the aggregate. *)
Definition step_main (s : state) : option state :=
  match returned s, wg s with
  | None, O =>
      Some (mkState (jobChan s) (errChan s) (errChanCap s) (workers s) (wg s)
                    (Some (NewAggregate (errChan s))))
  | _, _ => None
  end.

Definition exec (a : action) (s : state) : option state :=
  match a with
  | PWorker w => step_worker w s
  | PMain => step_main s
  end.

Fixpoint run (sched : list action) (s : state) : option state :=
  match sched with
  | [] => Some s
  | a :: rest =>
      match exec a s with
      | None => None
      | Some s' => run rest s'
      end
  end.

(** After the queue is filled and closed and the 20 workers are
    launched. *)
Definition init (jobs : list JobRow) : state :=
  mkState jobs [] (length jobs) (replicate 20 WRange) 20 None.

(** [allJobsLoaderOptions.Run] before the pool starts. *)
Definition Run_start : error + state :=
  match ListAllJobs env with
  | inl err => inl (ErrWrap "failed to get jobs" err)
  | inr jobs => inr (init jobs)
  end.

(** The errors of the jobs that are collected and whose loader fails. *)
Definition job_error (job : JobRow) : option error :=
  if shouldCollectedDataForJobFn env job
  then jobLoaderRun env (newJobBigQueryLoaderOptions job)
  else None.

Definition failures (jobs : list JobRow) : list error := omap job_error jobs.
End PoolRun.

Definition busy (w : worker) : bool :=
  match w with
  | WRunning _ => true
  | _ => false
  end.

Definition busy_workers (s : state) : nat :=
  length (base.filter (λ w, busy w = true) (workers s)).

(** Errors a worker still has to deliver: the one it is sending, or the
    one the loader it is running will return. *)
Definition owed (env : Env) (w : worker) : list error :=
  match w with
  | WSend err => [err]
  | WRunning job => option_list (jobLoaderRun env (newJobBigQueryLoaderOptions job))
  | _ => []
  end.

Definition live (w : worker) : nat :=
  match w with
  | WDone => 0
  | _ => 1
  end.

(** Steps a worker can still take without pulling a job. *)
Definition weight (w : worker) : nat :=
  match w with
  | WRunning _ => 3
  | WSend _ => 2
  | WRange => 1
  | WDone => 0
  end.

Definition measure (s : state) : nat :=
  3 * length (jobChan s) + sum_list_with weight (workers s)
  + match returned s with None => 1 | Some _ => 0 end.

(** What holds of every state the pool reaches from [init jobs]. *)
Record Inv (env : Env) (jobs : list JobRow) (s : state) : Prop := mkInv {
  inv_cap : errChanCap s = length jobs;
  inv_owed :
    errChan s ++ (workers s ≫= owed env) ++ failures env (jobChan s) ≡ₚ failures env jobs;
  inv_wg : wg s = sum_list_with live (workers s);
  inv_done : forall w, workers s !! w = Some WDone -> jobChan s = [];
  inv_len : length (workers s) = 20;
  inv_ret : forall r, returned s = Some r -> wg s = 0 /\ r = NewAggregate (errChan s)
}.

(** Three jobs: one that loads, one whose loader fails, one that is not
    collected. *)
Definition demo_jobs : list JobRow :=
  [mkJob "release-amd64" true false; mkJob "release-arm64" true false;
   mkJob "periodic-misc" false true].

Definition demo_env : Env :=
  mkEnv (inr demo_jobs)
        wantsTestRunData
        (λ o, if bool_decide (jobName o = "release-arm64")
              then Some (ErrMsg "listing job runs failed")
              else None).

(** Workers 0 and 1 pull the first two jobs, worker 2 skips the third;
    the loaders finish, the error is sent, every worker leaves its loop
    and the main goroutine collects. *)
Definition demo_schedule : list action :=
  [PWorker 0; PWorker 1; PWorker 2; PWorker 1; PWorker 0; PWorker 1]
    ++ map PWorker (seq 0 20) ++ [PMain].

End Pool.

(** ** github-ldap-user-group-creator: validation, pruning, group making *)
Module Reconcile.
Import Groups.

(** [errors.IsNotFound] looks through wrapping. *)
Fixpoint IsNotFound (e : error) : bool :=
  match e with
  | ErrNotFound => true
  | ErrWrap _ inner => IsNotFound inner
  | _ => false
  end.

(** The loop of [validate] over [group.Users], with the set of members
    seen so far. *)
Fixpoint validate_members (members : gset string) (users : list string) : option error :=
  match users with
  | [] => None
  | m :: rest =>
      if bool_decide (m = "") then Some (ErrMsg "member name in group cannot be empty")
      else if bool_decide (m ∈ members) then Some (ErrMsg ("duplicate member: " +:+ m))
      else validate_members ({[m]} ∪ members) rest
  end.

(** [validate]. *)
Definition validate (group : Group) : option error :=
  if bool_decide (Name group = "") then Some (ErrMsg "group name cannot be empty")
  else validate_members ∅ (default [] (Users group)).

(** The closure [handleGroup] of [ensureGroups]. *)
Definition handleGroup (dryRun : bool) (clusterName : string) (group : Group) (c : cluster)
  : option error * cluster :=
  match validate group with
  | Some err => (Some (ErrWrap "attempt to create invalid group" err), c)
  | None =>
      if dryRun then (None, c)
      else
        let '((_, err), c') := UpsertGroup group c in
        match err with
        | Some e => (Some (ErrWrap "failed to upsert group" e), c')
        | None => (None, c')
        end
  end.

(** [GroupClusters]. *)
Record GroupClusters : Type := mkGroupClusters {
  Clusters : gset string;
  Group_ : Group
}.

(** A label selector [MatchingLabels{key: value}] on a group. *)
Definition matches_label (key value : string) (g : Group) : bool :=
  bool_decide ((list_to_map (Labels g) : gmap string string) !! key = Some value).

(** [client.List] with a label selector: a read, which consumes one
    entry of the fault script and is not entered in the log of calls. *)
Definition clientList (key value : string) (c : cluster) : (error + list Group) * cluster :=
  let '(f, fs) := next_fault c in
  match f with
  | Some e => (inl e, mkCluster (store c) fs (log c))
  | None =>
      (inr (base.filter (λ g, matches_label key value g = true) (map_to_list (store c)).*2),
       mkCluster (store c) fs (log c))
  end.

Section Prune.
Variable DPTPRequesterLabel : string.
Variable toolName : string.
Variable CIAdminsGroupName : string.
Variable groupsToCreate : gmap string GroupClusters.
Variable dryRun : bool.
Variable clusterName : string.

(** [shouldDelete] for a listed group. *)
Definition shouldDelete (group : Group) : bool :=
  match groupsToCreate !! Name group with
  | None => true
  | Some groupClusters => negb (bool_decide (clusterName ∈ Clusters groupClusters))
  end.

(** The loop over [groups.Items]. *)
Fixpoint pruneItems (items : list Group) (errs : list error) (c : cluster)
  : list error * cluster :=
  match items with
  | [] => (errs, c)
  | group :: rest =>
      if shouldDelete group then
        if bool_decide (Name group = CIAdminsGroupName) then
          (* should never happen *)
          pruneItems rest (errs ++ [ErrMsg ("attempt to delete group " +:+ Name group)]) c
        else if dryRun then pruneItems rest errs c
        else
          let '(err, c') := clientDelete (mkGroup (Name group) None []) c in
          match err with
          | Some e =>
              if negb (IsNotFound e)
              then pruneItems rest (errs ++ [ErrWrap "failed to delete group" e]) c'
              else pruneItems rest errs c'
          | None => pruneItems rest errs c'
          end
      else pruneItems rest errs c
  end.

(** The first half of one iteration of [ensureGroups] over the clusters:
    list the groups the tool labelled and delete the stale ones. *)
Definition prune (errs : list error) (c : cluster) : list error * cluster :=
  let '(r, c1) := clientList DPTPRequesterLabel toolName c in
  match r with
  | inl e => (errs ++ [ErrWrap "failed to list groups" e], c1)
  | inr items => pruneItems items errs c1
  end.

(** The groups [prune] is out to delete. *)
Definition stale (g : Group) : bool :=
  matches_label DPTPRequesterLabel toolName g && shouldDelete g
  && negb (bool_decide (Name g = CIAdminsGroupName)).
End Prune.

(** A cluster holding the tool's group [devs] (users ann, bob), the
    tool's group [old-team], the tool's [ci-admins] and a group [manual]
    the tool did not create. *)
Definition demo_label : list (string * string) := [("dptp.openshift.io/requester", "tool")].

Definition demo_store : gmap string Group :=
  <["devs" := mkGroup "devs" (Some ["ann"; "bob"]) demo_label]>
    (<["old-team" := mkGroup "old-team" (Some ["carl"]) demo_label]>
       (<["ci-admins" := mkGroup "ci-admins" (Some ["dan"; "eve"; "fay"]) demo_label]>
          (<["manual" := mkGroup "manual" (Some ["gus"]) []]> ∅))).

(** The wanted groups: [devs] on clusters app.ci and build01. *)
Definition demo_wanted : gmap string GroupClusters :=
  <["devs" := mkGroupClusters {["app.ci"; "build01"]}
                              (mkGroup "devs" (Some ["ann"; "bob"; "hal"]) demo_label)]> ∅.

End Reconcile.

(** ** ci-operator-yaml-creator: observations on the calls of [process] *)
Module CreatorObs.
Import Creator.

Definition is_checkout (e : event) : bool :=
  match e with EvCheckout _ => true | _ => false end.

Definition is_clean (e : event) : bool :=
  match e with EvClean => true | _ => false end.

(** The early returns of the closure: the filter rejects the
    repository, there is no build root, the build root is already read
    from the repository, the configuration is a variant, the branch is
    neither master nor main, or the build root is not an image stream
    tag. *)
Definition skipped (env : Env) (cfg : ReleaseBuildConfiguration) (md : Info) : Prop :=
  filter env md = false
  \/ BuildRootImage cfg = None
  \/ exists bri,
      BuildRootImage cfg = Some bri
      /\ (FromRepository bri = true
          \/ Variant md <> ""
          \/ (Branch md <> "master" /\ Branch md <> "main")
          \/ ImageStreamTagRef bri = None).

(** As [demo_env], with a clone that fails. *)
Definition failing_clone_env : Env :=
  mkEnv (filter demo_env) (repoFileGetter demo_env) (yamlUnmarshal demo_env)
        (yamlMarshalCfg demo_env) (yamlMarshalInrepo demo_env) (writeFile demo_env)
        (λ _ _, inl (ErrMsg "git clone failed"))
        (checkout demo_env) (ioutilWriteFile demo_env) (createPr demo_env).

(** As [demo_env], with in-repo files that are up to date. *)
Definition matching_env : Env :=
  mkEnv (filter demo_env) (repoFileGetter demo_env)
        (λ _, inr (mkInrepo (mkISTR "openshift" "release" "golang-1.20" "")))
        (yamlMarshalCfg demo_env) (yamlMarshalInrepo demo_env) (writeFile demo_env)
        (clone demo_env) (checkout demo_env) (ioutilWriteFile demo_env) (createPr demo_env).

End CreatorObs.

(** ** jobrunbigqueryloader: what a job's pipeline accounts for *)
Module LoaderObs.
Import Loader.





(** Three runs, two tokens: the second run is read and found absent or
    unfinished before anything else happens, the third is read and
    uploaded, and only then the first. *)
Definition overtaking_schedule : list action :=
  [AMain; AMain; AMain; AMain; ASlot 1; ASlot 1; AMain; AMain;
   ASlot 2; ASlot 2; ASlot 2; ASlot 2;
   ASlot 0; ASlot 0; ASlot 0; ASlot 0; AMain; AMain].

(** How [jobLoaderOptions.Run] can have returned: with the context's
    error from a cancelled [Acquire], or with the aggregate once the
    listing is exhausted and every slot has exited. *)
Definition ReturnShape (s : state) : Prop :=
  forall r, main s = MReturned r ->
    (r = Some ErrCanceled /\ ctxDone s = true)
    \/ (pending s = [] /\ r = NewAggregate (insertionErrors s)
        /\ forall k sl, slots s !! k = Some sl -> pc sl = SExited).

(** *** The whole of [jobLoaderOptions.Run] *)

(** [ListJobRunNamesOlderThanFourHours] returns, with the channel of run
    identifiers, the channel [errorCh].  The goroutine started at the
    top of [Run] appends whatever is received from [errorCh] to
    [insertionErrors], and [Run] reads [insertionErrors] only after it
    has closed [errorCh] and taken the lock that goroutine holds until
    the channel is drained: what [Run] aggregates is the sequence of
    values sent on [errorCh], which is what the field [insertionErrors]
    of a state records.  Besides the slots' goroutines, the lister (its
    code is not part of this repository slice) holds [errorCh] and may
    send on it, anything and at any time: [FLister e] is such a send,
    possible as long as [Run] has not returned. *)
Inductive full_action : Type :=
| FStep (a : action)
| FLister (e : error).

Definition lister_send (e : error) (s : state) : option state :=
  match main s with
  | MReturned _ => None
  | _ =>
      Some (mkState (pending s) (chans s) (lastDoneUploadingCh s) (semCur s)
                    (currentUploaders s) (slots s) (insertionErrors s ++ [e])
                    (sink s) (ctxDone s) (main s))
  end.


(** How far a call of [jobLoaderOptions.Run] has got: it has returned
    the error of the lookup or of the listing before starting anything,
    or it is in (or past) its loop. *)
Inductive full_outcome : Type :=
| ReturnedEarly (err : error)
| InLoop (s : state).

Section FullRun.
Variable env : Env.
Variable jobName : string.
Variable numberOfConcurrentReaders : Z.

Definition full_exec (a : full_action) (s : state) : option state :=
  match a with
  | FStep a => exec env jobName numberOfConcurrentReaders a s
  | FLister e => lister_send e s
  end.

Fixpoint full_run (sched : list full_action) (s : state) : option state :=
  match sched with
  | [] => Some s
  | a :: rest =>
      match full_exec a s with
      | None => None
      | Some s' => full_run rest s'
      end
  end.

(** [jobLoaderOptions.Run] from its first line, along a schedule. *)
Definition Run_full (sched : list full_action) : option full_outcome :=
  match Run_start env jobName with
  | inl err =>
      match sched with
      | [] => Some (ReturnedEarly err)
      | _ :: _ => None
      end
  | inr s0 => InLoop <$> full_run sched s0
  end.

(** The value [Run] has returned, if it has. *)
Definition Run_returned (o : full_outcome) : option (option error) :=
  match o with
  | ReturnedEarly err => Some (Some err)
  | InLoop s =>
      match main s with
      | MReturned r => Some r
      | _ => None
      end
  end.


End FullRun.

(** As [demo_env], with a sink whose lookup of the latest run fails. *)
Definition failing_lookup_env : Env :=
  mkEnv (fun _ => inl (ErrMsg "bigquery unavailable"))
        (NextJobRunID demo_env) (ListJobRunNamesOlderThanFourHours demo_env)
        (ReadJobRunFromGCS demo_env) (newJobRunRow demo_env) (Put demo_env)
        (uploadContent demo_env).

End LoaderObs.

(** ** jobrunhistoricaldataanalyzer: [compareAndUpdate] *)
Module Analyzer.

(** Go's [int] and [time.Duration] (an [int64]) on 64-bit targets. *)
Definition wrap64 (z : Z) : Z := ((z + 2 ^ 63) mod 2 ^ 64 - 2 ^ 63)%Z.

(** [jobrunaggregatorapi.HistoricalDataRow]: the fields read here and the
    rest of the row. *)
Record HistoricalDataRow : Type := mkHistRow {
  Release : string;
  P99 : string;
  P95 : string;
  RowRest : string
}.

(** [parsedJobData]; [emptyParsed] is its zero value. *)
Record parsedJobData : Type := mkParsed {
  Row : HistoricalDataRow;
  DurationP99 : Z;
  DurationP95 : Z;
  TimeDiff : Z;
  Type_ : string;
  NoPrevData : bool
}.

Definition emptyRow : HistoricalDataRow := mkHistRow "" "" "" "".

Record compareResults : Type := mkResults {
  increaseCount : Z;
  decreaseCount : Z;
  addedJobs : list string;
  jobs : list parsedJobData;
  missingJobs : list parsedJobData
}.

Section Compare.
(** [getDurationFromString] is defined in another file of the package
    and enters as a parameter; [leeway] and [dataType] are the fields of
    the options read by [compareAndUpdate]. *)
Variable getDurationFromString : string -> Z.
Variable leeway : Z.
Variable dataType : string.

(** The accumulators of the first loop. *)
Record acc : Type := mkAcc {
  acc_increase : Z;
  acc_decrease : Z;
  acc_results : list parsedJobData;
  acc_added : list string
}.

(** One iteration of [for key, new := range newData]. *)
Definition visit_new (currentData : gmap string HistoricalDataRow) (release : string)
           (a : acc) (entry : string * HistoricalDataRow) : acc :=
  let '(key, new) := entry in
  if negb (bool_decide (Release new = release)) then a
  else
    let newP99 := getDurationFromString (P99 new) in
    let newP95 := getDurationFromString (P95 new) in
    match currentData !! key with
    | Some old =>
        let oldP99 := getDurationFromString (P99 old) in
        let timeDiff := wrap64 (newP99 - oldP99) in
        let hasPrevData := negb (bool_decide (oldP99 = 0%Z)) in
        let increased :=
          bool_decide (oldP99 < newP99)%Z && bool_decide (leeway < timeDiff)%Z && hasPrevData in
        let decreased := bool_decide (newP99 < oldP99)%Z in
        mkAcc (if increased then wrap64 (acc_increase a + 1) else acc_increase a)
              (if decreased then wrap64 (acc_decrease a + 1) else acc_decrease a)
              (acc_results a
                 ++ [mkParsed new newP99 newP95 (if increased then timeDiff else 0%Z)
                              dataType false])
              (acc_added a)
    | None =>
        mkAcc (acc_increase a) (acc_decrease a)
              (acc_results a ++ [mkParsed new newP99 newP95 0%Z dataType false])
              (acc_added a ++ [key])
    end.

(** One iteration of [for key, old := range currentData]. *)
Definition visit_current (newData : gmap string HistoricalDataRow)
           (missing : list parsedJobData) (entry : string * HistoricalDataRow)
  : list parsedJobData :=
  let '(key, old) := entry in
  match newData !! key with
  | Some _ => missing
  | None => missing ++ [mkParsed old 0%Z 0%Z 0%Z "" true]
  end.

(** [compareAndUpdate].  [newOrder] and [currentOrder] are the orders in
    which the two [range] loops happen to visit the entries of the maps
    [newData] and [currentData]. *)
Definition compareAndUpdate (newData currentData : gmap string HistoricalDataRow)
           (newOrder currentOrder : list (string * HistoricalDataRow))
           (release : string) (newReleaseEvent : bool) : compareResults :=
  (* If we're in a new release event, we don't care about the current data *)
  let currentData' := if newReleaseEvent then ∅ else currentData in
  let currentOrder' := if newReleaseEvent then [] else currentOrder in
  let a := foldl (visit_new currentData' release) (mkAcc 0 0 [] []) newOrder in
  let missingJobs := foldl (visit_current newData) [] currentOrder' in
  mkResults (acc_increase a) (acc_decrease a) (acc_added a) (acc_results a) missingJobs.

(** What makes an entry of the new data count. *)
Definition in_release (release : string) (entry : string * HistoricalDataRow) : Prop :=
  Release entry.2 = release.

Definition is_added (currentData : gmap string HistoricalDataRow) (release : string)
           (entry : string * HistoricalDataRow) : Prop :=
  Release entry.2 = release /\ currentData !! entry.1 = None.

Definition is_increase (currentData : gmap string HistoricalDataRow) (release : string)
           (entry : string * HistoricalDataRow) : Prop :=
  Release entry.2 = release
  /\ exists old,
      currentData !! entry.1 = Some old
      /\ (getDurationFromString (P99 old) < getDurationFromString (P99 entry.2))%Z
      /\ (leeway < wrap64 (getDurationFromString (P99 entry.2)
                           - getDurationFromString (P99 old)))%Z
      /\ getDurationFromString (P99 old) <> 0%Z.

Definition is_decrease (currentData : gmap string HistoricalDataRow) (release : string)
           (entry : string * HistoricalDataRow) : Prop :=
  Release entry.2 = release
  /\ exists old,
      currentData !! entry.1 = Some old
      /\ (getDurationFromString (P99 entry.2) < getDurationFromString (P99 old))%Z.

#[global] Instance in_release_dec release entry : Decision (in_release release entry) :=
  decide (Release entry.2 = release).

(** Executable forms of the three classes, for counting. *)
Definition added (currentData : gmap string HistoricalDataRow) (release : string)
           (entry : string * HistoricalDataRow) : bool :=
  bool_decide (Release entry.2 = release)
  && match currentData !! entry.1 with Some _ => false | None => true end.

Definition increased (currentData : gmap string HistoricalDataRow) (release : string)
           (entry : string * HistoricalDataRow) : bool :=
  bool_decide (Release entry.2 = release)
  && match currentData !! entry.1 with
     | Some old =>
         bool_decide (getDurationFromString (P99 old)
                      < getDurationFromString (P99 entry.2))%Z
         && bool_decide (leeway < wrap64 (getDurationFromString (P99 entry.2)
                                          - getDurationFromString (P99 old)))%Z
         && negb (bool_decide (getDurationFromString (P99 old) = 0%Z))
     | None => false
     end.

Definition decreased (currentData : gmap string HistoricalDataRow) (release : string)
           (entry : string * HistoricalDataRow) : bool :=
  bool_decide (Release entry.2 = release)
  && match currentData !! entry.1 with
     | Some old =>
         bool_decide (getDurationFromString (P99 entry.2)
                      < getDurationFromString (P99 old))%Z
     | None => false
     end.

(** How often [f] holds in [l]. *)
Definition count_where {A : Type} (f : A -> bool) (l : list A) : nat :=
  length (base.filter (fun x => f x = true) l).

(** The row reported for an entry of the release. *)
Definition report (currentData : gmap string HistoricalDataRow) (entry : string * HistoricalDataRow) : parsedJobData :=
  mkParsed entry.2 (getDurationFromString (P99 entry.2))
           (getDurationFromString (P95 entry.2))
           (if increased currentData (Release entry.2) entry
            then wrap64 (getDurationFromString (P99 entry.2)
                         - match currentData !! entry.1 with
                           | Some old => getDurationFromString (P99 old)
                           | None => 0
                           end)
            else 0%Z)
           dataType false.
End Compare.

(** A small data set: [job-a] regressed, [job-b] improved, [job-c]
    belongs to another release, [job-d] is new and [job-e] has gone. *)
Definition demo_duration (s : string) : Z :=
  if String.eqb s "1s" then 1000000000
  else if String.eqb s "2s" then 2000000000
  else if String.eqb s "5s" then 5000000000
  else 0.

Definition demo_new : list (string * HistoricalDataRow) :=
  [("job-a", mkHistRow "4.14" "5s" "2s" "aws");
   ("job-b", mkHistRow "4.14" "1s" "1s" "aws");
   ("job-c", mkHistRow "4.13" "5s" "5s" "gcp");
   ("job-d", mkHistRow "4.14" "2s" "1s" "gcp")].

Definition demo_current : list (string * HistoricalDataRow) :=
  [("job-a", mkHistRow "4.14" "2s" "1s" "aws");
   ("job-b", mkHistRow "4.14" "2s" "1s" "aws");
   ("job-e", mkHistRow "4.14" "1s" "1s" "gcp")].


End Analyzer.

(** ** github-ldap-user-group-creator: [makeGroups] *)
Module MakeGroups.
Import Groups Reconcile.

(** Go orders strings byte by byte. *)
Definition string_le (a b : string) : Prop := Stdlib.Strings.String.leb a b = true.

#[global] Instance string_le_dec (a b : string) : Decision (string_le a b) :=
  decide (Stdlib.Strings.String.leb a b = true).

(** [sets.NewString(members...).Delete("").List()]: the distinct
    non-empty members, sorted. *)
Definition sortedMembers (members : list string) : list string :=
  merge_sort string_le (elements ((list_to_set members : gset string) ∖ {[""]})).

Section Make.
(** [group.Target] with its field [RenameTo] and its method
    [ResolveClusters] (applied to [config.ClusterGroups]),
    [api.GitHubUserGroup] and the constants [api.HiveCluster],
    [api.DPTPRequesterLabel] and [toolName] come from other packages. *)
Variable Target : Type.
Variable RenameTo : Target -> string.
Variable ResolveClusters : Target -> gset string.
Variable GitHubUserGroup : string -> string.
Variable HiveCluster : string.
Variable DPTPRequesterLabel : string.
Variable toolName : string.

(** One iteration of [for githubLogin, kerberosId := range mapping]. *)
Definition userGroup (clustersExceptHive : gset string)
           (groups : gmap string GroupClusters) (entry : string * string)
  : gmap string GroupClusters :=
  let '(githubLogin, kerberosId) := entry in
  let groupName := GitHubUserGroup githubLogin in
  <[groupName :=
      mkGroupClusters clustersExceptHive
        (mkGroup groupName (Some (sortedMembers [githubLogin; kerberosId]))
                 [(DPTPRequesterLabel, toolName)])]> groups.

(** One iteration of [for k, v := range roverGroups].  [config] is the
    pointer [*group.Config]: [None] is nil, [Some configGroups] gives its
    field [Groups]; the loop body evaluates [config.Groups[k]], which
    panics on a nil pointer, and [None] as a result is that panic.  The
    labels are a Go map: the later assignment of [rover-group-name]
    comes first in the list, where a lookup finds it first. *)
Definition roverGroup (config : option (gmap string Target)) (clusters : gset string)
           (st : option (gmap string GroupClusters * list error))
           (entry : string * list string)
  : option (gmap string GroupClusters * list error) :=
  match st, config with
  | None, _ => None
  | Some _, None => None
  | Some (groups, errs), Some configGroups =>
      let '(k, v) := entry in
      let '(groupName, clustersForRoverGroup, labels) :=
        match configGroups !! k with
        | Some t =>
            let resolved := ResolveClusters t in
            let clustersForRoverGroup :=
              if bool_decide (0 < size resolved)%nat then resolved else clusters in
            if negb (bool_decide (RenameTo t = ""))
            then (RenameTo t, clustersForRoverGroup,
                  [("rover-group-name", k); (DPTPRequesterLabel, toolName)])
            else (k, clustersForRoverGroup, [(DPTPRequesterLabel, toolName)])
        | None => (k, clusters, [(DPTPRequesterLabel, toolName)])
        end in
      let errs' :=
        match groups !! groupName with
        | Some _ => errs ++ [ErrMsg ("group " +:+ groupName +:+ " has been defined already")]
        | None => errs
        end in
      Some (<[groupName :=
                mkGroupClusters clustersForRoverGroup
                  (mkGroup groupName (Some (sortedMembers v)) labels)]> groups,
            errs')
  end.

(** [makeGroups]; [mappingOrder] and [roverOrder] are the orders in
    which the two [range] loops visit the entries of [mapping] and
    [roverGroups].  The result is [None] when the call panics. *)
Definition makeGroups (mappingOrder : list (string * string))
           (roverOrder : list (string * list string))
           (config : option (gmap string Target)) (clusters : gset string)
  : option (gmap string GroupClusters * option error) :=
  let clustersExceptHive := clusters ∖ {[HiveCluster]} in
  let groups := foldl (userGroup clustersExceptHive) ∅ mappingOrder in
  match foldl (roverGroup config clusters) (Some (groups, [])) roverOrder with
  | None => None
  | Some (groups, errs) => Some (groups, NewAggregate errs)
  end.

(** What every made group looks like. *)
Definition made (name : string) (gc : GroupClusters) : Prop :=
  Name (Group_ gc) = name
  /\ (exists members, Users (Group_ gc) = Some (sortedMembers members))
  /\ (Labels (Group_ gc) = [(DPTPRequesterLabel, toolName)]
      \/ exists old, Labels (Group_ gc)
                     = [("rover-group-name", old); (DPTPRequesterLabel, toolName)]).
End Make.

(** A rename target for the demo. *)
Record demo_target : Type := mkDemoTarget {
  demo_rename : string;
  demo_clusters : gset string
}.

Definition demo_mapping : list (string * string) := [("ann-gh", "ann"); ("bob-gh", "bob")].

Definition demo_rover : list (string * list string) :=
  [("team-a", ["bob"; "ann"; ""; "bob"]); ("team-b", ["carl"])].

Definition demo_config : gmap string demo_target :=
  <["team-b" := mkDemoTarget "team-b-renamed" {["build01"]}]> ∅.

End MakeGroups.

(** * Properties *)

(** ** [UpsertGroup] *)
Section GroupsFacts.
Import Groups.

Lemma SemanticDeepEqual_refl (u : option (list string)) : SemanticDeepEqual u u = true.
Proof. unfold SemanticDeepEqual. by apply bool_decide_eq_true. Qed.

Lemma mutations_snoc (s : gmap string Group) (fs : list (option error))
      (l : list call) (k : call) :
  mutations (mkCluster s fs (l ++ [k]))
  = mutations (mkCluster s fs l) ++ (if is_mutation k then [k] else []).
Proof.
  unfold mutations; simpl. rewrite filter_app. f_equal.
  destruct (is_mutation k) eqn:E.
  - rewrite filter_cons_True by done. done.
  - rewrite filter_cons_False by (rewrite E; done). done.
Qed.

Lemma well_keyed_insert (st : gmap string Group) (g : Group) :
  well_keyed st -> well_keyed (<[Name g := g]> st).
Proof.
  intros H k g'. rewrite lookup_insert. case_decide; [naive_solver | apply H].
Qed.

(** With no injected fault, one call on a cluster whose groups are
    stored under their own names. *)
Lemma UpsertGroup_no_fault (group : Group) (c : cluster) :
  faults c = [] ->
  well_keyed (store c) ->
  exists created c1,
    UpsertGroup group c = ((created, None), c1)
    /\ faults c1 = []
    /\ well_keyed (store c1)
    /\ (exists stored, store c1 !! Name group = Some stored
                      /\ SemanticDeepEqual (Users group) (Users stored) = true)
    /\ match store c !! Name group with
       | None =>
           created = true
           /\ store c1 = <[Name group := group]> (store c)
           /\ mutations c1 = mutations c ++ [CreateOk group]
       | Some existing =>
           created = false
           /\ if SemanticDeepEqual (Users group) (Users existing)
              then store c1 = store c /\ mutations c1 = mutations c
              else store c1 = <[Name group := group]> (store c)
                   /\ mutations c1
                      = mutations c ++ [DeleteOk (Name group); CreateOk group]
       end.
Proof.
  intros Hf Hk. destruct c as [st fs lg]; simpl in *; subst fs.
  unfold UpsertGroup, clientCreate, next_fault; simpl.
  destruct (st !! Name group) as [existing|] eqn:E; simpl.
  - unfold clientGet, next_fault; simpl. rewrite E; simpl.
    destruct (SemanticDeepEqual (Users group) (Users existing)) eqn:Q.
    + eexists _, _; split; [reflexivity|]. simpl.
      repeat split; eauto.
      rewrite !mutations_snoc; simpl. by rewrite !app_nil_r.
    + unfold clientDelete, next_fault; simpl.
      rewrite (Hk _ _ E), E; simpl.
      unfold clientCreate, next_fault; simpl.
      rewrite lookup_delete_eq; simpl.
      eexists _, _; split; [reflexivity|]. simpl.
      rewrite insert_delete_eq.
      repeat split; auto using well_keyed_insert.
      * exists group. rewrite lookup_insert_eq. auto using SemanticDeepEqual_refl.
      * rewrite !mutations_snoc; simpl. rewrite !app_nil_r, <- app_assoc. done.
  - eexists _, _; split; [reflexivity|]. simpl.
    repeat split; auto using well_keyed_insert.
    + exists group. rewrite lookup_insert_eq. auto using SemanticDeepEqual_refl.
    + by rewrite mutations_snoc.
Qed.

(** C10. [UpsertGroup] is idempotent on the cluster state: with a
    client that does not fail on its own, a missing group is created
    with result [(true, nil)]; a group whose stored [Users] are
    semantically equal is left alone (no successful Create or Delete)
    with result [(false, nil)]; only differing [Users] lead to a Delete
    followed by a Create; and a second call with the same group returns
    [(false, nil)] and changes neither the stored groups nor the list
    of mutating calls. *)
Theorem UpsertGroup_idempotent (group : Group) (c : cluster) :
  faults c = [] ->
  well_keyed (store c) ->
  exists created c1 c2,
    UpsertGroup group c = ((created, None), c1)
    /\ match store c !! Name group with
       | None =>
           created = true
           /\ store c1 = <[Name group := group]> (store c)
           /\ mutations c1 = mutations c ++ [CreateOk group]
       | Some existing =>
           created = false
           /\ if SemanticDeepEqual (Users group) (Users existing)
              then store c1 = store c /\ mutations c1 = mutations c
              else store c1 = <[Name group := group]> (store c)
                   /\ mutations c1
                      = mutations c ++ [DeleteOk (Name group); CreateOk group]
       end
    /\ UpsertGroup group c1 = ((false, None), c2)
    /\ store c2 = store c1
    /\ mutations c2 = mutations c1.
Proof.
  intros Hf Hk.
  destruct (UpsertGroup_no_fault group c Hf Hk)
    as (created & c1 & H1 & Hf1 & Hk1 & (stored & Hs & Heq) & Hcase).
  destruct (UpsertGroup_no_fault group c1 Hf1 Hk1)
    as (created2 & c2 & H2 & _ & _ & _ & Hcase2).
  rewrite Hs, Heq in Hcase2. destruct Hcase2 as (-> & Hst & Hmut).
  exists created, c1, c2. repeat split; assumption.
Qed.

(** The theorem at work: the group [devs] is missing from an empty
    cluster. *)
Lemma UpsertGroup_idempotent_witness :
  exists created c1 c2,
    UpsertGroup (mkGroup "devs" (Some ["ann"; "bob"]) []) (mkCluster ∅ [] [])
    = ((created, None), c1)
    /\ match (∅ : gmap string Group) !! "devs" with
       | None =>
           created = true
           /\ store c1 = <["devs" := mkGroup "devs" (Some ["ann"; "bob"]) []]> ∅
           /\ mutations c1
              = mutations (mkCluster ∅ [] [])
                ++ [CreateOk (mkGroup "devs" (Some ["ann"; "bob"]) [])]
       | Some existing =>
           created = false
           /\ if SemanticDeepEqual (Some ["ann"; "bob"]) (Users existing)
              then store c1 = ∅ /\ mutations c1 = mutations (mkCluster ∅ [] [])
              else store c1 = <["devs" := mkGroup "devs" (Some ["ann"; "bob"]) []]> ∅
                   /\ mutations c1
                      = mutations (mkCluster ∅ [] [])
                        ++ [DeleteOk "devs";
                            CreateOk (mkGroup "devs" (Some ["ann"; "bob"]) [])]
       end
    /\ UpsertGroup (mkGroup "devs" (Some ["ann"; "bob"]) []) c1 = ((false, None), c2)
    /\ store c2 = store c1
    /\ mutations c2 = mutations c1.
Proof.
  apply (UpsertGroup_idempotent (mkGroup "devs" (Some ["ann"; "bob"]) [])
                                (mkCluster ∅ [] [])).
  - reflexivity.
  - intros k g H. simpl in H. rewrite lookup_empty in H. discriminate.
Defined.
End GroupsFacts.

(** ** The push ceiling of [process] *)
Section CreatorFacts.
Import Creator.
Variable env : Env.
Variable pushCeiling : Z.

Lemma count_events_cons (p : event -> bool) (o : outcome) (os : list outcome) :
  count_events p (o :: os)
  = (count_in p (events o) + count_events p os)%nat.
Proof. unfold count_events, count_in; simpl. by rewrite filter_app, length_app. Qed.

Lemma count_events_app (p : event -> bool) (os os' : list outcome) :
  count_events p (os ++ os') = (count_events p os + count_events p os')%nat.
Proof.
  unfold count_events, count_in.
  by rewrite map_app, concat_app, filter_app, length_app.
Qed.

(** One call either leaves [clonesDone] alone and clones nothing, or
    passes the ceiling check, counts one clone and clones once. *)
Lemma process_cases (clonesDone : Z) (cfg : ReleaseBuildConfiguration) (md : Info) :
  let o := process env pushCeiling clonesDone cfg md in
  (clones_after o = clonesDone
   /\ count_in is_clone (events o) = 0%nat /\ count_in is_pr (events o) = 0%nat)
  \/ (~ (0 < pushCeiling /\ pushCeiling <= clonesDone)%Z
      /\ clones_after o = wrap_int (clonesDone + 1)
      /\ count_in is_clone (events o) = 1%nat /\ (count_in is_pr (events o) <= 1)%nat).
Proof.
  simpl.
  destruct (decide (0 < pushCeiling /\ pushCeiling <= clonesDone)%Z) as [Hg|Hg].
  - left. destruct Hg as [H1 H2].
    unfold process.
    rewrite (bool_decide_eq_true_2 _ H1), (bool_decide_eq_true_2 _ H2); simpl.
    repeat (case_match; simpl in *; try discriminate; simplify_eq; try done).
  - assert (bool_decide (0 < pushCeiling)%Z && bool_decide (pushCeiling <= clonesDone)%Z
            = false) as Hb.
    { apply andb_false_iff.
      destruct (decide (0 < pushCeiling)%Z); [right|left];
        apply bool_decide_eq_false_2; lia. }
    unfold process, deferred. rewrite Hb.
    repeat (case_match; simpl in *; try discriminate; simplify_eq;
            try (left; done); try (right; repeat split; auto; done)).
Qed.

(** Case analysis along the branches of [process]. *)
Ltac split_flow :=
  repeat (first
            [ match goal with
              | |- context [bool_decide ?P] => destruct (bool_decide P) eqn:?
              | |- context [FromRepository ?b] => destruct (FromRepository b) eqn:?
              | |- context [filter env ?m] => destruct (filter env m) eqn:?
              end
            | case_match ];
          simpl in *; try discriminate; simplify_eq; try done).

Lemma wrap_int_small (z : Z) : (- 2 ^ 63 <= z < 2 ^ 63)%Z -> wrap_int z = z.
Proof.
  intros H. unfold wrap_int.
  rewrite Z.mod_small by lia. lia.
Qed.

(** With a positive ceiling the counter never passes it, and it counts
    the clones. *)
Lemma run_from_counts (inputs : list (ReleaseBuildConfiguration * Info)) :
  (0 < pushCeiling < 2 ^ 63)%Z ->
  forall clonesDone, (0 <= clonesDone <= pushCeiling)%Z ->
    (clonesDone + Z.of_nat (count_events is_clone (run_from env pushCeiling clonesDone inputs))
     <= pushCeiling)%Z.
Proof.
  intros Hc. induction inputs as [|[cfg md] rest IH]; intros cd Hcd; simpl.
  - unfold count_events, count_in; simpl. lia.
  - rewrite count_events_cons.
    destruct (process_cases cd cfg md) as [(E & Hn & _)|(Hg & E & Hn & _)];
      simpl in *; rewrite E, Hn.
    + specialize (IH cd Hcd). lia.
    + rewrite wrap_int_small by lia.
      specialize (IH (cd + 1)%Z ltac:(lia)). lia.
Qed.

Lemma run_from_prs (inputs : list (ReleaseBuildConfiguration * Info)) (clonesDone : Z) :
  (count_events is_pr (run_from env pushCeiling clonesDone inputs)
   <= count_events is_clone (run_from env pushCeiling clonesDone inputs))%nat.
Proof.
  revert clonesDone. induction inputs as [|[cfg md] rest IH]; intros cd; simpl.
  - done.
  - rewrite !count_events_cons.
    specialize (IH (clones_after (process env pushCeiling cd cfg md))).
    destruct (process_cases cd cfg md) as [(_ & Hn & Hp)|(_ & _ & Hn & Hp)];
      simpl in *; lia.
Qed.

(** The [k]-th call runs with the counter at the number of clones made
    by the calls before it. *)
Lemma run_from_lookup (inputs : list (ReleaseBuildConfiguration * Info)) :
  (0 < pushCeiling < 2 ^ 63)%Z ->
  forall clonesDone k o, (0 <= clonesDone <= pushCeiling)%Z ->
    run_from env pushCeiling clonesDone inputs !! k = Some o ->
    exists cfg md,
      inputs !! k = Some (cfg, md)
      /\ o = process env pushCeiling
                     (clonesDone
                      + Z.of_nat (count_events is_clone
                                    (take k (run_from env pushCeiling clonesDone inputs))))
                     cfg md.
Proof.
  intros Hc. induction inputs as [|[cfg md] rest IH]; intros cd k o Hcd Hk; simpl in *.
  - done.
  - destruct k as [|k]; simpl in *.
    + simplify_eq. exists cfg, md. split; [done|].
      unfold count_events, count_in; simpl. f_equal. lia.
    + assert (0 <= clones_after (process env pushCeiling cd cfg md) <= pushCeiling)%Z as Hcd'.
      { destruct (process_cases cd cfg md) as [(E & _)|(Hg & E & _)]; simpl in *; rewrite E.
        - done.
        - rewrite wrap_int_small by lia. lia. }
      destruct (IH _ k o Hcd' Hk) as (cfg' & md' & Hi & Ho).
      exists cfg', md'. split; [done|].
      rewrite Ho, count_events_cons. f_equal.
      destruct (process_cases cd cfg md) as [(E & Hn & _)|(Hg & E & Hn & _)];
        simpl in *; rewrite E, Hn.
      * lia.
      * rewrite wrap_int_small by lia. lia.
Qed.

(** At the ceiling, a call that would need a clone returns nil after
    reading the in-repo file and does nothing else. *)
Lemma process_at_ceiling (clonesDone : Z) (cfg : ReleaseBuildConfiguration) (md : Info) :
  (0 < pushCeiling)%Z -> (pushCeiling <= clonesDone)%Z ->
  needs_clone env cfg md = true ->
  process env pushCeiling clonesDone cfg md
  = mkOutcome None cfg clonesDone [EvGetFile (Org md) (Repo md) (Branch md)].
Proof.
  intros H1 H2. unfold needs_clone, process.
  rewrite (bool_decide_eq_true_2 _ H1), (bool_decide_eq_true_2 _ H2); simpl.
  split_flow.
Qed.

(** Without a ceiling, a call that needs a clone clones. *)
Lemma process_unlimited (clonesDone : Z) (cfg : ReleaseBuildConfiguration) (md : Info) :
  (pushCeiling <= 0)%Z ->
  needs_clone env cfg md = true ->
  EvClone (Org md) (Repo md) ∈ events (process env pushCeiling clonesDone cfg md)
  /\ count_in is_clone (events (process env pushCeiling clonesDone cfg md)) = 1%nat.
Proof.
  intros H1. unfold needs_clone, process, deferred.
  rewrite (bool_decide_eq_false_2 (0 < pushCeiling)%Z) by lia; simpl.
  split_flow; intros _; (split; [set_solver | done]).
Qed.

(** A configuration whose in-repo file already matches is rewritten in
    place: [build_root.from_repository] is set, the file of the
    configuration is written, nothing is cloned and the counter stays. *)
Lemma process_in_place (clonesDone : Z) (cfg : ReleaseBuildConfiguration) (md : Info) :
  already_matches env cfg md = true ->
  let o := process env pushCeiling clonesDone cfg md in
  clones_after o = clonesDone
  /\ count_in is_clone (events o) = 0%nat
  /\ count_in is_pr (events o) = 0%nat
  /\ BuildRootImage (cfg_after o) = Some (mkBRI None true)
  /\ (ret o = None ->
      exists serialized,
        yamlMarshalCfg env (cfg_after o) = inr serialized
        /\ EvWriteConfig (Filename md) serialized ∈ events o).
Proof.
  unfold already_matches, process.
  split_flow;
    intros _; repeat split; try done; intros; simplify_eq; eexists; split; eauto; set_solver.
Qed.

Lemma run_from_lookup_any (inputs : list (ReleaseBuildConfiguration * Info)) :
  forall clonesDone k o,
    run_from env pushCeiling clonesDone inputs !! k = Some o ->
    exists cd cfg md,
      inputs !! k = Some (cfg, md) /\ o = process env pushCeiling cd cfg md.
Proof.
  induction inputs as [|[cfg md] rest IH]; intros cd k o Hk; simpl in *; [done|].
  destruct k as [|k]; simpl in *.
  - simplify_eq. by exists cd, cfg, md.
  - eauto.
Qed.

Lemma count_events_take_le (p : event -> bool) (os : list outcome) (k0 k : nat) :
  (k0 <= k)%nat ->
  (count_events p (take k0 os) <= count_events p (take k os))%nat
  /\ (count_events p (take k os) <= count_events p os)%nat.
Proof.
  intros Hk. split.
  - rewrite <- (take_drop k0 (take k os)), count_events_app.
    rewrite take_take, Nat.min_l by done. lia.
  - rewrite <- (take_drop k os) at 2. rewrite count_events_app. lia.
Qed.

(** C9. Feeding any sequence of configurations to the closure returned
    by [process]: with [pushCeiling > 0] at most [pushCeiling] clones
    (and no more PR creations than clones) ever happen; from the moment
    the clones made reach [pushCeiling], every later call makes no clone
    and, where it would have needed one, returns nil having only read
    the in-repo file; with [pushCeiling = 0] every call that needs a
    clone clones; and a call whose in-repo configuration already
    matches rewrites the configuration in place, clones nothing and
    leaves [clonesDone] as it found it. *)
Theorem push_ceiling_bounds_clones (inputs : list (ReleaseBuildConfiguration * Info)) :
  (pushCeiling < 2 ^ 63)%Z ->
  let os := run env pushCeiling inputs in
  (count_events is_pr os <= count_events is_clone os)%nat
  /\ ((0 < pushCeiling)%Z ->
      (Z.of_nat (count_events is_clone os) <= pushCeiling)%Z
      /\ forall k0 k o cfg md,
          (k0 <= k)%nat ->
          Z.of_nat (count_events is_clone (take k0 os)) = pushCeiling ->
          os !! k = Some o -> inputs !! k = Some (cfg, md) ->
          count_in is_clone (events o) = 0%nat
          /\ count_in is_pr (events o) = 0%nat
          /\ (needs_clone env cfg md = true ->
              ret o = None
              /\ events o = [EvGetFile (Org md) (Repo md) (Branch md)]))
  /\ (pushCeiling = 0%Z ->
      forall k o cfg md,
        os !! k = Some o -> inputs !! k = Some (cfg, md) ->
        needs_clone env cfg md = true ->
        EvClone (Org md) (Repo md) ∈ events o)
  /\ (forall k o cfg md,
        os !! k = Some o -> inputs !! k = Some (cfg, md) ->
        already_matches env cfg md = true ->
        count_in is_clone (events o) = 0%nat
        /\ BuildRootImage (cfg_after o) = Some (mkBRI None true)
        /\ exists clonesDone,
            o = process env pushCeiling clonesDone cfg md
            /\ clones_after o = clonesDone).
Proof.
  intros Hmax os. unfold os, run. split; [apply run_from_prs|].
  split; [|split].
  - intros Hpos.
    assert (0 < pushCeiling < 2 ^ 63)%Z as Hc by lia.
    pose proof (run_from_counts inputs Hc 0%Z ltac:(lia)) as Hall.
    split; [lia|].
    intros k0 k o cfg md Hk Hreach Ho Hi.
    destruct (run_from_lookup inputs Hc 0%Z k o ltac:(lia) Ho) as (cfg' & md' & Hi' & ->).
    rewrite Hi in Hi'. simplify_eq.
    destruct (count_events_take_le is_clone (run_from env pushCeiling 0 inputs) k0 k Hk)
      as [Hle1 Hle2].
    set (n := count_events is_clone (take k (run_from env pushCeiling 0 inputs))) in *.
    assert (Z.of_nat n = pushCeiling) as Hn by lia.
    replace (0 + Z.of_nat n)%Z with pushCeiling by lia.
    destruct (process_cases pushCeiling cfg' md') as [(_ & Hcl & Hp)|(Hg & _)];
      simpl in *; [|lia].
    split; [done|]. split; [done|].
    intros Hneed. rewrite process_at_ceiling by (done || lia). done.
  - intros Hz k o cfg md Ho Hi Hneed.
    assert (pushCeiling <= 0)%Z as Hle by lia. clear Hz.
    destruct (run_from_lookup_any inputs _ _ _ Ho) as (cd & cfg' & md' & Hi' & ->).
    rewrite Hi in Hi'. simplify_eq.
    by apply process_unlimited.
  - intros k o cfg md Ho Hi Hm.
    destruct (run_from_lookup_any inputs _ _ _ Ho) as (cd & cfg' & md' & Hi' & ->).
    rewrite Hi in Hi'. simplify_eq.
    destruct (process_in_place cd cfg' md' Hm) as (Hc & Hn & _ & Hb & _).
    repeat split; try done. by exists cd.
Qed.
End CreatorFacts.

(** The ceiling theorem at [pushCeiling = 1] on two repositories that
    both need an update: one clone. *)
Lemma push_ceiling_bounds_clones_witness :
  (1 < 2 ^ 63)%Z
  /\ (Z.of_nat (Creator.count_events Creator.is_clone
                  (Creator.run Creator.demo_env 1 Creator.demo_inputs)) <= 1)%Z.
Proof.
  assert (1 < 2 ^ 63)%Z as H by lia.
  split; [exact H|].
  destruct (push_ceiling_bounds_clones Creator.demo_env 1 Creator.demo_inputs H)
    as (_ & Hpos & _).
  apply Hpos. lia.
Defined.

(** ** The worker pool *)
Section PoolFacts.
Import Pool.
Variable env : Env.

Lemma sum_list_with_insert {A} (f : A -> nat) (l : list A) (i : nat) (x y : A) :
  l !! i = Some x ->
  (sum_list_with f (<[i := y]> l) + f x = sum_list_with f l + f y)%nat.
Proof.
  revert i. induction l as [|a l IH]; intros [|i] H; simpl in *; simplify_eq.
  - lia.
  - specialize (IH i H). lia.
Qed.

Lemma bind_insert_perm {A B} (f : A -> list B) (l : list A) (i : nat) (x y : A) :
  l !! i = Some x ->
  exists rest, l ≫= f ≡ₚ f x ++ rest /\ <[i := y]> l ≫= f ≡ₚ f y ++ rest.
Proof.
  revert i. induction l as [|a l IH]; intros [|i] H; simpl in *; simplify_eq.
  - by exists (l ≫= f).
  - destruct (IH i H) as (rest & H1 & H2).
    exists (f a ++ rest). rewrite H1, H2.
    split; apply Permutation_app_swap_app.
Qed.

Lemma failures_length (jobs : list JobRow) : (length (failures env jobs) <= length jobs)%nat.
Proof.
  unfold failures. induction jobs as [|j jobs IH]; [done|].
  cbn. destruct (job_error env j); cbn in *; lia.
Qed.

Lemma sum_live_zero (ws : list worker) :
  sum_list_with live ws = 0%nat -> Forall (λ w, w = WDone) ws.
Proof.
  induction ws as [|w ws IH]; simpl; intros H; [constructor|].
  destruct w; simpl in *; try lia. constructor; [done|]. apply IH. lia.
Qed.

Lemma bind_owed_done (ws : list worker) :
  Forall (λ w, w = WDone) ws -> ws ≫= owed env = [].
Proof. induction 1 as [|w ws -> _ IH]; [done|]. by rewrite bind_cons, IH. Qed.

Lemma pool_Inv_init (jobs : list JobRow) : Inv env jobs (init jobs).
Proof.
  split; try done.
  intros w H. unfold init in H. cbn [workers] in H.
  apply lookup_replicate in H as [? _]. discriminate.
Qed.

Lemma failures_cons (job : JobRow) (rest : list JobRow) :
  failures env (job :: rest) = option_list (job_error env job) ++ failures env rest.
Proof. unfold failures. cbn. by destruct (job_error env job). Qed.

Ltac fields := cbn [jobChan errChan errChanCap workers wg returned set_worker] in *.

(** Every enabled action keeps the invariant and lowers the measure. *)
Lemma pool_Inv_step (jobs : list JobRow) (a : action) (s s' : state) :
  Inv env jobs s -> exec env a s = Some s' ->
  Inv env jobs s' /\ (measure s' < measure s)%nat.
Proof.
  intros [Hcap Howed Hwg Hdone Hlen Hret] Hex.
  destruct a as [w|]; simpl in Hex.
  - unfold step_worker in Hex.
    destruct (workers s !! w) as [x|] eqn:Hw; [|done].
    pose proof (λ y, sum_list_with_insert live (workers s) w x y Hw) as Hlive.
    pose proof (λ y, sum_list_with_insert weight (workers s) w x y Hw) as Hweight.
    pose proof (λ y, bind_insert_perm (owed env) (workers s) w x y Hw) as Hperm.
    assert (returned s = None) as Hnr.
    { destruct (returned s) as [r|] eqn:Hr; [|done].
      destruct (Hret r eq_refl) as [Hz _].
      rewrite Hwg in Hz. apply sum_live_zero in Hz.
      rewrite Forall_lookup in Hz. specialize (Hz _ _ Hw). subst x. done. }
    assert (forall y w', y <> WDone -> <[w := y]> (workers s) !! w' = Some WDone ->
                         jobChan s = []) as Hdone'.
    { intros y w' Hy Hl. destruct (decide (w = w')) as [->|Hne].
      - rewrite list_lookup_insert_eq in Hl by (by eapply lookup_lt_Some). congruence.
      - rewrite list_lookup_insert_ne in Hl by done. eauto. }
    destruct x as [|job|err|]; [| | |done].
    + destruct (jobChan s) as [|job rest] eqn:Hq.
      * simplify_eq.
        specialize (Hlive WDone). specialize (Hweight WDone).
        destruct (Hperm WDone) as (others & P1 & P2).
        unfold measure; fields. rewrite Hq, Hnr. simpl in Hlive, Hweight.
        split; [|simpl; lia].
        split; fields; try done; try (by rewrite length_insert); try lia.
        rewrite P2. by rewrite P1 in Howed.
      * rewrite failures_cons in Howed. unfold job_error in Howed.
        destruct (shouldCollectedDataForJobFn env job) eqn:Hs; simpl in Hex; simplify_eq.
        -- specialize (Hlive (WRunning job)). specialize (Hweight (WRunning job)).
           destruct (Hperm (WRunning job)) as (others & P1 & P2).
           unfold measure; fields. rewrite Hq, Hnr. simpl in Hlive, Hweight.
           split; [|simpl; lia].
           split; fields; try done; try (by rewrite length_insert); try lia;
             try (by intros w' Hl; apply Hdone' in Hl).
           rewrite P2. rewrite P1 in Howed. simpl in *.
           rewrite <- Howed. rewrite <- !app_assoc.
           apply Permutation_app_head.
           rewrite !app_assoc. apply Permutation_app_tail, Permutation_app_comm.
        -- unfold measure; fields. rewrite Hq, Hnr.
           split; [|simpl; lia].
           split; fields; try done.
           intros w' Hl. by apply Hdone in Hl.
    + specialize (Hlive WRange) as Hl1. specialize (Hweight WRange) as Hw1.
      destruct (jobLoaderRun env (newJobBigQueryLoaderOptions job)) as [err|] eqn:Hrun;
        simplify_eq.
      * specialize (Hlive (WSend err)). specialize (Hweight (WSend err)).
        destruct (Hperm (WSend err)) as (others & P1 & P2).
        unfold measure; fields. rewrite Hnr. simpl in Hlive, Hweight.
        split; [|simpl; lia].
        split; fields; try done; try (by rewrite length_insert); try lia;
          try (by intros w' Hl; apply Hdone' in Hl).
        rewrite P2. rewrite P1 in Howed. simpl in *. by rewrite Hrun in Howed.
      * destruct (Hperm WRange) as (others & P1 & P2).
        unfold measure; fields. rewrite Hnr. simpl in Hl1, Hw1.
        split; [|simpl; lia].
        split; fields; try done; try (by rewrite length_insert); try lia;
          try (by intros w' Hl; apply Hdone' in Hl).
        rewrite P2. rewrite P1 in Howed. simpl in *. by rewrite Hrun in Howed.
    + case_bool_decide; simplify_eq.
      specialize (Hlive WRange). specialize (Hweight WRange).
      destruct (Hperm WRange) as (others & P1 & P2).
      unfold measure; fields. rewrite Hnr. simpl in Hlive, Hweight.
      split; [|simpl; lia].
      split; fields; try done; try (by rewrite length_insert); try lia;
        try (by intros w' Hl; apply Hdone' in Hl).
      rewrite P2. rewrite P1 in Howed. simpl in *.
      rewrite <- Howed, <- !app_assoc. done.
  - unfold step_main in Hex.
    destruct (returned s) eqn:Hr; [done|].
    destruct (wg s) eqn:Hz; [|done]. simplify_eq.
    unfold measure; fields. rewrite Hr.
    split; [|simpl; lia]. split; fields; try done.
    intros r [= <-]. done.
Qed.

Lemma pool_Inv_run (jobs : list JobRow) (sched : list action) :
  forall s s', Inv env jobs s -> run env sched s = Some s' ->
    Inv env jobs s' /\ (measure s' + length sched <= measure s)%nat.
Proof.
  induction sched as [|a sched IH]; intros s s' HI Hrun; simpl in Hrun.
  - simplify_eq. split; [done|simpl; lia].
  - destruct (exec env a s) as [s1|] eqn:Hex; [|done].
    destruct (pool_Inv_step jobs a s s1 HI Hex) as [HI1 Hm].
    destruct (IH s1 s' HI1 Hrun) as [HI' Hm'].
    split; [done|simpl; lia].
Qed.


Lemma live_worker (ws : list worker) :
  sum_list_with live ws <> 0%nat -> exists w x, ws !! w = Some x /\ x <> WDone.
Proof.
  induction ws as [|x ws IH]; simpl; intros H; [done|].
  destruct x as [|job|err|]; try (by eexists 0%nat, _).
  destruct (IH H) as (w & y & Hw & Hy). by exists (S w), y.
Qed.

(** A worker at [errChan <- err] finds room in the channel. *)
Lemma send_has_room (jobs : list JobRow) (s : state) (w : nat) (err : error) :
  Inv env jobs s -> workers s !! w = Some (WSend err) ->
  (length (errChan s) < errChanCap s)%nat.
Proof.
  intros [Hcap Howed _ _ _ _] Hw.
  destruct (bind_insert_perm (owed env) (workers s) w _ WRange Hw) as (others & P1 & _).
  rewrite P1 in Howed. apply Permutation_length in Howed.
  rewrite !length_app in Howed. simpl in Howed.
  pose proof (failures_length jobs). lia.
Qed.

(** No state short of the return is stuck. *)
Lemma pool_progress (jobs : list JobRow) (s : state) :
  Inv env jobs s -> returned s = None -> exists a s', exec env a s = Some s'.
Proof.
  intros HI Hr. destruct (decide (wg s = 0%nat)) as [Hz|Hz].
  - exists PMain. simpl. unfold step_main. rewrite Hr, Hz. eauto.
  - rewrite (inv_wg _ _ _ HI) in Hz.
    destruct (live_worker _ Hz) as (w & x & Hw & Hx).
    exists (PWorker w). simpl. unfold step_worker. rewrite Hw.
    destruct x as [|job|err|]; [| | |done].
    + destruct (jobChan s); [eauto|]. destruct (negb _); eauto.
    + destruct (jobLoaderRun _ _); eauto.
    + rewrite bool_decide_eq_true_2 by (by eapply send_has_room). eauto.
Qed.

(** From every state of the pool the call can run to its return. *)
Lemma pool_completes (jobs : list JobRow) (n : nat) :
  forall s, Inv env jobs s -> (measure s <= n)%nat ->
    exists sched s' r, run env sched s = Some s' /\ returned s' = Some r.
Proof.
  induction n as [|n IH]; intros s HI Hm.
  - destruct (returned s) as [r|] eqn:Hr.
    + by exists [], s, r.
    + unfold measure in Hm. rewrite Hr in Hm. lia.
  - destruct (returned s) as [r|] eqn:Hr.
    + by exists [], s, r.
    + destruct (pool_progress jobs s HI Hr) as (a & s1 & Hex).
      destruct (pool_Inv_step jobs a s s1 HI Hex) as [HI1 Hlt].
      destruct (IH s1 HI1 ltac:(lia)) as (sched & s' & r & Hrun & Hret).
      exists (a :: sched), s', r. simpl. by rewrite Hex.
Qed.

(** C7. For every job list and every outcome of the per-job loaders,
    along every schedule of the 20 workers: the pool call has returned
    only in states where the queue is drained and every worker is done;
    what it returns is the aggregate of the errors drawn from [errChan],
    which are exactly (up to the order of arrival) the errors of the
    collected jobs whose loader failed, and nil when there is none; a
    worker whose job fails delivers the error and is back at the head of
    its loop; and from every reachable state the call does return, no
    schedule being longer than the initial measure. *)
Theorem pool_aggregates_every_failure (jobs : list JobRow) (sched : list action) (s : state) :
  run env sched (init jobs) = Some s ->
  (forall r, returned s = Some r ->
     jobChan s = []
     /\ Forall (λ w, w = WDone) (workers s)
     /\ r = NewAggregate (errChan s)
     /\ errChan s ≡ₚ failures env jobs
     /\ (r = None <-> failures env jobs = []))
  /\ (forall w job err,
        workers s !! w = Some (WRunning job) ->
        jobLoaderRun env (newJobBigQueryLoaderOptions job) = Some err ->
        exists s1 s2,
          exec env (PWorker w) s = Some s1
          /\ exec env (PWorker w) s1 = Some s2
          /\ errChan s2 = errChan s ++ [err]
          /\ workers s2 !! w = Some WRange)
  /\ (exists sched' s' r, run env sched' s = Some s' /\ returned s' = Some r)
  /\ (length sched <= measure (init jobs))%nat.
Proof.
  intros Hrun.
  destruct (pool_Inv_run jobs sched _ _ (pool_Inv_init jobs) Hrun) as [HI Hm].
  split; [|split; [|split]].
  - intros r Hr. destruct (inv_ret _ _ _ HI r Hr) as [Hz ->].
    rewrite (inv_wg _ _ _ HI) in Hz. apply sum_live_zero in Hz.
    assert (jobChan s = []) as Hq.
    { pose proof (inv_len _ _ _ HI) as Hlen.
      destruct (workers s) as [|x ws] eqn:Hws; [done|].
      apply (inv_done _ _ _ HI 0%nat). rewrite Hws. simpl.
      by rewrite (Forall_inv Hz). }
    assert (errChan s ≡ₚ failures env jobs) as Hp.
    { pose proof (inv_owed _ _ _ HI) as Ho.
      rewrite (bind_owed_done _ Hz), Hq in Ho. by rewrite !app_nil_r in Ho. }
    repeat split; try done.
    + intros Hn. destruct (errChan s) eqn:He; [|done].
      by apply Permutation_nil_l in Hp.
    + intros Hn. rewrite Hn in Hp. apply Permutation_nil_r in Hp. by rewrite Hp.
  - intros w job err Hw Herr.
    assert (length (workers s) > w)%nat as Hlt by (by eapply lookup_lt_Some).
    eexists _, _. simpl. unfold step_worker at 1. rewrite Hw, Herr.
    split; [reflexivity|].
    assert (exec env (PWorker w) s = Some (set_worker w (WSend err) s)) as Hex.
    { simpl. unfold step_worker. by rewrite Hw, Herr. }
    destruct (pool_Inv_step jobs _ _ _ HI Hex) as [HI1 _].
    unfold step_worker. fields.
    rewrite list_lookup_insert_eq by done.
    rewrite bool_decide_eq_true_2.
    + split; [reflexivity|]. fields. split; [done|].
      rewrite list_lookup_insert_eq; [done|]. by rewrite length_insert.
    + eapply (send_has_room jobs (set_worker w (WSend err) s) w err HI1).
      fields. by rewrite list_lookup_insert_eq.
  - by eapply pool_completes.
  - lia.
Qed.
End PoolFacts.

(** ** One job's pipeline *)
Section LoaderFacts.
Import Loader.
Variable env : Env.
Variable jobName : string.
Variable N : Z.
Variable ids : list string.

Ltac fields :=
  cbn [pending chans lastDoneUploadingCh semCur currentUploaders slots insertionErrors
       sink ctxDone main slot_goto slot_return slot_exit set_main
       jobRunID readyToUpload doneUploading pc set_pc] in *.

Lemma count_slots_insert (f : slot_pc -> bool) (sls : list jobRunLoaderOptions)
      (k : nat) (sl : jobRunLoaderOptions) (p : slot_pc) :
  sls !! k = Some sl ->
  (count_slots f (<[k := set_pc p sl]> sls) + (if f (pc sl) then 1 else 0)
   = count_slots f sls + (if f p then 1 else 0))%nat.
Proof.
  intros H. unfold count_slots.
  exact (sum_list_with_insert (λ x, if f (pc x) then 1 else 0)%nat sls k sl (set_pc p sl) H).
Qed.

Lemma weight_insert (sls : list jobRunLoaderOptions) (k : nat)
      (sl : jobRunLoaderOptions) (p : slot_pc) :
  sls !! k = Some sl ->
  (sum_list_with (λ sl, slot_weight (pc sl)) (<[k := set_pc p sl]> sls)
   + slot_weight (pc sl)
   = sum_list_with (λ sl, slot_weight (pc sl)) sls + slot_weight p)%nat.
Proof.
  intros H.
  exact (sum_list_with_insert (λ x, slot_weight (pc x)) sls k sl (set_pc p sl) H).
Qed.

Lemma count_slots_zero (f : slot_pc -> bool) (sls : list jobRunLoaderOptions) :
  count_slots f sls = 0%nat -> forall k sl, sls !! k = Some sl -> f (pc sl) = false.
Proof.
  unfold count_slots. induction sls as [|a sls IH]; intros H k sl Hk; [done|].
  simpl in H. destruct k as [|k]; simpl in Hk.
  - simplify_eq. destruct (f (pc sl)); [lia|done].
  - apply (IH ltac:(lia) k sl Hk).
Qed.

Lemma isClosed_closeChan (c d : nat) (cs : list nat) :
  isClosed c cs = true -> isClosed c (closeChan d cs) = true.
Proof.
  unfold isClosed, closeChan. intros H.
  destruct (decide (d = c)) as [->|Hne].
  - rewrite list_lookup_alter_eq. destruct (cs !! c) as [[|n]|]; done.
  - by rewrite list_lookup_alter_ne.
Qed.

(** A slot that moves on inside [Run]: from the read to the select, or
    from the select to the upload. *)
Lemma Inv_slot_goto (s : state) (k : nat) (sl : jobRunLoaderOptions) (p : slot_pc) :
  Inv env jobName N ids s ->
  slots s !! k = Some sl ->
  (exists jobRun,
      p = SSelect jobRun /\ pc sl = SRead
      /\ readJobRunFromGCS env jobName (jobRunID sl) = inr (Some jobRun))
  \/ (exists jobRun,
        p = SUpload jobRun /\ pc sl = SSelect jobRun
        /\ isClosed (readyToUpload sl) (chans s) = true) ->
  Inv env jobName N ids (slot_goto k sl p s).
Proof.
  intros HI Hk Hp.
  pose proof (lookup_lt_Some _ _ _ Hk) as Hlt.
  assert (returned p = returned (pc sl) /\ active p = active (pc sl)
          /\ active p = true /\ p <> SCreated /\ pc sl <> SCreated /\ pc sl <> SExited)
    as (Hr & Ha & Hat & Hpc & Hsc & Hse).
  { destruct Hp as [(j & -> & -> & _)|(j & -> & -> & _)]; done. }
  pose proof (count_slots_insert active (slots s) k sl p Hk) as Hcnt.
  rewrite Ha in Hcnt.
  destruct HI. split; fields; try done.
  - rewrite <- inv_ids0. f_equal.
    rewrite list_fmap_insert. fields. apply list_insert_id.
    by rewrite list_lookup_fmap, Hk.
  - by rewrite length_insert.
  - by rewrite length_insert.
  - intros k' sl' Hk'. destruct (decide (k = k')) as [<-|Hne].
    + rewrite list_lookup_insert_eq in Hk' by done. simplify_eq. fields.
      rewrite Hr. by apply inv_slot0.
    + rewrite list_lookup_insert_ne in Hk' by done. by apply inv_slot0.
  - rewrite inv_sem0. f_equal. lia.
  - lia.
  - intros k' sl' Hk' Hc. rewrite length_insert.
    destruct (decide (k = k')) as [<-|Hne].
    + rewrite list_lookup_insert_eq in Hk' by done. by simplify_eq.
    + rewrite list_lookup_insert_ne in Hk' by done. by apply (inv_created0 k' sl').
  - intros jr Hm. destruct (inv_acquire0 jr Hm) as (sl' & Hl & Hc).
    rewrite length_insert. exists sl'. split; [|done].
    rewrite list_lookup_insert_ne; [done|]. intros ->. by simplify_eq.
  - intros r Hm. destruct (inv_ret0 r Hm) as [?|(? & ? & Hall)]; [by left|].
    specialize (Hall _ _ Hk). congruence.
  - intros k' sl' j Hk' Hj. destruct (decide (k = k')) as [<-|Hne].
    + rewrite list_lookup_insert_eq in Hk' by done. simplify_eq. fields.
      destruct Hp as [(j' & -> & Hq & Hread)|(j' & -> & Hq & _)].
      * destruct Hj as [Hj|Hj]; by simplify_eq.
      * destruct Hj as [Hj|Hj]; simplify_eq.
        apply (inv_info0 k sl j Hk). by left.
    + rewrite list_lookup_insert_ne in Hk' by done. by eapply inv_info0.
  - intros k' sl' j Hk' Hj. destruct (decide (k = k')) as [<-|Hne].
    + rewrite list_lookup_insert_eq in Hk' by done. simplify_eq. fields.
      destruct Hp as [(j' & -> & _)|(j' & -> & _ & Hcl)]; done.
    + rewrite list_lookup_insert_ne in Hk' by done. by eapply inv_upload0.
Qed.

(** A slot that leaves [Run], on whatever path: its gate is closed by
    the deferred [close]. *)
Lemma Inv_slot_return (s : state) (k : nat) (sl : jobRunLoaderOptions)
      (err : option error) (rows : list JobRunRow) :
  Inv env jobName N ids s ->
  slots s !! k = Some sl ->
  active (pc sl) = true -> returned (pc sl) = false ->
  Inv env jobName N ids (slot_return k sl err rows s).
Proof.
  intros HI Hk Hact Hnr.
  pose proof (lookup_lt_Some _ _ _ Hk) as Hlt.
  pose proof (count_slots_insert active (slots s) k sl (SReturned err) Hk) as Hcnt.
  rewrite Hact in Hcnt. simpl in Hcnt.
  destruct HI. destruct (inv_slot0 k sl Hk) as (Hr & Hd & Hc). rewrite Hnr in Hc.
  split; fields; try done.
  - rewrite <- inv_ids0. f_equal.
    rewrite list_fmap_insert. fields. apply list_insert_id.
    by rewrite list_lookup_fmap, Hk.
  - unfold closeChan. by rewrite length_alter, length_insert.
  - by rewrite length_insert.
  - unfold closeChan. rewrite list_lookup_alter_ne; [done|]. lia.
  - intros k' sl' Hk'. unfold closeChan. destruct (decide (k = k')) as [<-|Hne].
    + rewrite list_lookup_insert_eq in Hk' by done. simplify_eq. fields.
      rewrite Hd, list_lookup_alter_eq, Hc. done.
    + rewrite list_lookup_insert_ne in Hk' by done.
      rewrite list_lookup_alter_ne by lia. by apply inv_slot0.
  - rewrite inv_sem0. f_equal. lia.
  - lia.
  - intros k' sl' Hk' Hc'. rewrite length_insert.
    destruct (decide (k = k')) as [<-|Hne].
    + rewrite list_lookup_insert_eq in Hk' by done. by simplify_eq.
    + rewrite list_lookup_insert_ne in Hk' by done. by apply (inv_created0 k' sl').
  - intros jr Hm. destruct (inv_acquire0 jr Hm) as (sl' & Hl & Hc').
    rewrite length_insert. exists sl'. split; [|done].
    rewrite list_lookup_insert_ne; [done|]. intros ->. simplify_eq.
    by rewrite Hc' in Hact.
  - intros r Hm. destruct (inv_ret0 r Hm) as [?|(? & ? & Hall)]; [by left|].
    specialize (Hall _ _ Hk). by rewrite Hall in Hact.
  - intros k' sl' j Hk' Hj. destruct (decide (k = k')) as [<-|Hne].
    + rewrite list_lookup_insert_eq in Hk' by done. simplify_eq. fields.
      by destruct Hj.
    + rewrite list_lookup_insert_ne in Hk' by done. by eapply inv_info0.
  - intros k' sl' j Hk' Hj. destruct (decide (k = k')) as [<-|Hne].
    + rewrite list_lookup_insert_eq in Hk' by done. by simplify_eq.
    + rewrite list_lookup_insert_ne in Hk' by done.
      apply isClosed_closeChan. by eapply inv_upload0.
Qed.

(** The goroutine's tail gives the token and the WaitGroup count back. *)
Lemma Inv_slot_exit (s : state) (k : nat) (sl : jobRunLoaderOptions) (err : option error) :
  Inv env jobName N ids s ->
  slots s !! k = Some sl ->
  pc sl = SReturned err ->
  Inv env jobName N ids (slot_exit k sl err s).
Proof.
  intros HI Hk Hpc.
  pose proof (lookup_lt_Some _ _ _ Hk) as Hlt.
  pose proof (count_slots_insert active (slots s) k sl SExited Hk) as Hcnt.
  rewrite Hpc in Hcnt. simpl in Hcnt.
  destruct HI. destruct (inv_slot0 k sl Hk) as (Hr & Hd & Hc). rewrite Hpc in Hc.
  split; fields; try done.
  - rewrite <- inv_ids0. f_equal.
    rewrite list_fmap_insert. fields. apply list_insert_id.
    by rewrite list_lookup_fmap, Hk.
  - by rewrite length_insert.
  - by rewrite length_insert.
  - intros k' sl' Hk'. destruct (decide (k = k')) as [<-|Hne].
    + rewrite list_lookup_insert_eq in Hk' by done. by simplify_eq.
    + rewrite list_lookup_insert_ne in Hk' by done. by apply inv_slot0.
  - rewrite inv_sem0. lia.
  - lia.
  - lia.
  - intros k' sl' Hk' Hc'. rewrite length_insert.
    destruct (decide (k = k')) as [<-|Hne].
    + rewrite list_lookup_insert_eq in Hk' by done. by simplify_eq.
    + rewrite list_lookup_insert_ne in Hk' by done. by apply (inv_created0 k' sl').
  - intros jr Hm. destruct (inv_acquire0 jr Hm) as (sl' & Hl & Hc').
    rewrite length_insert. exists sl'. split; [|done].
    rewrite list_lookup_insert_ne; [done|]. intros ->. simplify_eq. congruence.
  - intros r Hm. destruct (inv_ret0 r Hm) as [?|(? & ? & Hall)]; [by left|].
    specialize (Hall _ _ Hk). congruence.
  - intros k' sl' j Hk' Hj. destruct (decide (k = k')) as [<-|Hne].
    + rewrite list_lookup_insert_eq in Hk' by done. simplify_eq. fields.
      by destruct Hj.
    + rewrite list_lookup_insert_ne in Hk' by done. by eapply inv_info0.
  - intros k' sl' j Hk' Hj. destruct (decide (k = k')) as [<-|Hne].
    + rewrite list_lookup_insert_eq in Hk' by done. by simplify_eq.
    + rewrite list_lookup_insert_ne in Hk' by done. by eapply inv_upload0.
Qed.

Lemma alter_as_insert {A} (f : A -> A) (l : list A) (i : nat) (x : A) :
  l !! i = Some x -> alter f i l = <[i := f x]> l.
Proof.
  revert i. induction l as [|a l IH]; intros [|i] H; simpl in *; simplify_eq; [done|].
  f_equal. by apply IH.
Qed.

Lemma count_slots_app (f : slot_pc -> bool) (l1 l2 : list jobRunLoaderOptions) :
  count_slots f (l1 ++ l2) = (count_slots f l1 + count_slots f l2)%nat.
Proof. unfold count_slots. apply sum_list_with_app. Qed.

Lemma isClosed_app (c : nat) (cs extra : list nat) :
  isClosed c cs = true -> isClosed c (cs ++ extra) = true.
Proof.
  unfold isClosed. intros H. destruct (cs !! c) as [n|] eqn:E; [|done].
  by rewrite (lookup_app_l_Some _ _ _ _ E).
Qed.

(** The steps of [jobLoaderOptions.Run] itself. *)
Lemma Inv_main (s s' : state) :
  Inv env jobName N ids s ->
  step_main N s = Some s' ->
  Inv env jobName N ids s'.
Proof.
  intros HI Hex. unfold step_main in Hex.
  destruct (main s) as [|jr| |r] eqn:Hm; [| | |done].
  - (* the head of the loop *)
    assert (forall k sl, slots s !! k = Some sl -> pc sl <> SCreated) as Hnc.
    { intros k sl Hk Hc. destruct (inv_created _ _ _ _ _ HI k sl Hk Hc) as [_ F].
      by rewrite Hm in F. }
    destruct (pending s) as [|jrID rest] eqn:Hp; simplify_eq.
    + destruct HI. split; fields; try done.
      * intros k sl Hk Hc. by destruct (Hnc k sl Hk).
    + unfold newJobRunBigQueryLoaderOptions in Hex. simplify_eq.
      destruct HI. split; fields; try done.
      * rewrite <- inv_ids0, Hp, map_app, <- app_assoc. done.
      * rewrite !length_app. simpl. lia.
      * rewrite length_app. simpl. lia.
      * by apply lookup_app_l_Some.
      * intros k sl Hk. apply lookup_app_Some in Hk as [Hk|[Hge Hk]].
        -- destruct (inv_slot0 k sl Hk) as (? & ? & Hc).
           repeat split; try done. by apply lookup_app_l_Some.
        -- apply list_lookup_singleton_Some in Hk as [Hz <-]. fields.
           assert (k = length (slots s)) as -> by lia.
           repeat split; try lia.
           rewrite lookup_app_r by lia.
           replace (S (length (slots s)) - length (chans s))%nat with 0%nat by lia. done.
      * rewrite count_slots_app. unfold count_slots at 2. simpl. rewrite inv_sem0. f_equal. lia.
      * rewrite count_slots_app. unfold count_slots at 2. simpl. lia.
      * intros k sl Hk Hc. apply lookup_app_Some in Hk as [Hk|[Hge Hk]].
        -- by destruct (Hnc k sl Hk).
        -- apply list_lookup_singleton_Some in Hk as [Hz <-].
           rewrite length_app. simpl. split; [lia|done].
      * intros jr' _. eexists. rewrite length_app. simpl.
        replace (Nat.pred (length (slots s) + 1)) with (length (slots s) + 0)%nat by lia.
        rewrite lookup_app_r by lia.
        replace (length (slots s) + 0 - length (slots s))%nat with 0%nat by lia.
        split; [reflexivity|done].
      * intros k sl j Hk Hj. apply lookup_app_Some in Hk as [Hk|[Hge Hk]].
        -- by eapply inv_info0.
        -- apply list_lookup_singleton_Some in Hk as [Hz <-]. by destruct Hj.
      * intros k sl j Hk Hj. apply lookup_app_Some in Hk as [Hk|[Hge Hk]].
        -- apply isClosed_app. by eapply inv_upload0.
        -- by apply list_lookup_singleton_Some in Hk as [Hz <-].
  - (* Acquire succeeds: the goroutine of the newest slot starts *)
    case_bool_decide as Hroom; simplify_eq.
    destruct (inv_acquire _ _ _ _ _ HI jr Hm) as (sl & Hk & Hc).
    set (i := Nat.pred (length (slots s))) in *.
    pose proof (lookup_lt_Some _ _ _ Hk) as Hlt.
    rewrite (alter_as_insert _ _ _ _ Hk).
    pose proof (count_slots_insert active (slots s) i sl SRead Hk) as Hcnt.
    rewrite Hc in Hcnt. simpl in Hcnt.
    destruct HI. destruct (inv_slot0 i sl Hk) as (Hr & Hd & Hch). rewrite Hc in Hch.
    split; fields; try done.
    + rewrite <- inv_ids0. f_equal.
      rewrite list_fmap_insert. fields. apply list_insert_id.
      by rewrite list_lookup_fmap, Hk.
    + by rewrite length_insert.
    + by rewrite length_insert.
    + intros k' sl' Hk'. destruct (decide (i = k')) as [<-|Hne].
      * rewrite list_lookup_insert_eq in Hk' by done. by simplify_eq.
      * rewrite list_lookup_insert_ne in Hk' by done. by apply inv_slot0.
    + rewrite inv_sem0. lia.
    + lia.
    + lia.
    + intros k' sl' Hk' Hc'. exfalso. destruct (decide (i = k')) as [<-|Hne].
      * rewrite list_lookup_insert_eq in Hk' by done. by simplify_eq.
      * rewrite list_lookup_insert_ne in Hk' by done.
        destruct (inv_created0 k' sl' Hk' Hc') as [Hl _]. lia.
    + intros k' sl' j Hk' Hj. destruct (decide (i = k')) as [<-|Hne].
      * rewrite list_lookup_insert_eq in Hk' by done. simplify_eq. by destruct Hj.
      * rewrite list_lookup_insert_ne in Hk' by done. by eapply inv_info0.
    + intros k' sl' j Hk' Hj. destruct (decide (i = k')) as [<-|Hne].
      * rewrite list_lookup_insert_eq in Hk' by done. by simplify_eq.
      * rewrite list_lookup_insert_ne in Hk' by done. by eapply inv_upload0.
  - (* Wait is over *)
    destruct (currentUploaders s) eqn:Hwg; simplify_eq.
    assert (forall k sl, slots s !! k = Some sl -> pc sl = SExited) as Hall.
    { intros k sl Hk.
      pose proof (inv_wg _ _ _ _ _ HI) as Hw. rewrite Hwg in Hw.
      pose proof (count_slots_zero active _ (eq_sym Hw) k sl Hk) as Ha.
      destruct (pc sl) eqn:Hpc; try done.
      destruct (inv_created _ _ _ _ _ HI k sl Hk Hpc) as [_ F]. by rewrite Hm in F. }
    destruct HI. split; fields; try done.
    + intros k sl Hk Hc. specialize (Hall k sl Hk). congruence.
    + intros r [= <-]. right. auto.
Qed.

Lemma loader_Inv_init : Inv env jobName N ids (init ids).
Proof.
  split; simpl; try done. lia.
Qed.

(** Every enabled action keeps the invariant. *)
Lemma loader_Inv_step (a : action) (s s' : state) :
  Inv env jobName N ids s ->
  exec env jobName N a s = Some s' ->
  Inv env jobName N ids s'.
Proof.
  intros HI Hex. destruct a as [| | |k|k]; simpl in Hex.
  - by eapply Inv_main.
  - unfold step_acquire_fail in Hex.
    destruct (main s) as [|jr| |r] eqn:Hm; try done.
    destruct (ctxDone s) eqn:Hc; simplify_eq.
    destruct HI. split; fields; try done.
    + intros k sl Hk Hcr. destruct (inv_created0 k sl Hk Hcr) as [? _].
      rewrite Hm in *. done.
    + intros r _. by left.
  - unfold step_cancel in Hex. destruct (ctxDone s) eqn:Hc; simplify_eq.
    destruct HI. split; fields; try done.
    + intros k sl Hk Hcr. destruct (inv_created0 k sl Hk Hcr) as [? Hm].
      split; [done|]. by destruct (main s).
    + intros r _. by left.
  - unfold step_slot in Hex.
    destruct (slots s !! k) as [sl|] eqn:Hk; [|done].
    destruct (pc sl) as [| |jobRun|jobRun|err|] eqn:Hpc; try done.
    + destruct (readJobRunFromGCS env jobName (jobRunID sl)) as [err|[jobRun|]] eqn:Hread;
        simplify_eq.
      * apply Inv_slot_return; try done; by rewrite Hpc.
      * apply Inv_slot_goto; try done. left. by exists jobRun.
      * apply Inv_slot_return; try done; by rewrite Hpc.
    + destruct (isClosed (readyToUpload sl) (chans s)) eqn:Hcl; simplify_eq.
      apply Inv_slot_goto; try done. right. by exists jobRun.
    + destruct (uploadJobRun env jobRun) as [[err|] rows]; simplify_eq;
        (apply Inv_slot_return; try done; by rewrite Hpc).
    + simplify_eq. by apply Inv_slot_exit.
  - unfold step_slot_ctx_done in Hex.
    destruct (slots s !! k) as [sl|] eqn:Hk; [|done].
    destruct (pc sl) as [| |jobRun|jobRun|err|] eqn:Hpc; try done.
    destruct (ctxDone s); simplify_eq.
    apply Inv_slot_return; try done; by rewrite Hpc.
Qed.

(** Every enabled action lowers the measure, and only [ACancel] touches
    the context. *)
Lemma measure_step (a : action) (s s' : state) :
  Inv env jobName N ids s ->
  exec env jobName N a s = Some s' ->
  (measure s' < measure s)%nat /\ (a <> ACancel -> ctxDone s' = ctxDone s).
Proof.
  intros HI Hex. destruct a as [| | |k|k]; simpl in Hex.
  - unfold step_main in Hex.
    destruct (main s) as [|jr| |r] eqn:Hm; [| | |done].
    + destruct (pending s) as [|jrID rest] eqn:Hp; simplify_eq.
      * unfold measure; fields. rewrite Hm, Hp. simpl. split; [lia|done].
      * unfold newJobRunBigQueryLoaderOptions in Hex. simplify_eq.
        unfold measure; fields. rewrite Hm, Hp, sum_list_with_app. simpl. split; [lia|done].
    + case_bool_decide; simplify_eq.
      destruct (inv_acquire _ _ _ _ _ HI jr Hm) as (sl & Hk & Hc).
      rewrite (alter_as_insert _ _ _ _ Hk).
      pose proof (weight_insert (slots s) _ sl SRead Hk) as Hw. rewrite Hc in Hw.
      unfold measure; fields. rewrite Hm. simpl in *. split; [lia|done].
    + destruct (currentUploaders s); simplify_eq.
      unfold measure; fields. rewrite Hm. simpl. split; [lia|done].
  - unfold step_acquire_fail in Hex.
    destruct (main s) as [|jr| |r] eqn:Hm; try done.
    destruct (ctxDone s) eqn:Hc; simplify_eq.
    unfold measure; fields. rewrite Hm, Hc. simpl. split; [lia|done].
  - unfold step_cancel in Hex. destruct (ctxDone s) eqn:Hc; simplify_eq.
    unfold measure; fields. rewrite Hc. split; [lia|done].
  - unfold step_slot in Hex.
    destruct (slots s !! k) as [sl|] eqn:Hk; [|done].
    pose proof (λ p, weight_insert (slots s) k sl p Hk) as Hw.
    destruct (pc sl) as [| |jobRun|jobRun|err|] eqn:Hpc; try done.
    + destruct (readJobRunFromGCS env jobName (jobRunID sl)) as [err|[jobRun|]];
        simplify_eq; unfold measure; fields;
        match goal with |- context [set_pc ?p _] => specialize (Hw p) end;
        simpl in Hw; (split; [lia|done]).
    + destruct (isClosed (readyToUpload sl) (chans s)); simplify_eq.
      unfold measure; fields. specialize (Hw (SUpload jobRun)). simpl in Hw.
      split; [lia|done].
    + destruct (uploadJobRun env jobRun) as [[err|] rows]; simplify_eq;
        unfold measure; fields;
        match goal with |- context [set_pc ?p _] => specialize (Hw p) end;
        simpl in Hw; (split; [lia|done]).
    + simplify_eq. unfold measure; fields. specialize (Hw SExited). simpl in Hw.
      split; [lia|done].
  - unfold step_slot_ctx_done in Hex.
    destruct (slots s !! k) as [sl|] eqn:Hk; [|done].
    pose proof (λ p, weight_insert (slots s) k sl p Hk) as Hw.
    destruct (pc sl) as [| |jobRun|jobRun|err|] eqn:Hpc; try done.
    destruct (ctxDone s) eqn:Hc; simplify_eq.
    unfold measure; fields. specialize (Hw (SReturned None)). simpl in Hw.
    rewrite Hc. split; [lia|done].
Qed.

Lemma loader_Inv_run (sched : list action) :
  forall s s', Inv env jobName N ids s -> run env jobName N sched s = Some s' ->
    Inv env jobName N ids s' /\ (measure s' + length sched <= measure s)%nat.
Proof.
  induction sched as [|a sched IH]; intros s s' HI Hrun; simpl in Hrun.
  - simplify_eq. split; [done|simpl; lia].
  - destruct (exec env jobName N a s) as [s1|] eqn:Hex; [|done].
    pose proof (loader_Inv_step a s s1 HI Hex) as HI1.
    destruct (measure_step a s s1 HI Hex) as [Hm _].
    destruct (IH s1 s' HI1 Hrun) as [HI' Hm'].
    split; [done|simpl; lia].
Qed.

Lemma first_active (sls : list jobRunLoaderOptions) :
  count_slots active sls <> 0%nat ->
  exists k sl,
    sls !! k = Some sl /\ active (pc sl) = true
    /\ forall j sl', (j < k)%nat -> sls !! j = Some sl' -> active (pc sl') = false.
Proof.
  unfold count_slots. induction sls as [|a sls IH]; simpl; intros H; [done|].
  destruct (active (pc a)) eqn:Ha.
  - exists 0%nat, a. repeat split; try done. intros j sl' Hj. lia.
  - destruct (IH ltac:(lia)) as (k & sl & Hk & Hact & Hbefore).
    exists (S k), sl. repeat split; try done.
    intros [|j] sl' Hj Hl; simpl in Hl; [by simplify_eq|].
    apply (Hbefore j sl'); [lia|done].
Qed.

(** The earliest slot that still holds a token can always move: at the
    select its predecessors have all left, so its gate is closed. *)
Lemma earliest_slot_enabled (s : state) (k : nat) (sl : jobRunLoaderOptions) :
  Inv env jobName N ids s ->
  slots s !! k = Some sl -> active (pc sl) = true ->
  (forall j sl', (j < k)%nat -> slots s !! j = Some sl' -> active (pc sl') = false) ->
  exists s', step_slot env jobName k s = Some s'.
Proof.
  intros HI Hk Hact Hbefore. unfold step_slot. rewrite Hk.
  destruct (pc sl) as [| |jobRun|jobRun|err|] eqn:Hpc; try done.
  - destruct (readJobRunFromGCS env jobName (jobRunID sl)) as [err|[jobRun|]]; eauto.
  - destruct (inv_slot _ _ _ _ _ HI k sl Hk) as (Hr & _ & _). rewrite Hr.
    assert (isClosed k (chans s) = true) as ->; [|eauto].
    unfold isClosed. destruct k as [|j].
    + by rewrite (inv_first _ _ _ _ _ HI).
    + pose proof (lookup_lt_Some _ _ _ Hk) as Hlt.
      destruct (lookup_lt_is_Some_2 (slots s) j ltac:(lia)) as [sl' Hj].
      destruct (inv_slot _ _ _ _ _ HI j sl' Hj) as (_ & _ & Hc). rewrite Hc.
      specialize (Hbefore j sl' ltac:(lia) Hj).
      destruct (pc sl') eqn:Hpc'; try done.
      destruct (inv_created _ _ _ _ _ HI j sl' Hj Hpc') as [Hl _]. lia.
  - destruct (uploadJobRun env jobRun) as [[err|] rows]; eauto.
  - eauto.
Qed.

(** With at least one token, the pipeline is never stuck before
    [jobLoaderOptions.Run] returns, and it needs no cancellation to move. *)
Lemma loader_progress (s : state) :
  (0 < N)%Z ->
  Inv env jobName N ids s ->
  (forall r, main s <> MReturned r) ->
  exists a s', a <> ACancel /\ exec env jobName N a s = Some s'.
Proof.
  intros HN HI Hnr.
  assert (count_slots active (slots s) <> 0%nat ->
          exists a s', a <> ACancel /\ exec env jobName N a s = Some s') as Hslot.
  { intros Hc. destruct (first_active _ Hc) as (k & sl & Hk & Hact & Hbefore).
    destruct (earliest_slot_enabled s k sl HI Hk Hact Hbefore) as [s' Hs'].
    by exists (ASlot k), s'. }
  destruct (main s) as [|jr| |r] eqn:Hm.
  - exists AMain. simpl. unfold step_main. rewrite Hm.
    destruct (pending s); eauto.
  - destruct (decide (semCur s + 1 <= N)%Z) as [Hroom|Hfull].
    + exists AMain. simpl. unfold step_main. rewrite Hm.
      rewrite bool_decide_eq_true_2 by done. eauto.
    + apply Hslot. pose proof (inv_sem _ _ _ _ _ HI). lia.
  - destruct (currentUploaders s) eqn:Hwg.
    + exists AMain. simpl. unfold step_main. rewrite Hm, Hwg. eauto.
    + apply Hslot. pose proof (inv_wg _ _ _ _ _ HI). lia.
  - by destruct (Hnr r).
Qed.

(** From every state the pipeline can run on, without any cancellation,
    until [jobLoaderOptions.Run] has returned. *)
Lemma loader_completes (n : nat) :
  (0 < N)%Z ->
  forall s, Inv env jobName N ids s -> (measure s <= n)%nat ->
    exists sched s' r,
      run env jobName N sched s = Some s' /\ main s' = MReturned r
      /\ ctxDone s' = ctxDone s.
Proof.
  intros HN. induction n as [|n IH]; intros s HI Hm.
  - destruct (main s) as [|jr| |r] eqn:Hmain;
      try (unfold measure in Hm; rewrite Hmain in Hm; simpl in Hm; lia).
    by exists [], s, r.
  - destruct (main s) as [|jr| |r] eqn:Hmain; [| | |by exists [], s, r].
    all: destruct (loader_progress s HN HI ltac:(by rewrite Hmain)) as (a & s1 & Ha & Hex);
      pose proof (loader_Inv_step a s s1 HI Hex) as HI1;
      destruct (measure_step a s s1 HI Hex) as [Hlt Hctx];
      destruct (IH s1 HI1 ltac:(lia)) as (sched & s' & r & Hrun & Hret & Hc);
      exists (a :: sched), s', r; simpl; rewrite Hex;
      repeat split; try done; rewrite Hc; by apply Hctx.
Qed.

Lemma slot_id_in_ids (s : state) (k : nat) (sl : jobRunLoaderOptions) :
  Inv env jobName N ids s -> slots s !! k = Some sl -> ids !! k = Some (jobRunID sl).
Proof.
  intros HI Hk. rewrite <- (inv_ids _ _ _ _ _ HI).
  apply lookup_app_l_Some. by rewrite list_lookup_fmap, Hk.
Qed.

(** Updating the program point of a slot that has not returned, to one
    that has not returned either, changes nothing for [Ordered]. *)
Lemma Ordered_insert_same (m k : nat) (sls : list jobRunLoaderOptions)
      (sl : jobRunLoaderOptions) (p : slot_pc) :
  sls !! k = Some sl -> returned p = returned (pc sl) ->
  (forall k' sl', sls !! k' = Some sl' -> returned (pc sl') = true <-> k' < m) ->
  forall k' sl', <[k := set_pc p sl]> sls !! k' = Some sl' ->
                 returned (pc sl') = true <-> k' < m.
Proof.
  intros Hk Hr Hall k' sl' Hk'.
  pose proof (lookup_lt_Some _ _ _ Hk) as Hlt.
  destruct (decide (k = k')) as [<-|Hne].
  - rewrite list_lookup_insert_eq in Hk' by done. simplify_eq. fields.
    rewrite Hr. by apply Hall.
  - rewrite list_lookup_insert_ne in Hk' by done. by apply Hall.
Qed.

(** When every listed run is ready and the context stays live, the
    returned slots stay a prefix and the sink grows in listing order. *)
Lemma Ordered_step (a : action) (s s' : state) :
  (forall id, id ∈ ids -> exists jobRun, readJobRunFromGCS env jobName id = inr (Some jobRun)) ->
  Inv env jobName N ids s ->
  Ordered env jobName ids s ->
  exec env jobName N a s = Some s' ->
  ctxDone s' = false ->
  Ordered env jobName ids s'.
Proof.
  intros Hready HI (m & Hm & Hpre & Hsink) Hex Hctx.
  destruct a as [| | |k|k]; simpl in Hex.
  - unfold step_main in Hex.
    destruct (main s) as [|jr| |r] eqn:Hmain; [| | |done].
    + destruct (pending s) as [|jrID rest] eqn:Hp; simplify_eq.
      * by exists m.
      * unfold newJobRunBigQueryLoaderOptions in Hex. simplify_eq.
        exists m. fields. rewrite length_app. split; [lia|]. split; [|done].
        intros k sl Hk. apply lookup_app_Some in Hk as [Hk|[Hge Hk]]; [by apply Hpre|].
        apply list_lookup_singleton_Some in Hk as [Hz <-]. fields. split; [done|lia].
    + case_bool_decide; simplify_eq.
      destruct (inv_acquire _ _ _ _ _ HI jr Hmain) as (sl & Hk & Hc).
      rewrite (alter_as_insert _ _ _ _ Hk).
      exists m. fields. rewrite length_insert. split; [done|]. split; [|done].
      apply Ordered_insert_same; try done. by rewrite Hc.
    + destruct (currentUploaders s); simplify_eq. by exists m.
  - unfold step_acquire_fail in Hex.
    destruct (main s); try done. destruct (ctxDone s) eqn:Hc; simplify_eq.
    fields. congruence.
  - unfold step_cancel in Hex. by destruct (ctxDone s); simplify_eq.
  - unfold step_slot in Hex.
    destruct (slots s !! k) as [sl|] eqn:Hk; [|done].
    pose proof (lookup_lt_Some _ _ _ Hk) as Hlt.
    destruct (pc sl) as [| |jobRun|jobRun|err|] eqn:Hpc; try done.
    + pose proof (slot_id_in_ids s k sl HI Hk) as Hid.
      destruct (Hready (jobRunID sl)) as [jobRun Hread].
      { apply list_elem_of_lookup. eauto. }
      rewrite Hread in Hex. simplify_eq.
      exists m. fields. rewrite length_insert. split; [done|]. split; [|done].
      apply Ordered_insert_same; try done. by rewrite Hpc.
    + destruct (isClosed (readyToUpload sl) (chans s)); simplify_eq.
      exists m. fields. rewrite length_insert. split; [done|]. split; [|done].
      apply Ordered_insert_same; try done. by rewrite Hpc.
    + (* the commit of slot [k]: it is the first slot not yet returned *)
      assert (k = m) as ->.
      { assert (~ (k < m)%nat) as Hge.
        { intros Hlt'. apply (Hpre k sl Hk) in Hlt'. by rewrite Hpc in Hlt'. }
        pose proof (inv_upload _ _ _ _ _ HI k sl jobRun Hk Hpc) as Hcl.
        destruct (inv_slot _ _ _ _ _ HI k sl Hk) as (Hr & _ & _). rewrite Hr in Hcl.
        destruct k as [|j]; [lia|].
        destruct (lookup_lt_is_Some_2 (slots s) j ltac:(lia)) as [sl' Hj].
        destruct (inv_slot _ _ _ _ _ HI j sl' Hj) as (_ & _ & Hc).
        unfold isClosed in Hcl. rewrite Hc in Hcl.
        destruct (returned (pc sl')) eqn:Hret; [|done].
        apply (Hpre j sl' Hj) in Hret. lia. }
      pose proof (slot_id_in_ids s m sl HI Hk) as Hid.
      pose proof (inv_info _ _ _ _ _ HI m sl jobRun Hk (or_intror Hpc)) as Hread.
      assert (sink s ++ (uploadJobRun env jobRun).2
              = take (S m) ids ≫= commit_rows env jobName) as Hsink'.
      { rewrite (take_S_r _ _ _ Hid), bind_app, <- Hsink. f_equal.
        simpl. unfold commit_rows. rewrite Hread. by rewrite app_nil_r. }
      destruct (uploadJobRun env jobRun) as [[err|] rows]; simplify_eq;
        exists (S m); fields; rewrite length_insert; (split; [lia|]);
        (split; [|done]); intros k' sl' Hk';
        (destruct (decide (m = k')) as [<-|Hne];
         [ rewrite list_lookup_insert_eq in Hk' by done; simplify_eq; fields;
           split; [lia|done]
         | rewrite list_lookup_insert_ne in Hk' by done;
           rewrite (Hpre k' sl' Hk'); lia ]).
    + simplify_eq.
      exists m. fields. rewrite length_insert. split; [done|]. split; [|done].
      apply Ordered_insert_same; try done. by rewrite Hpc.
  - unfold step_slot_ctx_done in Hex.
    destruct (slots s !! k) as [sl|]; [|done].
    destruct (pc sl); try done.
    destruct (ctxDone s) eqn:Hc; simplify_eq. fields. congruence.
Qed.

(** A done context stays done. *)
Lemma ctx_step (a : action) (s s' : state) :
  exec env jobName N a s = Some s' -> ctxDone s = true -> ctxDone s' = true.
Proof.
  intros Hex Hc. destruct a as [| | |k|k]; simpl in Hex.
  - unfold step_main, newJobRunBigQueryLoaderOptions in Hex.
    repeat case_match; simplify_eq; done.
  - unfold step_acquire_fail in Hex. repeat case_match; simplify_eq; done.
  - unfold step_cancel in Hex. repeat case_match; simplify_eq; done.
  - unfold step_slot in Hex. repeat case_match; simplify_eq; done.
  - unfold step_slot_ctx_done in Hex. repeat case_match; simplify_eq; done.
Qed.

Lemma ctx_run (sched : list action) :
  forall s s', run env jobName N sched s = Some s' ->
               ctxDone s' = false -> ctxDone s = false.
Proof.
  induction sched as [|a sched IH]; intros s s' Hrun Hc; simpl in Hrun.
  - by simplify_eq.
  - destruct (exec env jobName N a s) as [s1|] eqn:Hex; [|done].
    specialize (IH s1 s' Hrun Hc).
    destruct (ctxDone s) eqn:Hs; [|done].
    by rewrite (ctx_step a s s1 Hex Hs) in IH.
Qed.

Lemma Ordered_run (sched : list action) :
  (forall id, id ∈ ids -> exists jobRun, readJobRunFromGCS env jobName id = inr (Some jobRun)) ->
  forall s s', Inv env jobName N ids s -> Ordered env jobName ids s ->
    run env jobName N sched s = Some s' -> ctxDone s' = false ->
    Ordered env jobName ids s'.
Proof.
  intros Hready. induction sched as [|a sched IH]; intros s s' HI HO Hrun Hc; simpl in Hrun.
  - by simplify_eq.
  - destruct (exec env jobName N a s) as [s1|] eqn:Hex; [|done].
    pose proof (ctx_run sched s1 s' Hrun Hc) as Hc1.
    apply (IH s1 s'); try done.
    + by eapply loader_Inv_step.
    + by eapply Ordered_step.
Qed.

Lemma Ordered_init : Ordered env jobName ids (init ids).
Proof. exists 0%nat. simpl. repeat split; try done; intros; lia. Qed.


Lemma bind_singletons {A B} (f : A -> list B) (l : list A) :
  Forall (λ x, exists y, f x = [y]) l ->
  Forall2 (λ x y, f x = [y]) l (l ≫= f).
Proof.
  induction 1 as [|x l [y Hy] _ IH]; [constructor|].
  rewrite bind_cons, Hy. simpl. by constructor.
Qed.

(** C1. When every listed run reads as ready and every upload succeeds,
    then along every schedule that keeps the context live (whatever the
    order in which the reads finish): the sink always holds the rows of a
    prefix of the listing [r1..rk], in listing order; once
    [jobLoaderOptions.Run] has returned it holds exactly one row per
    listed run, the [i]-th row being that of [ri]; and from every such
    state the pipeline does run to that return.  The order comes from the
    gates: a slot uploads only after its [readyToUpload], the
    predecessor's [doneUploading] (the first one closed up front), is
    closed. *)
Theorem commits_follow_enumeration (sched : list action) (s : state) :
  (0 < N)%Z ->
  (forall id, id ∈ ids ->
     exists jobRun row,
       readJobRunFromGCS env jobName id = inr (Some jobRun)
       /\ uploadJobRun env jobRun = (None, [row])) ->
  run env jobName N sched (init ids) = Some s ->
  ctxDone s = false ->
  (exists m, (m <= length ids)%nat /\ sink s = take m ids ≫= commit_rows env jobName)
  /\ (forall r, main s = MReturned r ->
        sink s = ids ≫= commit_rows env jobName
        /\ Forall2 (λ id row, commit_rows env jobName id = [row]) ids (sink s))
  /\ (exists sched' s' r,
        run env jobName N sched' s = Some s' /\ main s' = MReturned r
        /\ ctxDone s' = false).
Proof.
  intros HN Hok Hrun Hctx.
  assert (forall id, id ∈ ids ->
            exists jobRun, readJobRunFromGCS env jobName id = inr (Some jobRun)) as Hready.
  { intros id Hid. destruct (Hok id Hid) as (j & _ & Hj & _). eauto. }
  destruct (loader_Inv_run sched _ _ loader_Inv_init Hrun) as [HI _].
  destruct (Ordered_run sched Hready _ _ loader_Inv_init Ordered_init Hrun Hctx)
    as (m & Hm & Hpre & Hsink).
  assert (length (slots s) <= length ids)%nat as Hlen.
  { rewrite <- (inv_ids _ _ _ _ _ HI), length_app, length_map. lia. }
  split; [|split].
  - exists m. split; [lia|done].
  - intros r Hret.
    destruct (inv_ret _ _ _ _ _ HI r Hret) as [Hc|(Hp & _ & Hall)]; [congruence|].
    assert (length (slots s) = length ids) as Hl.
    { rewrite <- (inv_ids _ _ _ _ _ HI), Hp, app_nil_r, length_map. done. }
    assert (m = length ids) as ->.
    { destruct (decide (m = length (slots s))) as [->|Hne]; [done|].
      destruct (lookup_lt_is_Some_2 (slots s) m ltac:(lia)) as [sl Hk].
      pose proof (Hall m sl Hk) as Hpc.
      assert (returned (pc sl) = true) as Hr by (by rewrite Hpc).
      apply (Hpre m sl Hk) in Hr. lia. }
    rewrite firstn_all in Hsink. split; [done|].
    rewrite Hsink. apply bind_singletons.
    apply Forall_forall. intros id Hid.
    destruct (Hok id Hid) as (j & row & Hj & Hu).
    exists row. unfold commit_rows. by rewrite Hj, Hu.
  - destruct (loader_completes (measure s) HN s HI ltac:(lia)) as (sched' & s' & r & H1 & H2 & H3).
    exists sched', s', r. repeat split; try done. congruence.
Qed.

(** Started slots can always be run to their exit by slot steps alone. *)
Lemma slots_drain (n : nat) :
  forall s, Inv env jobName N ids s -> (measure s <= n)%nat ->
    exists sched s',
      run env jobName N sched s = Some s'
      /\ forall k sl, slots s' !! k = Some sl -> pc sl = SExited \/ pc sl = SCreated.
Proof.
  induction n as [|n IH]; intros s HI Hm.
  all: destruct (decide (count_slots active (slots s) = 0%nat)) as [Hz|Hnz];
    [ exists [], s; split; [done|]; intros k sl Hk;
      pose proof (count_slots_zero active _ Hz k sl Hk) as Ha;
      destruct (pc sl); try done; auto
    | destruct (first_active _ Hnz) as (k & sl & Hk & Hact & Hbefore);
      destruct (earliest_slot_enabled s k sl HI Hk Hact Hbefore) as [s1 Hex];
      pose proof (loader_Inv_step (ASlot k) s s1 HI Hex) as HI1;
      destruct (measure_step (ASlot k) s s1 HI Hex) as [Hlt _] ].
  - lia.
  - destruct (IH s1 HI1 ltac:(lia)) as (sched & s' & Hrun & Hall).
    exists (ASlot k :: sched), s'. split; [|done].
    simpl in *. by rewrite Hex.
Qed.

(** C2. In every reachable state and for every slot, the number of
    [close] calls its own gate [doneUploading] has received is 0 while
    [Run] is still running and exactly 1 once [Run] has returned,
    whichever way it returned (upload succeeded or failed, run absent or
    unfinished, read failed, context done): the step that makes [Run]
    return takes the gate from 0 to 1.  A slot that has returned lets its
    successor's wait at the select complete, and from every reachable
    state the started slots can all be run to their exit, so none stays
    blocked on a gate. *)
Theorem gate_closed_exactly_once (sched : list action) (s : state)
        (k : nat) (sl : jobRunLoaderOptions) :
  run env jobName N sched (init ids) = Some s ->
  slots s !! k = Some sl ->
  chans s !! doneUploading sl = Some (if returned (pc sl) then 1 else 0)
  /\ (forall a s' sl',
        exec env jobName N a s = Some s' -> slots s' !! k = Some sl' ->
        doneUploading sl' = doneUploading sl
        /\ chans s' !! doneUploading sl = Some (if returned (pc sl') then 1 else 0))
  /\ (returned (pc sl) = true ->
      forall sl' jobRun,
        slots s !! S k = Some sl' -> pc sl' = SSelect jobRun ->
        readyToUpload sl' = doneUploading sl
        /\ step_slot env jobName (S k) s = Some (slot_goto (S k) sl' (SUpload jobRun) s))
  /\ (exists sched' s',
        run env jobName N sched' s = Some s'
        /\ forall k' sl', slots s' !! k' = Some sl' -> pc sl' = SExited \/ pc sl' = SCreated).
Proof.
  intros Hrun Hk.
  destruct (loader_Inv_run sched _ _ loader_Inv_init Hrun) as [HI _].
  destruct (inv_slot _ _ _ _ _ HI k sl Hk) as (Hr & Hd & Hc).
  split; [by rewrite Hd|]. split; [|split].
  - intros a s' sl' Hex Hk'.
    pose proof (loader_Inv_step a s s' HI Hex) as HI'.
    destruct (inv_slot _ _ _ _ _ HI' k sl' Hk') as (_ & Hd' & Hc').
    rewrite Hd, Hd'. done.
  - intros Hret sl' jobRun Hk' Hpc'.
    destruct (inv_slot _ _ _ _ _ HI (S k) sl' Hk') as (Hr' & _ & _).
    split; [by rewrite Hr', Hd|].
    unfold step_slot. rewrite Hk', Hpc', Hr'. unfold isClosed.
    by rewrite Hc, Hret.
  - by apply (slots_drain (measure s)).
Qed.

(** C3 (as the code has it). The tokens in use are those of the slots
    whose goroutine has started and has not finished: a token is taken
    by the job loop before the goroutine starts and given back only by
    the goroutine's deferred [Release], after [Run] has returned, so it
    is held across the read, the wait at the select and the upload.  The
    only step that lowers the count is the exit of a slot whose [Run] has
    already returned. *)
Theorem token_held_until_slot_exits (sched : list action) (s : state) :
  run env jobName N sched (init ids) = Some s ->
  semCur s = Z.of_nat (count_slots active (slots s))
  /\ (semCur s <= Z.max 0 N)%Z
  /\ (forall k sl jobRun,
        slots s !! k = Some sl -> pc sl = SSelect jobRun \/ pc sl = SUpload jobRun ->
        (1 <= semCur s)%Z)
  /\ (forall a s',
        exec env jobName N a s = Some s' -> (semCur s' < semCur s)%Z ->
        exists k sl err,
          a = ASlot k /\ slots s !! k = Some sl /\ pc sl = SReturned err
          /\ semCur s' = (semCur s - 1)%Z).
Proof.
  intros Hrun.
  destruct (loader_Inv_run sched _ _ loader_Inv_init Hrun) as [HI _].
  split; [apply (inv_sem _ _ _ _ _ HI)|]. split; [apply (inv_bound _ _ _ _ _ HI)|].
  split.
  - intros k sl jobRun Hk Hpc. rewrite (inv_sem _ _ _ _ _ HI).
    destruct (decide (count_slots active (slots s) = 0%nat)) as [Hz|Hnz]; [|lia].
    pose proof (count_slots_zero active _ Hz k sl Hk) as Ha.
    destruct Hpc as [Hpc|Hpc]; by rewrite Hpc in Ha.
  - intros a s' Hex Hlt. destruct a as [| | |k|k]; simpl in Hex.
    + unfold step_main, newJobRunBigQueryLoaderOptions in Hex.
      repeat case_match; simplify_eq; fields; lia.
    + unfold step_acquire_fail in Hex. repeat case_match; simplify_eq; fields; lia.
    + unfold step_cancel in Hex. repeat case_match; simplify_eq; fields; lia.
    + unfold step_slot in Hex.
      destruct (slots s !! k) as [sl|] eqn:Hk; [|done].
      destruct (pc sl) as [| |jobRun|jobRun|err|] eqn:Hpc; try done.
      * repeat case_match; simplify_eq; fields; lia.
      * repeat case_match; simplify_eq; fields; lia.
      * repeat case_match; simplify_eq; fields; lia.
      * simplify_eq. by exists k, sl, err.
    + unfold step_slot_ctx_done in Hex. repeat case_match; simplify_eq; fields; lia.
Qed.

Lemma fetching_le_active (sls : list jobRunLoaderOptions) :
  (count_slots fetching sls <= count_slots active sls)%nat.
Proof.
  unfold count_slots. induction sls as [|a sls IH]; simpl; [done|].
  destruct (pc a); simpl; lia.
Qed.

(** The reads in flight are bounded by the semaphore. *)
Lemma fetching_bounded (sched : list action) (s : state) :
  run env jobName N sched (init ids) = Some s ->
  (Z.of_nat (count_slots fetching (slots s)) <= Z.max 0 N)%Z.
Proof.
  intros Hrun.
  destruct (loader_Inv_run sched _ _ loader_Inv_init Hrun) as [HI _].
  pose proof (inv_sem _ _ _ _ _ HI). pose proof (inv_bound _ _ _ _ _ HI).
  pose proof (fetching_le_active (slots s)). lia.
Qed.

(** The sink only grows by the upload of a slot that went through the
    select, that is, whose read was classified as ready. *)
(** What [uploadJobRun] hands to the sink: the row built by
    [newJobRunRow], when [jobRunInserter.Put] accepts it, and nothing
    otherwise. *)
Lemma uploadJobRun_put (jobRun : JobRunInfo) :
  (forall prowJob,
      GetProwJob jobRun = inr prowJob ->
      Put env (newJobRunRow env jobRun prowJob) = None ->
      (uploadJobRun env jobRun).2 = [newJobRunRow env jobRun prowJob])
  /\ ((uploadJobRun env jobRun).2 <> [] ->
      exists prowJob,
        GetProwJob jobRun = inr prowJob
        /\ Put env (newJobRunRow env jobRun prowJob) = None
        /\ (uploadJobRun env jobRun).2 = [newJobRunRow env jobRun prowJob]).
Proof.
  unfold uploadJobRun. split.
  - intros prowJob -> ->. by destruct (uploadContent env jobRun prowJob).
  - intros Hne. destruct (GetProwJob jobRun) as [err|prowJob]; [done|].
    destruct (Put env (newJobRunRow env jobRun prowJob)) as [err|] eqn:E; [done|].
    exists prowJob. split; [done|]. split; [done|].
    by destruct (uploadContent env jobRun prowJob).
Qed.

Lemma sink_step (a : action) (s s' : state) :
  Inv env jobName N ids s ->
  exec env jobName N a s = Some s' ->
  sink s' <> sink s ->
  exists k sl jobRun,
    a = ASlot k /\ slots s !! k = Some sl /\ pc sl = SUpload jobRun
    /\ readJobRunFromGCS env jobName (jobRunID sl) = inr (Some jobRun)
    /\ sink s' = sink s ++ (uploadJobRun env jobRun).2.
Proof.
  intros HI Hex Hne. destruct a as [| | |k|k]; simpl in Hex.
  - unfold step_main, newJobRunBigQueryLoaderOptions in Hex.
    repeat case_match; simplify_eq; fields; done.
  - unfold step_acquire_fail in Hex. repeat case_match; simplify_eq; fields; done.
  - unfold step_cancel in Hex. repeat case_match; simplify_eq; fields; done.
  - unfold step_slot in Hex.
    destruct (slots s !! k) as [sl|] eqn:Hk; [|done].
    destruct (pc sl) as [| |jobRun|jobRun|err|] eqn:Hpc; try done.
    + repeat case_match; simplify_eq; fields; rewrite ?app_nil_r in Hne; done.
    + repeat case_match; simplify_eq; fields; done.
    + exists k, sl, jobRun.
      pose proof (inv_info _ _ _ _ _ HI k sl jobRun Hk (or_intror Hpc)) as Hread.
      destruct (uploadJobRun env jobRun) as [[err|] rows]; simplify_eq; fields; done.
    + by simplify_eq.
  - unfold step_slot_ctx_done in Hex.
    repeat case_match; simplify_eq; fields; rewrite ?app_nil_r in Hne; done.
Qed.

(** C5. A slot about to read a run whose artifact is absent
    ([ReadJobRunFromGCS] returns no job run) or unfinished (the prowjob
    has no completion time): its read step makes [Run] return nil with
    the sink untouched and its gate closed; its exit reports no error; a
    successor waiting at the select then passes it and its next step is
    the upload, which puts the successor's row (the one [newJobRunRow]
    builds) into the sink whenever [jobRunInserter.Put] accepts it; and
    the sink only ever grows by such a row, put by the upload of a slot
    whose read was classified as ready. *)
Theorem absent_or_unfinished_run_is_skipped (sched : list action) (s : state)
        (k : nat) (sl : jobRunLoaderOptions) :
  run env jobName N sched (init ids) = Some s ->
  slots s !! k = Some sl ->
  pc sl = SRead ->
  ReadJobRunFromGCS env jobName (jobRunID sl) = inr None
  \/ (exists jobRunInfo prowjob,
        ReadJobRunFromGCS env jobName (jobRunID sl) = inr (Some jobRunInfo)
        /\ GetProwJob jobRunInfo = inr prowjob
        /\ CompletionTime prowjob = None) ->
  let s1 := slot_return k sl None [] s in
  let s2 := slot_exit k (set_pc (SReturned None) sl) None s1 in
  readJobRunFromGCS env jobName (jobRunID sl) = inr None
  /\ exec env jobName N (ASlot k) s = Some s1
  /\ sink s1 = sink s
  /\ isClosed (doneUploading sl) (chans s1) = true
  /\ exec env jobName N (ASlot k) s1 = Some s2
  /\ insertionErrors s2 = insertionErrors s
  /\ sink s2 = sink s
  /\ (forall sl' jobRun,
        slots s1 !! S k = Some sl' -> pc sl' = SSelect jobRun ->
        let s3 := slot_goto (S k) sl' (SUpload jobRun) s1 in
        exec env jobName N (ASlot (S k)) s1 = Some s3
        /\ exists s4,
            exec env jobName N (ASlot (S k)) s3 = Some s4
            /\ sink s4 = sink s ++ (uploadJobRun env jobRun).2
            /\ (forall prowJob,
                  GetProwJob jobRun = inr prowJob ->
                  Put env (newJobRunRow env jobRun prowJob) = None ->
                  sink s4 = sink s ++ [newJobRunRow env jobRun prowJob]))
  /\ (forall a s',
        exec env jobName N a s = Some s' -> sink s' <> sink s ->
        exists j slj jobRun prowJob,
          a = ASlot j /\ slots s !! j = Some slj /\ pc slj = SUpload jobRun
          /\ readJobRunFromGCS env jobName (jobRunID slj) = inr (Some jobRun)
          /\ GetProwJob jobRun = inr prowJob
          /\ Put env (newJobRunRow env jobRun prowJob) = None
          /\ sink s' = sink s ++ [newJobRunRow env jobRun prowJob]).
Proof.
  intros Hrun Hk Hpc Hskip s1 s2.
  destruct (loader_Inv_run sched _ _ loader_Inv_init Hrun) as [HI _].
  pose proof (lookup_lt_Some _ _ _ Hk) as Hlt.
  assert (readJobRunFromGCS env jobName (jobRunID sl) = inr None) as Hread.
  { unfold readJobRunFromGCS.
    destruct Hskip as [->|(info & pj & -> & -> & ->)]; done. }
  assert (exec env jobName N (ASlot k) s = Some s1) as Hex1.
  { simpl. unfold step_slot. by rewrite Hk, Hpc, Hread. }
  pose proof (loader_Inv_step _ _ _ HI Hex1) as HI1.
  assert (slots s1 !! k = Some (set_pc (SReturned None) sl)) as Hk1.
  { unfold s1. fields. by rewrite list_lookup_insert_eq. }
  destruct (inv_slot _ _ _ _ _ HI1 k _ Hk1) as (_ & Hd1 & Hc1). fields.
  split; [done|]. split; [done|]. split; [unfold s1; fields; by rewrite app_nil_r|].
  split; [unfold isClosed; by rewrite Hd1, Hc1|].
  split; [simpl; unfold step_slot; by rewrite Hk1|].
  split; [unfold s2, s1; fields; by rewrite app_nil_r|].
  split; [unfold s2, s1; fields; by rewrite app_nil_r|].
  split.
  - intros sl' jobRun Hk' Hpc'.
    set (s3 := slot_goto (S k) sl' (SUpload jobRun) s1).
    destruct (inv_slot _ _ _ _ _ HI1 (S k) sl' Hk') as (Hr' & _ & _).
    assert (exec env jobName N (ASlot (S k)) s1 = Some s3) as Hex3.
    { simpl. unfold step_slot. rewrite Hk', Hpc', Hr'. unfold isClosed.
      by rewrite Hc1. }
    split; [done|].
    pose proof (lookup_lt_Some _ _ _ Hk') as Hlt'.
    simpl. unfold step_slot, s3. fields.
    rewrite list_lookup_insert_eq by done. fields.
    pose proof (proj1 (uploadJobRun_put jobRun)) as Hput.
    destruct (uploadJobRun env jobRun) as [[err|] rows]; eexists;
      (split; [reflexivity|]); unfold s1; fields; rewrite app_nil_r;
      (split; [done|]); intros prowJob Hg Hp; f_equal; exact (Hput prowJob Hg Hp).
  - intros a s' Hex Hne.
    destruct (sink_step a s s' HI Hex Hne) as (j & slj & jobRun & ? & ? & ? & ? & Hs).
    destruct (proj2 (uploadJobRun_put jobRun)) as (prowJob & Hg & Hp & Hrows).
    { intros Hnil. rewrite Hnil, app_nil_r in Hs. done. }
    exists j, slj, jobRun, prowJob. rewrite Hrows in Hs. done.
Qed.
End LoaderFacts.

(** ** The resume point *)
Section ResumeFacts.
Import Loader.
Variable env : Env.
Variable jobName : string.
Variable N : Z.
Variable idlt : string -> string -> Prop.
Context `{!StrictOrder idlt}.

(** C6. [jobLoaderOptions.Run] lists the runs from the successor
    ([NextJobRunID]) of the name of the latest recorded run, or from "0"
    when none is recorded, and processes the listed identifiers and no
    other.  Hence, when that successor is above the checkpoint and the
    listing returns only identifiers from its start on, every identifier
    a slot is ever built for is strictly above the checkpoint: none at or
    below it is processed again. *)
Theorem resume_after_checkpoint :
  startingJobRunID env None = "0"
  /\ (forall row, startingJobRunID env (Some row) = NextJobRunID env (RowName row))
  /\ (forall s0,
        Run_start env jobName = inr s0 ->
        exists lastJobRun,
          getLastJobRunWithDataFn env jobName = inr lastJobRun
          /\ ListJobRunNamesOlderThanFourHours env jobName (startingJobRunID env lastJobRun)
             = inr (pending s0)
          /\ s0 = init (pending s0))
  /\ (forall row s0 sched s k sl,
        getLastJobRunWithDataFn env jobName = inr (Some row) ->
        Run_start env jobName = inr s0 ->
        idlt (RowName row) (NextJobRunID env (RowName row)) ->
        (forall id, id ∈ pending s0 ->
                    id = NextJobRunID env (RowName row)
                    \/ idlt (NextJobRunID env (RowName row)) id) ->
        run env jobName N sched s0 = Some s ->
        slots s !! k = Some sl ->
        jobRunID sl ∈ pending s0
        /\ idlt (RowName row) (jobRunID sl)
        /\ jobRunID sl <> RowName row
        /\ ~ idlt (jobRunID sl) (RowName row)).
Proof.
  split; [done|]. split; [done|]. split.
  - intros s0 Hs. unfold Run_start in Hs.
    destruct (getLastJobRunWithDataFn env jobName) as [err|lastJobRun]; [done|].
    destruct (ListJobRunNamesOlderThanFourHours env jobName (startingJobRunID env lastJobRun))
      as [err|listed] eqn:Hl; [done|].
    simplify_eq. by exists lastJobRun.
  - intros row s0 sched s k sl Hlast Hs Hsucc Hlist Hrun Hk.
    assert (s0 = init (pending s0)) as Hinit.
    { unfold Run_start in Hs. rewrite Hlast in Hs.
      destruct (ListJobRunNamesOlderThanFourHours env jobName _); by simplify_eq. }
    rewrite Hinit in Hrun.
    destruct (loader_Inv_run env jobName N (pending s0) sched _ _
                (loader_Inv_init env jobName N (pending s0)) Hrun) as [HI _].
    pose proof (slot_id_in_ids env jobName N (pending s0) s k sl HI Hk) as Hid.
    assert (jobRunID sl ∈ pending s0) as Hin by (apply list_elem_of_lookup; eauto).
    assert (idlt (RowName row) (jobRunID sl)) as Hlt.
    { destruct (Hlist _ Hin) as [->|Hgt]; [done|]. by etrans. }
    repeat split; try done.
    + intros Heq. rewrite Heq in Hlt. by apply (irreflexivity idlt (RowName row)).
    + intros Hgt. apply (irreflexivity idlt (RowName row)). by etrans.
Qed.
End ResumeFacts.

(** ** Concrete runs *)

Lemma id_lt_strict : StrictOrder Loader.id_lt.
Proof.
  split.
  - intros x H. unfold Loader.id_lt in H. lia.
  - intros x y z. unfold Loader.id_lt. lia.
Qed.

Example demo_listing :
  Loader.Run_start Loader.demo_env "release-amd64" = inr (Loader.init ["6"; "7"; "8"]).
Proof. vm_compute. reflexivity. Qed.

(** The scenario of the job [release-amd64] with checkpoint 5 and runs 6
    (ready), 7 (unfinished), 8 (ready), the read of 8 finishing first:
    the sink receives 6 then 8 and nothing for 7. *)
Example demo_scenario :
  (Loader.sink
     <$> Loader.run Loader.demo_env "release-amd64" 20
           [Loader.AMain; Loader.AMain; Loader.AMain; Loader.AMain; Loader.AMain;
            Loader.AMain; Loader.AMain;
            Loader.ASlot 2; Loader.ASlot 1; Loader.ASlot 0; Loader.ASlot 0; Loader.ASlot 0;
            Loader.ASlot 2; Loader.ASlot 2;
            Loader.ASlot 0; Loader.ASlot 1; Loader.ASlot 2; Loader.AMain]
           (Loader.init ["6"; "7"; "8"]))
  = Some [Loader.mkRow "6" "release-amd64" ""; Loader.mkRow "8" "release-amd64" ""].
Proof. vm_compute. reflexivity. Qed.

(** C8. At every reachable state of a job's pipeline the reads in flight
    are at most [N], the size of the weighted semaphore (nothing runs
    when [N] is not positive); at every reachable state of the pool at
    most 20 jobs are being loaded, one per worker; and the pool builds
    every job's loader with [numberOfConcurrentReaders = 20]. *)
Theorem fetches_and_jobs_bounded
        (lenv : Loader.Env) (jobName : string) (N : Z) (ids : list string)
        (lsched : list Loader.action) (ls : Loader.state)
        (penv : Pool.Env) (jobs : list Pool.JobRow)
        (psched : list Pool.action) (ps : Pool.state) :
  Loader.run lenv jobName N lsched (Loader.init ids) = Some ls ->
  Pool.run penv psched (Pool.init jobs) = Some ps ->
  (Z.of_nat (Loader.count_slots Loader.fetching (Loader.slots ls)) <= Z.max 0 N)%Z
  /\ (Pool.busy_workers ps <= 20)%nat
  /\ length (Pool.workers ps) = 20%nat
  /\ forall job,
      Pool.numberOfConcurrentReaders (Pool.newJobBigQueryLoaderOptions job) = 20%Z.
Proof.
  intros Hl Hp. split; [by eapply fetching_bounded|].
  destruct (pool_Inv_run penv jobs psched _ _ (pool_Inv_init penv jobs) Hp) as [HI _].
  pose proof (Pool.inv_len _ _ _ HI) as Hlen.
  split; [|split; [done|done]].
  unfold Pool.busy_workers. rewrite <- Hlen. apply length_filter.
Qed.

Lemma fetches_and_jobs_bounded_witness :
  exists ls ps,
    Loader.run Loader.demo_env "release-amd64" 2
               [Loader.AMain; Loader.AMain; Loader.AMain; Loader.AMain; Loader.AMain]
               (Loader.init ["6"; "7"; "8"]) = Some ls
    /\ Pool.run Pool.demo_env [Pool.PWorker 0; Pool.PWorker 1; Pool.PWorker 2]
                (Pool.init Pool.demo_jobs) = Some ps
    /\ (Z.of_nat (Loader.count_slots Loader.fetching (Loader.slots ls)) <= Z.max 0 2)%Z
    /\ (Pool.busy_workers ps <= 20)%nat.
Proof.
  destruct (Loader.run Loader.demo_env "release-amd64" 2
              [Loader.AMain; Loader.AMain; Loader.AMain; Loader.AMain; Loader.AMain]
              (Loader.init ["6"; "7"; "8"])) as [ls|] eqn:El;
    [|vm_compute in El; discriminate El].
  destruct (Pool.run Pool.demo_env [Pool.PWorker 0; Pool.PWorker 1; Pool.PWorker 2]
              (Pool.init Pool.demo_jobs)) as [ps|] eqn:Ep;
    [|vm_compute in Ep; discriminate Ep].
  exists ls, ps. split; [reflexivity|]. split; [reflexivity|].
  destruct (fetches_and_jobs_bounded _ _ _ _ _ _ _ _ _ _ El Ep) as (H1 & H2 & _).
  split; [exact H1|exact H2].
Defined.

(** C3, as stated, fails: with one token and the single run 6, after the
    read and the wait the slot is about to upload, no slot is reading,
    and the token is still in use. *)
Lemma token_still_held_at_upload :
  ~ Loader.token_released_after_fetch Loader.demo_env "release-amd64" 1 ["6"].
Proof.
  intros H.
  specialize (H [Loader.AMain; Loader.AMain; Loader.ASlot 0; Loader.ASlot 0]).
  destruct (Loader.run Loader.demo_env "release-amd64" 1
              [Loader.AMain; Loader.AMain; Loader.ASlot 0; Loader.ASlot 0]
              (Loader.init ["6"])) as [s|] eqn:E.
  - specialize (H s eq_refl). vm_compute in E. injection E as <-.
    vm_compute in H. exact (H eq_refl).
  - vm_compute in E. discriminate E.
Qed.

(** The token theorem on the single run 6 with one token, the slot
    about to upload. *)
Lemma token_held_until_slot_exits_witness :
  exists s sl,
    Loader.run Loader.demo_env "release-amd64" 1
               [Loader.AMain; Loader.AMain; Loader.ASlot 0; Loader.ASlot 0]
               (Loader.init ["6"]) = Some s
    /\ Loader.slots s !! 0%nat = Some sl
    /\ Loader.pc sl
       = Loader.SUpload (Loader.mkInfo "6" (inr (Loader.mkProwJob (Some 1700000000%Z))) None)
    /\ (1 <= Loader.semCur s)%Z.
Proof.
  destruct (Loader.run Loader.demo_env "release-amd64" 1
              [Loader.AMain; Loader.AMain; Loader.ASlot 0; Loader.ASlot 0]
              (Loader.init ["6"])) as [s|] eqn:E;
    [|vm_compute in E; discriminate E].
  destruct (Loader.slots s !! 0%nat) as [sl|] eqn:Hk;
    [|vm_compute in E; injection E as <-; discriminate Hk].
  exists s, sl. split; [reflexivity|]. split; [exact Hk|].
  assert (Loader.pc sl
          = Loader.SUpload
              (Loader.mkInfo "6" (inr (Loader.mkProwJob (Some 1700000000%Z))) None)) as Hpc.
  { vm_compute in E. injection E as <-. vm_compute in Hk. injection Hk as <-. reflexivity. }
  split; [exact Hpc|].
  destruct (token_held_until_slot_exits Loader.demo_env "release-amd64" 1 ["6"] _ s E)
    as (_ & _ & H & _).
  exact (H 0%nat sl _ Hk (or_intror Hpc)).
Defined.

(** C4, on the code: two ready runs, two tokens; slot 1 has read and
    waits at the select for slot 0, which is still reading, when the
    context is cancelled.  The slot writes nothing and closes its gate,
    but its [Run] returns nil, and so does [jobLoaderOptions.Run] at the
    end: no cancellation error is reported. *)
Theorem cancelled_wait_returns_nil :
  exists s s' s'',
    Loader.run Loader.demo_env "release-amd64" 2
               [Loader.AMain; Loader.AMain; Loader.AMain; Loader.AMain;
                Loader.ASlot 1; Loader.ACancel]
               (Loader.init ["6"; "8"]) = Some s
    /\ Loader.ctxDone s = true
    /\ Loader.pc <$> Loader.slots s !! 1%nat
       = Some (Loader.SSelect
                 (Loader.mkInfo "8" (inr (Loader.mkProwJob (Some 1700000000%Z))) None))
    /\ Loader.exec Loader.demo_env "release-amd64" 2 (Loader.ASlot 1) s = None
    /\ Loader.exec Loader.demo_env "release-amd64" 2 (Loader.ASlotCtxDone 1) s = Some s'
    /\ Loader.pc <$> Loader.slots s' !! 1%nat = Some (Loader.SReturned None)
    /\ Loader.sink s' = []
    /\ Loader.isClosed 2 (Loader.chans s') = true
    /\ Loader.run Loader.demo_env "release-amd64" 2
                  [Loader.ASlot 1; Loader.ASlot 0; Loader.ASlotCtxDone 0; Loader.ASlot 0;
                   Loader.AMain; Loader.AMain] s' = Some s''
    /\ Loader.main s'' = Loader.MReturned None
    /\ Loader.insertionErrors s'' = []
    /\ Loader.sink s'' = [].
Proof.
  eexists _, _, _.
  split; [vm_compute; reflexivity|].
  split; [reflexivity|]. split; [reflexivity|]. split; [reflexivity|].
  split; [vm_compute; reflexivity|].
  split; [reflexivity|]. split; [reflexivity|]. split; [reflexivity|].
  split; [vm_compute; reflexivity|].
  split; [reflexivity|]. split; reflexivity.
Qed.

(** C1, as stated, fails: runs 6, 8 and 9 are all ready and every upload
    succeeds, three tokens; the context is cancelled while the slots of
    8 and 9 wait at the select, the slot of 8 takes the [ctx.Done()]
    branch and closes its gate, the slot of 9 then passes its select and
    uploads, and only then the slot of 6 uploads: the sink holds the row
    of 9 before the row of 6. *)
Lemma cancelled_wait_breaks_order :
  ~ Loader.commits_in_listing_order Loader.demo_env "release-amd64" 3 ["6"; "8"; "9"].
Proof.
intros H.
assert (Hok : forall id, id ∈ ["6"; "8"; "9"] ->
     exists jobRun row,
       Loader.readJobRunFromGCS Loader.demo_env "release-amd64" id = inr (Some jobRun)
       /\ Loader.uploadJobRun Loader.demo_env jobRun = (None, [row])).
{ intros id Hid.
  repeat (apply elem_of_cons in Hid as [->|Hid]; [by eexists _, _|]).
  by apply elem_of_nil in Hid. }
specialize (H Hok
  [Loader.AMain; Loader.AMain; Loader.AMain; Loader.AMain; Loader.AMain; Loader.AMain;
   Loader.ASlot 1; Loader.ASlot 2; Loader.ACancel; Loader.ASlotCtxDone 1;
   Loader.ASlot 2; Loader.ASlot 2;
   Loader.ASlot 0; Loader.ASlot 0; Loader.ASlot 0]).
destruct (Loader.run Loader.demo_env "release-amd64" 3
  [Loader.AMain; Loader.AMain; Loader.AMain; Loader.AMain; Loader.AMain; Loader.AMain;
   Loader.ASlot 1; Loader.ASlot 2; Loader.ACancel; Loader.ASlotCtxDone 1;
   Loader.ASlot 2; Loader.ASlot 2;
   Loader.ASlot 0; Loader.ASlot 0; Loader.ASlot 0]
  (Loader.init ["6"; "8"; "9"])) as [s|] eqn:E.
- specialize (H s eq_refl). vm_compute in E. injection E as <-.
  vm_compute in H.
  apply sublist_cons_r in H as [H|(l & Heq & H)]; [|discriminate Heq].
  apply sublist_cons_r in H as [H|(l & Heq & H)]; [|discriminate Heq].
  apply sublist_cons_r in H as [H|(l & Heq & H)].
  + apply sublist_nil_r in H. discriminate H.
  + injection Heq as <-. apply sublist_nil_r in H. discriminate H.
- vm_compute in E. discriminate E.
Qed.

(** The ordering theorem on runs 6 and 8, both ready, with two tokens
    and the read of 8 finishing before the read of 6. *)
Lemma commits_follow_enumeration_witness :
  exists s,
    Loader.run Loader.demo_env "release-amd64" 2
               [Loader.AMain; Loader.AMain; Loader.AMain; Loader.AMain;
                Loader.ASlot 1; Loader.ASlot 0; Loader.ASlot 0; Loader.ASlot 0;
                Loader.ASlot 1; Loader.ASlot 1; Loader.ASlot 0; Loader.ASlot 1;
                Loader.AMain; Loader.AMain]
               (Loader.init ["6"; "8"]) = Some s
    /\ Loader.main s = Loader.MReturned None
    /\ Loader.sink s = ["6"; "8"] ≫= Loader.commit_rows Loader.demo_env "release-amd64".
Proof.
  destruct (Loader.run Loader.demo_env "release-amd64" 2
               [Loader.AMain; Loader.AMain; Loader.AMain; Loader.AMain;
                Loader.ASlot 1; Loader.ASlot 0; Loader.ASlot 0; Loader.ASlot 0;
                Loader.ASlot 1; Loader.ASlot 1; Loader.ASlot 0; Loader.ASlot 1;
                Loader.AMain; Loader.AMain]
               (Loader.init ["6"; "8"])) as [s|] eqn:E;
    [|vm_compute in E; discriminate E].
  exists s. split; [reflexivity|].
  assert (Loader.main s = Loader.MReturned None) as Hm.
  { vm_compute in E. injection E as <-. reflexivity. }
  assert (Loader.ctxDone s = false) as Hc.
  { vm_compute in E. injection E as <-. reflexivity. }
  split; [exact Hm|].
  assert (forall id, id ∈ ["6"; "8"] ->
            exists jobRun row,
              Loader.readJobRunFromGCS Loader.demo_env "release-amd64" id
              = inr (Some jobRun)
              /\ Loader.uploadJobRun Loader.demo_env jobRun = (None, [row])) as Hok.
  { intros id Hid.
    apply elem_of_cons in Hid as [->|Hid]; [by eexists _, _|].
    apply elem_of_cons in Hid as [->|Hid]; [by eexists _, _|].
    by apply elem_of_nil in Hid. }
  destruct (commits_follow_enumeration Loader.demo_env "release-amd64" 2 ["6"; "8"] _ s
              ltac:(lia) Hok E Hc) as (_ & Hret & _).
  exact (proj1 (Hret None Hm)).
Defined.

(** The gate theorem on slot 1 of runs 6, 7, 8 after it found run 7
    unfinished. *)
Lemma gate_closed_exactly_once_witness :
  exists s sl,
    Loader.run Loader.demo_env "release-amd64" 2
               [Loader.AMain; Loader.AMain; Loader.AMain; Loader.AMain; Loader.ASlot 1]
               (Loader.init ["6"; "7"; "8"]) = Some s
    /\ Loader.slots s !! 1%nat = Some sl
    /\ Loader.chans s !! Loader.doneUploading sl
       = Some (if Loader.returned (Loader.pc sl) then 1 else 0)%nat.
Proof.
  destruct (Loader.run Loader.demo_env "release-amd64" 2
               [Loader.AMain; Loader.AMain; Loader.AMain; Loader.AMain; Loader.ASlot 1]
               (Loader.init ["6"; "7"; "8"])) as [s|] eqn:E;
    [|vm_compute in E; discriminate E].
  destruct (Loader.slots s !! 1%nat) as [sl|] eqn:Hk;
    [|vm_compute in E; injection E as <-; discriminate Hk].
  exists s, sl. split; [reflexivity|]. split; [exact Hk|].
  exact (proj1 (gate_closed_exactly_once Loader.demo_env "release-amd64" 2
                  ["6"; "7"; "8"] _ s 1%nat sl E Hk)).
Defined.

(** The skip theorem on runs 6, 7, 8 with three tokens: slot 1 is about
    to read the unfinished run 7 and slot 2 waits at the select with run
    8 read; slot 1 returns without a write, and slot 2 then puts the row
    of run 8 into the sink. *)
Lemma absent_or_unfinished_run_is_skipped_witness :
  exists s sl sl' s4,
    Loader.run Loader.demo_env "release-amd64" 3
               [Loader.AMain; Loader.AMain; Loader.AMain; Loader.AMain; Loader.AMain;
                Loader.AMain; Loader.ASlot 2]
               (Loader.init ["6"; "7"; "8"]) = Some s
    /\ Loader.slots s !! 1%nat = Some sl
    /\ Loader.exec Loader.demo_env "release-amd64" 3 (Loader.ASlot 1) s
       = Some (Loader.slot_return 1 sl None [] s)
    /\ Loader.sink (Loader.slot_return 1 sl None [] s) = Loader.sink s
    /\ Loader.slots (Loader.slot_return 1 sl None [] s) !! 2%nat = Some sl'
    /\ Loader.exec Loader.demo_env "release-amd64" 3 (Loader.ASlot 2)
         (Loader.slot_goto 2 sl'
            (Loader.SUpload
               (Loader.mkInfo "8" (inr (Loader.mkProwJob (Some 1700000000%Z))) None))
            (Loader.slot_return 1 sl None [] s)) = Some s4
    /\ Loader.sink s4 = [Loader.mkRow "8" "release-amd64" ""].
Proof.
destruct (Loader.run Loader.demo_env "release-amd64" 3
               [Loader.AMain; Loader.AMain; Loader.AMain; Loader.AMain; Loader.AMain;
                Loader.AMain; Loader.ASlot 2]
               (Loader.init ["6"; "7"; "8"])) as [s|] eqn:E;
  [|vm_compute in E; discriminate E].
destruct (Loader.slots s !! 1%nat) as [sl|] eqn:Hk;
  [|vm_compute in E; injection E as <-; discriminate Hk].
assert (Loader.pc sl = Loader.SRead /\ Loader.jobRunID sl = "7") as [Hpc Hid].
{ vm_compute in E. injection E as <-. vm_compute in Hk. injection Hk as <-. done. }
assert (Hsink : Loader.sink s = []) by (vm_compute in E; injection E as <-; reflexivity).
destruct (Loader.slots (Loader.slot_return 1 sl None [] s) !! 2%nat) as [sl'|] eqn:Hk';
  [|vm_compute in E; injection E as <-; vm_compute in Hk; injection Hk as <-;
    discriminate Hk'].
assert (Hpc' : Loader.pc sl'
               = Loader.SSelect
                   (Loader.mkInfo "8" (inr (Loader.mkProwJob (Some 1700000000%Z))) None)).
{ vm_compute in E. injection E as <-. vm_compute in Hk. injection Hk as <-.
  vm_compute in Hk'. injection Hk' as <-. reflexivity. }
destruct (absent_or_unfinished_run_is_skipped Loader.demo_env "release-amd64" 3
            ["6"; "7"; "8"] _ s 1%nat sl E Hk Hpc)
  as (_ & H1 & H2 & _ & _ & _ & _ & Hsucc & _).
{ right. rewrite Hid.
  exists (Loader.mkInfo "7" (inr (Loader.mkProwJob None)) None), (Loader.mkProwJob None).
  done. }
destruct (Hsucc sl' _ Hk' Hpc') as (_ & s4 & Hex4 & _ & Hrow).
exists s, sl, sl', s4.
split; [reflexivity|]. split; [exact Hk|]. split; [exact H1|]. split; [exact H2|].
split; [exact Hk'|]. split; [exact Hex4|].
rewrite (Hrow (Loader.mkProwJob (Some 1700000000%Z)) eq_refl eq_refl), Hsink.
reflexivity.
Defined.

(** The resume theorem on the job whose latest recorded run is 5. *)
Lemma resume_after_checkpoint_witness :
  exists s sl,
    Loader.run Loader.demo_env "release-amd64" 20 [Loader.AMain; Loader.AMain]
               (Loader.init ["6"; "7"; "8"]) = Some s
    /\ Loader.slots s !! 0%nat = Some sl
    /\ Loader.id_lt "5" (Loader.jobRunID sl).
Proof.
  destruct (Loader.run Loader.demo_env "release-amd64" 20 [Loader.AMain; Loader.AMain]
               (Loader.init ["6"; "7"; "8"])) as [s|] eqn:E;
    [|vm_compute in E; discriminate E].
  destruct (Loader.slots s !! 0%nat) as [sl|] eqn:Hk;
    [|vm_compute in E; injection E as <-; discriminate Hk].
  exists s, sl. split; [reflexivity|]. split; [exact Hk|].
  destruct (resume_after_checkpoint Loader.demo_env "release-amd64" 20 Loader.id_lt
              (StrictOrder0 := id_lt_strict)) as (_ & _ & _ & H).
  refine (proj1 (proj2 (H (Loader.mkRow "5" "release-amd64" "")
                          (Loader.init ["6"; "7"; "8"])
                          [Loader.AMain; Loader.AMain] s 0%nat sl
                          eq_refl _ _ _ E Hk))).
  - vm_compute. reflexivity.
  - vm_compute. reflexivity.
  - intros id Hid. vm_compute in Hid.
    apply elem_of_cons in Hid as [->|Hid]; [by left|].
    apply elem_of_cons in Hid as [->|Hid]; [right; vm_compute; reflexivity|].
    apply elem_of_cons in Hid as [->|Hid]; [right; vm_compute; reflexivity|].
    by apply elem_of_nil in Hid.
Defined.

(** The pool theorem on the three demo jobs, run to the return. *)
Lemma pool_aggregates_every_failure_witness :
  exists s,
    Pool.run Pool.demo_env Pool.demo_schedule (Pool.init Pool.demo_jobs) = Some s
    /\ Pool.returned s = Some (Some (ErrAggregate [ErrMsg "listing job runs failed"]))
    /\ Pool.errChan s ≡ₚ Pool.failures Pool.demo_env Pool.demo_jobs.
Proof.
  destruct (Pool.run Pool.demo_env Pool.demo_schedule (Pool.init Pool.demo_jobs))
    as [s|] eqn:E; [|vm_compute in E; discriminate E].
  exists s. split; [reflexivity|].
  assert (Pool.returned s = Some (Some (ErrAggregate [ErrMsg "listing job runs failed"])))
    as Hr.
  { vm_compute in E. injection E as <-. reflexivity. }
  split; [exact Hr|].
  destruct (pool_aggregates_every_failure Pool.demo_env Pool.demo_jobs _ s E) as (H & _).
  destruct (H _ Hr) as (_ & _ & _ & Hp & _). exact Hp.
Defined.

(** ** Validation, upsert under faults, pruning *)
Section ReconcileFacts.
Import Groups Reconcile.

Lemma validate_members_None (users : list string) :
  forall members,
    validate_members members users = None
    <-> ("" ∉ users) /\ NoDup users /\ (forall m, m ∈ users -> m ∉ members).
Proof.
  induction users as [|u rest IH]; intros members; simpl.
  - split; [intros _|done]. repeat split; [apply not_elem_of_nil|constructor|].
    intros m Hm. by apply elem_of_nil in Hm.
  - case_bool_decide as Hu.
    { split; [done|]. intros (Hn & _). destruct Hn. subst. apply list_elem_of_here. }
    case_bool_decide as Hin.
    { split; [done|]. intros (_ & _ & Hd). destruct (Hd u); [apply list_elem_of_here|done]. }
    rewrite IH. split.
    + intros (Hn & Hnd & Hd). repeat split.
      * rewrite elem_of_cons. intros [?|?]; [by subst|done].
      * constructor; [|done]. intros Hur. apply (Hd u Hur).
        by apply elem_of_union_l, elem_of_singleton.
      * intros m Hm Hmem. apply elem_of_cons in Hm as [->|Hm]; [done|].
        apply (Hd m Hm). by apply elem_of_union_r.
    + intros (Hn & Hnd & Hd). apply NoDup_cons in Hnd as [Hur Hnd].
      repeat split; [|done|].
      * intros Hr. apply Hn. by apply list_elem_of_further.
      * intros m Hm Hmem. apply elem_of_union in Hmem as [Hmem|Hmem].
        -- apply elem_of_singleton in Hmem. by subst.
        -- apply (Hd m); [by apply list_elem_of_further|done].
Qed.

(** X1. [validate] accepts a group exactly when its name is not empty
    and its users are non-empty strings without repetition. *)
Theorem validate_accepts_iff (group : Group) :
  validate group = None
  <-> Name group <> "" /\ ("" ∉ default [] (Users group))
      /\ NoDup (default [] (Users group)).
Proof.
  unfold validate. case_bool_decide as Hn.
  - split; [done|]. by intros (? & _).
  - rewrite validate_members_None. split.
    + intros (He & Hd & _). by repeat split.
    + intros (_ & He & Hd). split; [done|]. split; [done|].
      intros m _. apply not_elem_of_empty.
Qed.

Lemma well_keyed_delete (st : gmap string Group) (k : string) :
  well_keyed st -> well_keyed (delete k st).
Proof.
  intros H k' g. rewrite lookup_delete. case_decide; [done | apply H].
Qed.

(** Every way [UpsertGroup] can end, whatever the client's calls do. *)
Lemma UpsertGroup_outcomes (group : Group) (c : cluster) :
  well_keyed (store c) ->
  exists created err c',
    UpsertGroup group c = ((created, err), c')
    /\ ((created = true /\ err = None /\ store c !! Name group = None
         /\ store c' = <[Name group := group]> (store c))
        \/ (created = false /\ err <> None /\ store c' = store c)
        \/ (created = false /\ err = None /\ store c' = store c
            /\ exists existing,
                store c !! Name group = Some existing
                /\ SemanticDeepEqual (Users group) (Users existing) = true)
        \/ (created = false
            /\ exists existing,
                store c !! Name group = Some existing
                /\ SemanticDeepEqual (Users group) (Users existing) = false
                /\ ((err = None /\ store c' = <[Name group := group]> (store c))
                    \/ (err <> None /\ store c' = delete (Name group) (store c))))).
Proof.
  intros Hk. destruct c as [st fs lg]; simpl in *.
  unfold UpsertGroup, clientCreate at 1, next_fault; simpl.
  assert (forall fs0 lg0 existing,
             st !! Name group = Some existing ->
             exists created err c',
               (let '(r, c2) := clientGet (Name group) (mkCluster st fs0 lg0) in
                match r with
                | inl e' => ((false, Some e'), c2)
                | inr existing0 =>
                    if SemanticDeepEqual (Users group) (Users existing0)
                    then ((false, None), c2)
                    else
                      let '(derr, c3) := clientDelete existing0 c2 in
                      match derr with
                      | Some e' => ((false, Some (ErrWrap "delete failed" e')), c3)
                      | None => let '(cerr, c4) := clientCreate group c3 in ((false, cerr), c4)
                      end
                end) = ((created, err), c')
               /\ created = false
               /\ ((err <> None /\ store c' = st)
                   \/ (err = None /\ store c' = st
                       /\ SemanticDeepEqual (Users group) (Users existing) = true)
                   \/ (SemanticDeepEqual (Users group) (Users existing) = false
                       /\ ((err = None /\ store c' = <[Name group := group]> st)
                           \/ (err <> None /\ store c' = delete (Name group) st)))))
    as Hget.
  { intros fs0 lg0 existing E.
    unfold clientGet, next_fault; simpl.
    destruct fs0 as [|[e|] fs1]; simpl; rewrite ?E; simpl;
      try (eexists _, _, _; split; [reflexivity|]; split; [done|]; left; done).
    all: destruct (SemanticDeepEqual (Users group) (Users existing)) eqn:Q;
      try (eexists _, _, _; split; [reflexivity|]; split; [done|]; right; left; done).
    all: unfold clientDelete, next_fault; simpl; rewrite (Hk _ _ E).
    - rewrite E; simpl. unfold clientCreate, next_fault; simpl.
      rewrite lookup_delete_eq; simpl.
      eexists _, _, _; split; [reflexivity|]; split; [done|].
      right; right. split; [done|]. left. simpl. by rewrite insert_delete_eq.
    - destruct fs1 as [|[e|] fs2]; simpl; rewrite ?E; simpl.
      + unfold clientCreate, next_fault; simpl. rewrite lookup_delete_eq; simpl.
        eexists _, _, _; split; [reflexivity|]; split; [done|].
        right; right. split; [done|]. left. simpl. by rewrite insert_delete_eq.
      + eexists _, _, _; split; [reflexivity|]; split; [done|]. left. done.
      + unfold clientCreate, next_fault; simpl.
        destruct fs2 as [|[e|] fs3]; simpl; rewrite ?lookup_delete_eq; simpl;
          eexists _, _, _; (split; [reflexivity|]); (split; [done|]);
          right; right; (split; [done|]); simpl;
          [left|right|left]; rewrite ?insert_delete_eq; done. }
  destruct fs as [|[e|] fs1]; simpl.
  - destruct (st !! Name group) as [existing|] eqn:E; simpl.
    + destruct (Hget [] (lg ++ [CreateFailed (Name group) ErrAlreadyExists]) existing eq_refl)
        as (cr & err & c' & -> & -> & Hcase).
      exists false, err, c'. split; [done|].
      destruct Hcase as [?|[(? & ? & ?)|(? & ?)]]; [right; left|right; right; left|right; right; right];
        try done; split; try done; eauto.
    + eexists _, _, _; split; [reflexivity|]. left. done.
  - destruct (IsAlreadyExists e) eqn:Ha; simpl.
    + destruct (st !! Name group) as [existing|] eqn:E.
      * destruct (Hget fs1 (lg ++ [CreateFailed (Name group) e]) existing eq_refl)
          as (cr & err & c' & -> & -> & Hcase).
        exists false, err, c'. split; [done|].
        destruct Hcase as [?|[(? & ? & ?)|(? & ?)]]; [right; left|right; right; left|right; right; right];
          try done; split; try done; eauto.
      * unfold clientGet, next_fault; simpl.
        destruct fs1 as [|[e'|] fs2]; simpl; rewrite ?E; simpl;
          eexists _, _, _; (split; [reflexivity|]); right; left; done.
    + eexists _, _, _; split; [reflexivity|]. right; left. done.
  - destruct (st !! Name group) as [existing|] eqn:E; simpl.
    + destruct (Hget fs1 (lg ++ [CreateFailed (Name group) ErrAlreadyExists]) existing eq_refl)
        as (cr & err & c' & -> & -> & Hcase).
      exists false, err, c'. split; [done|].
      destruct Hcase as [?|[(? & ? & ?)|(? & ?)]]; [right; left|right; right; left|right; right; right];
        try done; split; try done; eauto.
    + eexists _, _, _; split; [reflexivity|]. left. done.
Qed.

(** X2. Whatever the client's calls do, when [UpsertGroup] returns no
    error the cluster holds a group of that name whose users are
    semantically equal to the requested ones; when it reports
    [created], the group was absent before and is stored as given; and
    no other group is touched. *)
Theorem UpsertGroup_success_means_present (group : Group) (c c' : cluster) (created : bool) :
  well_keyed (store c) ->
  UpsertGroup group c = ((created, None), c') ->
  (exists stored,
      store c' !! Name group = Some stored
      /\ SemanticDeepEqual (Users group) (Users stored) = true
      /\ (created = true -> stored = group /\ store c !! Name group = None))
  /\ (forall k, k <> Name group -> store c' !! k = store c !! k).
Proof.
  intros Hk Hu.
  destruct (UpsertGroup_outcomes group c Hk) as (cr & err & c1 & Hu' & Hcase).
  rewrite Hu in Hu'. simplify_eq.
  destruct Hcase as [(-> & _ & Hn & Hs)|[(_ & He & _)|[(-> & _ & Hs & ex & Hex & Hq)
                    |(-> & ex & Hex & Hq & [(_ & Hs)|(He & _)])]]]; try done.
  - split.
    + exists group. rewrite Hs, lookup_insert_eq. auto using SemanticDeepEqual_refl.
    + intros k Hne. by rewrite Hs, lookup_insert_ne.
  - split.
    + exists ex. rewrite Hs. done.
    + intros k _. by rewrite Hs.
  - split.
    + exists group. rewrite Hs, lookup_insert_eq. split; [done|].
      split; [apply SemanticDeepEqual_refl|done].
    + intros k Hne. by rewrite Hs, lookup_insert_ne.
Qed.

(** X3. When [UpsertGroup] returns an error it never reports [created],
    it touches no other group, and the cluster is either unchanged or --
    only when a group of that name with different users existed and its
    deletion went through -- left without the group. *)
Theorem UpsertGroup_failure_effect (group : Group) (c c' : cluster)
        (created : bool) (e : error) :
  well_keyed (store c) ->
  UpsertGroup group c = ((created, Some e), c') ->
  created = false
  /\ (forall k, k <> Name group -> store c' !! k = store c !! k)
  /\ (store c' = store c
      \/ exists existing,
          store c !! Name group = Some existing
          /\ SemanticDeepEqual (Users group) (Users existing) = false
          /\ store c' = delete (Name group) (store c)).
Proof.
  intros Hk Hu.
  destruct (UpsertGroup_outcomes group c Hk) as (cr & err & c1 & Hu' & Hcase).
  rewrite Hu in Hu'. simplify_eq.
  destruct Hcase as [(_ & He & _)|[(-> & _ & Hs)|[(_ & He & _)
                    |(-> & ex & Hex & Hq & [(He & _)|(_ & Hs)])]]]; try done.
  - split; [done|]. split; [|by left]. intros k _. by rewrite Hs.
  - split; [done|]. split.
    + intros k Hne. by rewrite Hs, lookup_delete_ne.
    + right. by exists ex.
Qed.

(** X4. [UpsertGroup] is not atomic: when the group exists with
    different users, the Create is rejected, the Get and the Delete go
    through and the second Create fails, the error of that Create is
    returned and the group is gone from the cluster. *)
Theorem UpsertGroup_can_lose_group (group existing : Group) (c : cluster)
        (e : error) (fs : list (option error)) :
  well_keyed (store c) ->
  faults c = None :: None :: None :: Some e :: fs ->
  store c !! Name group = Some existing ->
  SemanticDeepEqual (Users group) (Users existing) = false ->
  (UpsertGroup group c).1 = (false, Some e)
  /\ store (UpsertGroup group c).2 = delete (Name group) (store c)
  /\ store (UpsertGroup group c).2 !! Name group = None.
Proof.
  intros Hk Hf Hex Hq. destruct c as [st fs0 lg]; simpl in *. subst fs0.
  assert (exists lg',
             UpsertGroup group (mkCluster st (None :: None :: None :: Some e :: fs) lg)
             = ((false, Some e), mkCluster (delete (Name group) st) fs lg')) as [lg' ->].
  { unfold UpsertGroup, clientCreate at 1, next_fault; simpl. rewrite Hex; simpl.
    unfold clientGet, next_fault; simpl. rewrite Hex, Hq; simpl.
    unfold clientDelete, next_fault; simpl. rewrite (Hk _ _ Hex), Hex; simpl.
    unfold clientCreate, next_fault; simpl. by eexists. }
  simpl. split; [done|]. split; [done|]. apply lookup_delete_eq.
Qed.

(** X5. [handleGroup] makes no client call at all for a group that
    [validate] rejects (and then returns an error) or in dry-run mode;
    and when it returns nil outside dry-run, the group is valid and the
    cluster holds it with the requested users. *)
Theorem handleGroup_gates (dryRun : bool) (clusterName : string) (group : Group)
        (c : cluster) :
  (validate group <> None ->
   (handleGroup dryRun clusterName group c).2 = c
   /\ (handleGroup dryRun clusterName group c).1 <> None)
  /\ (dryRun = true -> (handleGroup dryRun clusterName group c).2 = c)
  /\ (well_keyed (store c) -> dryRun = false ->
      (handleGroup dryRun clusterName group c).1 = None ->
      validate group = None
      /\ exists stored,
          store (handleGroup dryRun clusterName group c).2 !! Name group = Some stored
          /\ SemanticDeepEqual (Users group) (Users stored) = true).
Proof.
  unfold handleGroup. split; [|split].
  - intros Hv. destruct (validate group); done.
  - intros ->. destruct (validate group); done.
  - intros Hk -> Hr. destruct (validate group) eqn:Hv; [done|]. split; [done|].
    destruct (UpsertGroup_outcomes group c Hk) as (created & err & c' & Hu & Hcase).
    rewrite Hu in Hr |- *.
    destruct err as [e|]; [done|]. simpl.
    destruct Hcase as [(_ & _ & _ & Hs)|[(_ & He & _)|[(_ & _ & Hs & ex & Hex & Hq)
                      |(_ & ex & _ & _ & [(_ & Hs)|(He & _)])]]]; try done.
    + exists group. rewrite Hs, lookup_insert_eq. auto using SemanticDeepEqual_refl.
    + exists ex. by rewrite Hs.
    + exists group. rewrite Hs, lookup_insert_eq. auto using SemanticDeepEqual_refl.
Qed.
End ReconcileFacts.

(** ** The pruning of stale groups *)
Section PruneFacts.
Import Groups Reconcile.
Variable DPTPRequesterLabel : string.
Variable toolName : string.
Variable CIAdminsGroupName : string.
Variable groupsToCreate : gmap string GroupClusters.
Variable clusterName : string.

Lemma clientDelete_store (g : Group) (c : cluster) :
  store (clientDelete g c).2 = store c
  \/ store (clientDelete g c).2 = delete (Name g) (store c).
Proof.
  unfold clientDelete, next_fault.
  destruct (faults c) as [|[e|] fs]; simpl; try (by left);
    destruct (store c !! Name g); simpl; auto.
Qed.

(** Whatever the client does, the loop only ever removes groups it was
    handed, that should be deleted and are not [ci-admins], and none in
    dry-run mode. *)
Lemma pruneItems_effect (dryRun : bool) (items : list Group) :
  forall errs c k,
    store (pruneItems CIAdminsGroupName groupsToCreate dryRun clusterName items errs c).2 !! k
    = store c !! k
    \/ (store (pruneItems CIAdminsGroupName groupsToCreate dryRun clusterName items errs c).2
          !! k = None
        /\ dryRun = false
        /\ exists g, g ∈ items /\ Name g = k
                     /\ shouldDelete groupsToCreate clusterName g = true
                     /\ Name g <> CIAdminsGroupName).
Proof.
  induction items as [|g rest IH]; intros errs c k; simpl; [by left|].
  assert (forall errs' c',
             store c' !! k = store c !! k ->
             store (pruneItems CIAdminsGroupName groupsToCreate dryRun clusterName
                               rest errs' c').2 !! k = store c !! k
             \/ (store (pruneItems CIAdminsGroupName groupsToCreate dryRun clusterName
                                   rest errs' c').2 !! k = None
                 /\ dryRun = false
                 /\ exists g0, g0 ∈ g :: rest /\ Name g0 = k
                               /\ shouldDelete groupsToCreate clusterName g0 = true
                               /\ Name g0 <> CIAdminsGroupName)) as Hsame.
  { intros errs' c' Hc. destruct (IH errs' c' k) as [H|(H & Hd & g0 & Hin & Hrest)].
    - left. by rewrite H.
    - right. split; [done|]. split; [done|]. exists g0. split; [|done].
      by apply list_elem_of_further. }
  destruct (shouldDelete groupsToCreate clusterName g) eqn:Hsd; [|by apply Hsame].
  case_bool_decide as Hadm; [by apply Hsame|].
  destruct dryRun eqn:Hdry; [by apply Hsame|].
  destruct (clientDelete (mkGroup (Name g) None []) c) as [err c'] eqn:Hdel.
  assert (store c' = store c \/ store c' = delete (Name g) (store c)) as Hst.
  { pose proof (clientDelete_store (mkGroup (Name g) None []) c) as H.
    by rewrite Hdel in H. }
  assert (forall errs',
             store (pruneItems CIAdminsGroupName groupsToCreate false clusterName
                               rest errs' c').2 !! k = store c !! k
             \/ (store (pruneItems CIAdminsGroupName groupsToCreate false clusterName
                                   rest errs' c').2 !! k = None
                 /\ false = false
                 /\ exists g0, g0 ∈ g :: rest /\ Name g0 = k
                               /\ shouldDelete groupsToCreate clusterName g0 = true
                               /\ Name g0 <> CIAdminsGroupName)) as Hgo.
  { intros errs'. destruct Hst as [Hst|Hst]; [apply Hsame; by rewrite Hst|].
    destruct (decide (k = Name g)) as [->|Hne].
    - right.
      assert (store c' !! Name g = None) as Hgone by (rewrite Hst; apply lookup_delete_eq).
      destruct (IH errs' c' (Name g)) as [H|(H & _)].
      + rewrite H, Hgone. split; [done|]. split; [done|].
        exists g. split; [apply list_elem_of_here|done].
      + split; [done|]. split; [done|].
        exists g. split; [apply list_elem_of_here|done].
    - apply Hsame. rewrite Hst. by apply lookup_delete_ne. }
  destruct err as [e|]; [destruct (negb (IsNotFound e))|]; apply Hgo.
Qed.

Lemma pruneItems_dry (items : list Group) :
  forall errs c,
    (pruneItems CIAdminsGroupName groupsToCreate true clusterName items errs c).2 = c.
Proof.
  induction items as [|g rest IH]; intros errs c; simpl; [done|].
  destruct (shouldDelete groupsToCreate clusterName g); [|apply IH].
  case_bool_decide; apply IH.
Qed.

Lemma listed_items (c : cluster) (g : Group) :
  well_keyed (store c) ->
  g ∈ base.filter (λ g, matches_label DPTPRequesterLabel toolName g = true)
                  (map_to_list (store c)).*2
  <-> store c !! Name g = Some g /\ matches_label DPTPRequesterLabel toolName g = true.
Proof.
  intros Hk. rewrite list_elem_of_filter, list_elem_of_fmap. split.
  - intros (Hl & [k g'] & -> & Hin). apply elem_of_map_to_list in Hin. simpl.
    by rewrite (Hk _ _ Hin).
  - intros (Hs & Hl). split; [done|]. exists (Name g, g). split; [done|].
    by apply elem_of_map_to_list.
Qed.

(** X6. Whatever the client's calls do, the pruning pass of
    [ensureGroups] on a cluster removes nothing but groups that carry the
    tool's label, are not wanted on this cluster and are not
    [ci-admins]; in particular [ci-admins] is never deleted; and in
    dry-run mode it leaves the stored groups and the log of mutating
    calls as they were. *)
Theorem prune_only_deletes_stale (dryRun : bool) (errs : list error) (c : cluster) :
  well_keyed (store c) ->
  let c' := (prune DPTPRequesterLabel toolName CIAdminsGroupName groupsToCreate
                   dryRun clusterName errs c).2 in
  (forall k,
      store c' !! k = store c !! k
      \/ (store c' !! k = None /\ dryRun = false
          /\ exists g, store c !! k = Some g
                       /\ stale DPTPRequesterLabel toolName CIAdminsGroupName
                                groupsToCreate clusterName g = true))
  /\ store c' !! CIAdminsGroupName = store c !! CIAdminsGroupName
  /\ (dryRun = true -> store c' = store c /\ log c' = log c).
Proof.
  intros Hk c'.
  set (items := base.filter (λ g, matches_label DPTPRequesterLabel toolName g = true)
                            (map_to_list (store c)).*2).
  assert (exists c1, store c1 = store c /\ log c1 = log c
                     /\ (c' = c1
                         \/ c' = (pruneItems CIAdminsGroupName groupsToCreate dryRun clusterName
                                             items errs c1).2))
    as (c1 & Hs1 & Hl1 & Hc').
  { exists (mkCluster (store c) (next_fault c).2 (log c)).
    split; [done|]. split; [done|].
    unfold c', prune, clientList. destruct (next_fault c) as [[e|] fs]; simpl; auto. }
  clearbody c'.
  assert (forall k,
             store c' !! k = store c !! k
             \/ (store c' !! k = None /\ dryRun = false
                 /\ exists g, store c !! k = Some g
                              /\ stale DPTPRequesterLabel toolName CIAdminsGroupName
                                       groupsToCreate clusterName g = true)) as Hall.
  { intros k. destruct Hc' as [->| ->]; [left; by rewrite Hs1|].
    destruct (pruneItems_effect dryRun items errs c1 k)
      as [H|(H & Hd & g & Hin & Hn & Hsd & Hadm)].
    - left. by rewrite H, Hs1.
    - right. split; [done|]. split; [done|].
      apply (listed_items c g Hk) in Hin as [Hst Hl]. exists g. rewrite <- Hn.
      split; [done|]. unfold stale. rewrite Hl, Hsd. simpl.
      by rewrite bool_decide_eq_false_2. }
  split; [done|]. split.
  - destruct (Hall CIAdminsGroupName) as [H|(_ & _ & g & Hg & Hst)]; [done|].
    unfold stale in Hst. rewrite (Hk _ _ Hg) in Hst.
    rewrite bool_decide_eq_true_2 in Hst by done.
    by rewrite andb_false_r in Hst.
  - intros ->. destruct Hc' as [->| ->]; [done|]. by rewrite pruneItems_dry.
Qed.

(** With a client that does not fail on its own, outside dry-run: every
    handed group that should go and is not [ci-admins] is gone, and the
    only errors added are the refusals to delete [ci-admins]. *)
Lemma pruneItems_no_fault (items : list Group) :
  forall errs c,
    faults c = [] ->
    faults (pruneItems CIAdminsGroupName groupsToCreate false clusterName items errs c).2 = []
    /\ (forall g, g ∈ items -> shouldDelete groupsToCreate clusterName g = true ->
                  Name g <> CIAdminsGroupName ->
                  store (pruneItems CIAdminsGroupName groupsToCreate false clusterName
                                    items errs c).2 !! Name g = None)
    /\ (pruneItems CIAdminsGroupName groupsToCreate false clusterName items errs c).1
       = errs ++ map (λ g, ErrMsg ("attempt to delete group " +:+ Name g))
                     (base.filter (λ g, shouldDelete groupsToCreate clusterName g = true
                                        /\ Name g = CIAdminsGroupName) items).
Proof.
  induction items as [|g rest IH]; intros errs c Hf; simpl.
  - split; [done|]. split; [|by rewrite app_nil_r].
    intros g Hg. by apply elem_of_nil in Hg.
  - destruct (shouldDelete groupsToCreate clusterName g) eqn:Hsd.
    + case_bool_decide as Hadm.
      * destruct (IH (errs ++ [ErrMsg ("attempt to delete group " +:+ Name g)]) c Hf)
          as (H1 & H2 & H3).
        split; [done|]. split.
        -- intros g' Hg' Hsd' Hadm'. apply elem_of_cons in Hg' as [->|Hg']; [done|].
           by apply H2.
        -- rewrite H3, filter_cons_True by done. simpl. by rewrite <- app_assoc.
      * destruct (clientDelete (mkGroup (Name g) None []) c) as [err c'] eqn:Hdel.
        assert (faults c' = [] /\ store c' !! Name g = None
                /\ (err = None \/ exists e, err = Some e /\ IsNotFound e = true))
          as (Hf' & Hgone & Herr).
        { unfold clientDelete, next_fault in Hdel. rewrite Hf in Hdel. simpl in Hdel.
          destruct (store c !! Name g) eqn:Hs; simplify_eq; simpl.
          - split; [done|]. split; [apply lookup_delete_eq|by left].
          - split; [done|]. split; [done|]. right. by eexists. }
        assert (pruneItems CIAdminsGroupName groupsToCreate false clusterName rest
                           errs c'
                = match err with
                  | Some e =>
                      if negb (IsNotFound e)
                      then pruneItems CIAdminsGroupName groupsToCreate false clusterName rest
                                      (errs ++ [ErrWrap "failed to delete group" e]) c'
                      else pruneItems CIAdminsGroupName groupsToCreate false clusterName rest
                                      errs c'
                  | None => pruneItems CIAdminsGroupName groupsToCreate false clusterName rest
                                       errs c'
                  end) as <-.
        { destruct Herr as [->|(e & -> & ->)]; done. }
        destruct (IH errs c' Hf') as (H1 & H2 & H3).
        split; [done|]. split.
        -- intros g' Hg' Hsd' Hadm'. apply elem_of_cons in Hg' as [->|Hg']; [|by apply H2].
           destruct (pruneItems_effect false rest errs c' (Name g)) as [H|(H & _)];
             [by rewrite H|done].
        -- rewrite H3, filter_cons_False; [done|]. by intros (_ & ?).
    + destruct (IH errs c Hf) as (H1 & H2 & H3).
      split; [done|]. split.
      * intros g' Hg' Hsd' Hadm'. apply elem_of_cons in Hg' as [->|Hg']; [congruence|].
        by apply H2.
      * rewrite H3, filter_cons_False; [done|]. intros (? & _). congruence.
Qed.

(** X7. With a client that does not fail on its own and outside
    dry-run, the pruning pass leaves on the cluster exactly the groups
    that are not stale (stale: labelled by the tool, not wanted on this
    cluster, not [ci-admins]); it adds no error but one refusal when
    [ci-admins] itself is labelled and not wanted on this cluster. *)
Theorem prune_removes_all_stale (errs : list error) (c : cluster) :
  faults c = [] ->
  well_keyed (store c) ->
  let r := prune DPTPRequesterLabel toolName CIAdminsGroupName groupsToCreate
                 false clusterName errs c in
  (forall k,
      store r.2 !! k
      = match store c !! k with
        | Some g =>
            if stale DPTPRequesterLabel toolName CIAdminsGroupName groupsToCreate
                     clusterName g
            then None else Some g
        | None => None
        end)
  /\ exists new,
      r.1 = errs ++ new
      /\ Forall (λ e, e = ErrMsg ("attempt to delete group " +:+ CIAdminsGroupName)) new
      /\ (new <> []
          <-> exists g, store c !! CIAdminsGroupName = Some g
                        /\ matches_label DPTPRequesterLabel toolName g = true
                        /\ shouldDelete groupsToCreate clusterName g = true).
Proof.
  intros Hf Hk r.
  set (items := base.filter (λ g, matches_label DPTPRequesterLabel toolName g = true)
                            (map_to_list (store c)).*2).
  assert (r = pruneItems CIAdminsGroupName groupsToCreate false clusterName items errs
                         (mkCluster (store c) [] (log c))) as Hr.
  { unfold r, prune, clientList, next_fault. rewrite Hf. done. }
  clearbody r. subst r.
  destruct (pruneItems_no_fault items errs (mkCluster (store c) [] (log c)) eq_refl)
    as (_ & Hgone & Herrs).
  split.
  - intros k.
    destruct (pruneItems_effect false items errs (mkCluster (store c) [] (log c)) k)
      as [H|(H & _ & g & Hin & Hn & Hsd & Hadm)]; simpl in *.
    + rewrite H. destruct (store c !! k) as [g|] eqn:Hs; [|done].
      destruct (stale _ _ _ _ _ g) eqn:Hst; [|done].
      unfold stale in Hst. apply andb_prop in Hst as [Hst Hadm].
      apply andb_prop in Hst as [Hl Hsd].
      assert (Name g = k) as Hn by (by apply Hk).
      rewrite <- H, <- Hn. apply Hgone.
      * apply (listed_items c g Hk). rewrite Hn. done.
      * done.
      * apply negb_true_iff in Hadm. by apply bool_decide_eq_false in Hadm.
    + rewrite H. apply (listed_items c g Hk) in Hin as [Hs Hl].
      rewrite <- Hn, Hs. unfold stale. rewrite Hl, Hsd. simpl.
      by rewrite bool_decide_eq_false_2.
  - eexists. split; [exact Herrs|]. split.
    + apply Forall_forall. intros e He.
      apply list_elem_of_fmap in He as (g & -> & Hg).
      apply list_elem_of_filter in Hg as ((_ & ->) & _). done.
    + split.
      * intros Hne.
        destruct (base.filter _ items) as [|g rest] eqn:Hfl; [done|].
        assert (g ∈ base.filter
                  (λ g, shouldDelete groupsToCreate clusterName g = true
                        /\ Name g = CIAdminsGroupName) items) as Hg.
        { rewrite Hfl. apply list_elem_of_here. }
        apply list_elem_of_filter in Hg as ((Hsd & Hn) & Hin).
        apply (listed_items c g Hk) in Hin as [Hs Hl].
        exists g. by rewrite <- Hn.
      * intros (g & Hs & Hl & Hsd) Hnil.
        assert (g ∈ base.filter
                  (λ g, shouldDelete groupsToCreate clusterName g = true
                        /\ Name g = CIAdminsGroupName) items) as Hg.
        { apply list_elem_of_filter. split; [split; [done|by apply Hk]|].
          apply (listed_items c g Hk). rewrite (Hk _ _ Hs). done. }
        apply map_eq_nil in Hnil. rewrite Hnil in Hg. by apply elem_of_nil in Hg.
Qed.
End PruneFacts.

(** ** More on the closure of [process] *)
Section CreatorObsFacts.
Import Creator CreatorObs.
Variable env : Env.
Variable pushCeiling : Z.

Ltac split_calls :=
  repeat (first
            [ match goal with
              | |- context [bool_decide ?P] => destruct (bool_decide P) eqn:?
              | |- context [FromRepository ?b] => destruct (FromRepository b) eqn:?
              | |- context [filter env ?m] => destruct (filter env m) eqn:?
              end
            | case_match ];
          simpl in *; try discriminate; simplify_eq; try done).

(** An early return does nothing. *)
Lemma process_skipped (clonesDone : Z) (cfg : ReleaseBuildConfiguration) (md : Info) :
  skipped env cfg md ->
  process env pushCeiling clonesDone cfg md = mkOutcome None cfg clonesDone [].
Proof.
  unfold skipped, process.
  intros [->|[->|(bri & -> & [->|[Hv|[[Hb1 Hb2]|Hi]]])]]; simpl; try done.
  - by destruct (filter env md).
  - by destruct (filter env md).
  - destruct (filter env md); simpl; [|done].
    rewrite (bool_decide_eq_false_2 _ Hv). simpl.
    by rewrite orb_true_r.
  - destruct (filter env md); simpl; [|done].
    rewrite (bool_decide_eq_false_2 _ Hb1), (bool_decide_eq_false_2 _ Hb2). simpl.
    by rewrite orb_true_r.
  - destruct (filter env md); simpl; [|done]. rewrite Hi. by case_match.
Qed.

(** X8. A call of the closure leaves no trace (no event at all) exactly
    when it takes one of its early returns; it then returns nil and
    leaves the configuration and the clone counter as they were.  In
    every other case the first thing it does is to read the in-repo
    file. *)
Theorem process_untouched_iff_skipped (clonesDone : Z) (cfg : ReleaseBuildConfiguration)
        (md : Info) :
  (events (process env pushCeiling clonesDone cfg md) = [] <-> skipped env cfg md)
  /\ (skipped env cfg md ->
      process env pushCeiling clonesDone cfg md = mkOutcome None cfg clonesDone [])
  /\ (~ skipped env cfg md ->
      exists rest,
        events (process env pushCeiling clonesDone cfg md)
        = EvGetFile (Org md) (Repo md) (Branch md) :: rest).
Proof.
  pose proof (process_skipped clonesDone cfg md) as Hskip.
  assert (skipped env cfg md
          \/ exists rest,
              events (process env pushCeiling clonesDone cfg md)
              = EvGetFile (Org md) (Repo md) (Branch md) :: rest) as Hcases.
  { unfold process, deferred.
    destruct (filter env md) eqn:Hf; simpl; [|left; by left].
    destruct (BuildRootImage cfg) as [bri|] eqn:Hb; [|left; right; by left].
    destruct (FromRepository bri) eqn:Hfr; simpl.
    { left. right; right. exists bri. split; [done|]. by left. }
    case_bool_decide as Hv; simpl;
      [|left; right; right; exists bri; split; [done|]; right; by left].
    destruct (ImageStreamTagRef bri) as [istr|] eqn:Hi.
    2:{ left; right; right. exists bri. split; [done|]. right; right; by right. }
    destruct (decide (Branch md = "master")) as [Hm|Hm].
    { rewrite (bool_decide_eq_true_2 _ Hm). simpl. right. split_calls; eauto. }
    destruct (decide (Branch md = "main")) as [Hm'|Hm'].
    { rewrite (bool_decide_eq_true_2 _ Hm'). rewrite andb_false_r. right.
      split_calls; eauto. }
    left. right; right. exists bri. split; [done|]. right; right; left. done. }
  split; [|split; [exact Hskip|]].
  - split.
    + intros He. destruct Hcases as [?|(rest & Hr)]; [done|]. by rewrite Hr in He.
    + intros Hs. by rewrite (Hskip Hs).
  - intros Hn. by destruct Hcases.
Qed.

(** X9. Within one call: the deferred cleanup runs exactly when the
    clone succeeded (and then it is the last thing done), whether the
    checkout, the write or the PR creation fail or not; a PR is created
    only after clone, checkout and write of the in-repo file all
    succeeded, and then the call returns what [createPr] returns. *)
Theorem clone_is_always_cleaned (clonesDone : Z) (cfg : ReleaseBuildConfiguration)
        (md : Info) :
  let o := process env pushCeiling clonesDone cfg md in
  count_in is_clean (events o) = count_in is_checkout (events o)
  /\ (count_in is_pr (events o) <= count_in is_checkout (events o))%nat
  /\ (count_in is_checkout (events o) <= count_in is_clone (events o))%nat
  /\ (count_in is_clone (events o) = 1%nat ->
      (count_in is_checkout (events o) = 1%nat
       <-> exists dir, clone env (Org md) (Repo md) = inr dir))
  /\ (count_in is_checkout (events o) = 1%nat ->
      exists pre, events o = pre ++ [EvChdirRoot; EvClean])
  /\ (count_in is_pr (events o) = 1%nat ->
      exists dir data,
        clone env (Org md) (Repo md) = inr dir
        /\ checkout env dir (Branch md) = None
        /\ ioutilWriteFile env (dir +:+ "/" +:+ CIOperatorInrepoConfigFileName) data = None
        /\ events o
           = [EvGetFile (Org md) (Repo md) (Branch md);
              EvClone (Org md) (Repo md);
              EvCheckout (Branch md);
              EvWriteInrepo (dir +:+ "/" +:+ CIOperatorInrepoConfigFileName) data;
              EvCreatePr dir (Org md) (Repo md) (Branch md);
              EvChdirRoot; EvClean]
        /\ ret o = createPr env dir (Org md) (Repo md) (Branch md)).
Proof.
  unfold process, deferred, count_in.
  split_calls; repeat split; simpl; try done; try lia;
    try (intros; simplify_eq; done);
    try (intros _; by eexists);
    try (intros _; eexists; reflexivity);
    try (intros [? ?]; simplify_eq; done);
    try (intros _; by eexists [_; _; _]);
    try (intros _; by eexists [_; _; _; _]);
    try (intros _; by eexists [_; _; _; _; _]);
    try (intros _; eexists _, _; repeat split; done).
Qed.

Lemma process_event_counts (clonesDone : Z) (cfg : ReleaseBuildConfiguration) (md : Info) :
  let o := process env pushCeiling clonesDone cfg md in
  (count_in is_pr (events o) <= count_in is_checkout (events o))%nat
  /\ (count_in is_checkout (events o) <= count_in is_clone (events o))%nat.
Proof.
  unfold process, deferred, count_in.
  split_calls; split; simpl; lia.
Qed.

Lemma run_from_event_counts (inputs : list (ReleaseBuildConfiguration * Info)) :
  forall clonesDone,
    (count_events is_pr (run_from env pushCeiling clonesDone inputs)
     <= count_events is_checkout (run_from env pushCeiling clonesDone inputs))%nat
    /\ (count_events is_checkout (run_from env pushCeiling clonesDone inputs)
        <= count_events is_clone (run_from env pushCeiling clonesDone inputs))%nat.
Proof.
  induction inputs as [|[cfg md] rest IH]; intros cd; simpl; [done|].
  rewrite !count_events_cons.
  destruct (IH (clones_after (process env pushCeiling cd cfg md))) as [H1 H2].
  destruct (process_event_counts cd cfg md) as [H3 H4]. simpl in *. lia.
Qed.

(** X10. With a positive ceiling, a clone that fails still counts
    against it: over any sequence of configurations, the PRs created
    plus the clones that failed (clone attempts not followed by a
    checkout) never exceed [pushCeiling]. *)
Theorem failed_clones_consume_ceiling (inputs : list (ReleaseBuildConfiguration * Info)) :
  (0 < pushCeiling < 2 ^ 63)%Z ->
  let os := run env pushCeiling inputs in
  (count_events is_pr os <= count_events is_checkout os)%nat
  /\ (count_events is_checkout os <= count_events is_clone os)%nat
  /\ (Z.of_nat (count_events is_pr os)
      + (Z.of_nat (count_events is_clone os) - Z.of_nat (count_events is_checkout os))
      <= pushCeiling)%Z.
Proof.
  intros Hc os. unfold os, run.
  destruct (run_from_event_counts inputs 0%Z) as [H1 H2].
  pose proof (run_from_counts env pushCeiling inputs Hc 0%Z ltac:(lia)) as H3.
  split; [done|]. split; [done|]. lia.
Qed.

(** X11. A configuration that has been rewritten in place is skipped
    when it is processed again: after a call on a configuration whose
    in-repo file matched (even when the write failed), a further call on
    the configuration as left behind does nothing. *)
Theorem rewritten_config_is_skipped (clonesDone clonesDone' : Z)
        (cfg : ReleaseBuildConfiguration) (md : Info) :
  already_matches env cfg md = true ->
  let cfg' := cfg_after (process env pushCeiling clonesDone cfg md) in
  BuildRootImage cfg' = Some (mkBRI None true)
  /\ process env pushCeiling clonesDone' cfg' md = mkOutcome None cfg' clonesDone' [].
Proof.
  intros Hm cfg'.
  destruct (process_in_place env pushCeiling clonesDone cfg md Hm) as (_ & _ & _ & Hb & _).
  split; [done|]. apply process_skipped.
  right; right. eexists. split; [exact Hb|]. by left.
Qed.
End CreatorObsFacts.

(** ** What a job's pipeline accounts for *)
Section LoaderObsFacts.
Import Loader LoaderObs.
Variable env : Env.
Variable jobName : string.
Variable N : Z.
Variable ids : list string.

Ltac fields :=
  cbn [pending chans lastDoneUploadingCh semCur currentUploaders slots insertionErrors
       sink ctxDone main slot_goto slot_return slot_exit set_main
       jobRunID readyToUpload doneUploading pc set_pc] in *.

(** X12. The commits of a job are not always in listing order: with at
    least two tokens and three listed runs of which the first and third
    are ready and the second is absent or unfinished, there is a
    schedule, without any cancellation, that runs the pipeline to its
    return with the rows of the third run in the sink before those of the
    first.  The slot of the skipped run closes its gate without waiting
    for its predecessor. *)
Theorem skipped_run_lets_successor_overtake (a b c : string) (jobRunA jobRunC : JobRunInfo) :
  (2 <= N)%Z ->
  readJobRunFromGCS env jobName a = inr (Some jobRunA) ->
  readJobRunFromGCS env jobName b = inr None ->
  readJobRunFromGCS env jobName c = inr (Some jobRunC) ->
  exists s r,
    run env jobName N overtaking_schedule (init [a; b; c]) = Some s
    /\ main s = MReturned r
    /\ ctxDone s = false
    /\ sink s = (uploadJobRun env jobRunC).2 ++ (uploadJobRun env jobRunA).2.
Proof.
  intros HN Ha Hb Hc. unfold overtaking_schedule, init.
  destruct (uploadJobRun env jobRunC) as [errC rowsC] eqn:HuC.
  destruct (uploadJobRun env jobRunA) as [errA rowsA] eqn:HuA.
  destruct errC as [eC|], errA as [eA|]; simpl;
    repeat ((unfold step_main at 1 || unfold step_slot at 1);
            unfold slot_return, slot_goto, slot_exit, set_pc, set_main; simpl;
            rewrite ?Ha, ?Hb, ?Hc, ?HuA, ?HuC, ?bool_decide_eq_true_2 by lia; simpl);
    eexists _, _; (split; [reflexivity|]); simpl; done.
Qed.




(** A send of the lister changes the collected errors and nothing
    else. *)
Lemma lister_send_spec (e : error) (s s' : state) :
  lister_send e s = Some s' ->
  (forall r, main s <> MReturned r)
  /\ s' = mkState (pending s) (chans s) (lastDoneUploadingCh s) (semCur s)
                  (currentUploaders s) (slots s) (insertionErrors s ++ [e])
                  (sink s) (ctxDone s) (main s).
Proof.
  unfold lister_send. intros H.
  destruct (main s) eqn:Hm; simplify_eq; split; done.
Qed.

Lemma Inv_lister (e : error) (s s' : state) :
  Inv env jobName N ids s -> lister_send e s = Some s' -> Inv env jobName N ids s'.
Proof.
  intros HI Hex. apply lister_send_spec in Hex as [Hm ->].
  destruct HI. split; fields; try done.
  intros r Hr. by destruct (Hm r).
Qed.

Lemma full_Inv_step (a : full_action) (s s' : state) :
  Inv env jobName N ids s -> full_exec env jobName N a s = Some s' ->
  Inv env jobName N ids s'.
Proof.
  destruct a as [a|e]; simpl; [apply loader_Inv_step|apply Inv_lister].
Qed.








Lemma ReturnShape_step (a : action) (s s' : state) :
  Inv env jobName N ids s ->
  ReturnShape s ->
  exec env jobName N a s = Some s' ->
  ReturnShape s'.
Proof.
  intros HI HS Hex r Hr. destruct a as [| | |k|k]; simpl in Hex.
  - unfold step_main in Hex.
    destruct (main s) as [|jr| |r0] eqn:Hm; [| | |done].
    + by destruct (pending s); unfold newJobRunBigQueryLoaderOptions in Hex;
        simplify_eq; fields.
    + by case_bool_decide; simplify_eq; fields.
    + destruct (currentUploaders s) eqn:Hwg; simplify_eq. fields. simplify_eq.
      right. split; [by apply (inv_wait _ _ _ _ _ HI)|]. split; [done|].
      intros k sl Hk.
      pose proof (inv_wg _ _ _ _ _ HI) as Hw. rewrite Hwg in Hw.
      pose proof (count_slots_zero active _ (eq_sym Hw) k sl Hk) as Ha.
      destruct (pc sl) eqn:Hpc; try done.
      destruct (inv_created _ _ _ _ _ HI k sl Hk Hpc) as [_ F]. by rewrite Hm in F.
  - unfold step_acquire_fail in Hex.
    destruct (main s); try done. destruct (ctxDone s) eqn:Hc; simplify_eq.
    fields. simplify_eq. by left.
  - unfold step_cancel in Hex. destruct (ctxDone s) eqn:Hc; simplify_eq. fields.
    destruct (HS r Hr) as [[-> _]|?]; [by left|by right].
  - assert (main s' = main s /\ ctxDone s' = ctxDone s) as [Hm Hc].
    { unfold step_slot in Hex. repeat case_match; simplify_eq; done. }
    rewrite Hm in Hr. destruct (HS r Hr) as [[-> Hd]|(_ & _ & Hall)].
    + left. by rewrite Hc.
    + unfold step_slot in Hex.
      destruct (slots s !! k) as [sl|] eqn:Hk; [|done].
      by rewrite (Hall k sl Hk) in Hex.
  - assert (main s' = main s /\ ctxDone s' = ctxDone s) as [Hm Hc].
    { unfold step_slot_ctx_done in Hex. repeat case_match; simplify_eq; done. }
    rewrite Hm in Hr. destruct (HS r Hr) as [[-> Hd]|(_ & _ & Hall)].
    + left. by rewrite Hc.
    + unfold step_slot_ctx_done in Hex.
      destruct (slots s !! k) as [sl|] eqn:Hk; [|done].
      by rewrite (Hall k sl Hk) in Hex.
Qed.

Lemma ReturnShape_full_run (sched : list full_action) :
  forall s0 s1,
    Inv env jobName N ids s0 -> ReturnShape s0 ->
    full_run env jobName N sched s0 = Some s1 ->
    Inv env jobName N ids s1 /\ ReturnShape s1.
Proof.
  induction sched as [|a sched IH]; intros s0 s1 HI HS Hrun; simpl in Hrun.
  - by simplify_eq.
  - destruct (full_exec env jobName N a s0) as [s2|] eqn:Hex; [|done].
    apply (IH s2 s1); try done; [by eapply full_Inv_step|].
    destruct a as [a|e]; cbn [full_exec] in Hex; [by eapply ReturnShape_step|].
    apply lister_send_spec in Hex as [Hm ->].
    intros r Hr. fields. by destruct (Hm r).
Qed.
End LoaderObsFacts.

(** ** The whole of a job's [Run] *)
Section LoaderRunFacts.
Import Loader LoaderObs.
Variable env : Env.
Variable jobName : string.
Variable N : Z.


(** X14. [jobLoaderOptions.Run] returns in one of four ways and no
    other: with the error of the lookup of the latest recorded run, or
    with the error of the listing, in both cases before anything is
    started; with the context's error, when an [Acquire] was cancelled
    (and then without waiting for the slots it started nor reporting the
    errors collected so far); or with the aggregate of the collected
    errors, and then only after the listing is exhausted, one slot was
    started per listed run and every slot has exited.  A cancellation
    that does not hit an [Acquire] never makes it return early. *)
Theorem loader_return_shape (sched : list full_action) (o : full_outcome)
        (r : option error) :
  Run_full env jobName N sched = Some o ->
  Run_returned o = Some r ->
  (exists err,
      o = ReturnedEarly err /\ r = Some err /\ sched = []
      /\ (getLastJobRunWithDataFn env jobName = inl err
          \/ exists lastJobRun,
              getLastJobRunWithDataFn env jobName = inr lastJobRun
              /\ ListJobRunNamesOlderThanFourHours
                   env jobName (startingJobRunID env lastJobRun) = inl err))
  \/ (exists s lastJobRun listed,
        o = InLoop s
        /\ getLastJobRunWithDataFn env jobName = inr lastJobRun
        /\ ListJobRunNamesOlderThanFourHours
             env jobName (startingJobRunID env lastJobRun) = inr listed
        /\ ((r = Some ErrCanceled /\ ctxDone s = true)
            \/ (pending s = [] /\ r = NewAggregate (insertionErrors s)
                /\ (forall k sl, slots s !! k = Some sl -> pc sl = SExited)
                /\ map jobRunID (slots s) = listed))).
Proof.
  intros Hfull Hr. unfold Run_full, Run_start in Hfull.
  destruct (getLastJobRunWithDataFn env jobName) as [err|lastJobRun] eqn:Hlast.
  { left. destruct sched; simplify_eq. cbn in Hr. simplify_eq.
    exists err. split; [done|]. split; [done|]. split; [done|]. by left. }
  destruct (ListJobRunNamesOlderThanFourHours env jobName
              (startingJobRunID env lastJobRun)) as [err|listed] eqn:Hlist.
  { left. destruct sched; simplify_eq. cbn in Hr. simplify_eq.
    exists err. split; [done|]. split; [done|]. split; [done|]. right. by eexists. }
  right.
  destruct (full_run env jobName N sched (init listed)) as [s|] eqn:Hrun;
    cbn in Hfull; [|done].
  injection Hfull as <-. cbn in Hr.
  destruct (main s) as [| | |r0] eqn:Hm; try done. injection Hr as ->.
  exists s, lastJobRun, listed. split; [done|]. split; [done|]. split; [done|].
  destruct (ReturnShape_full_run env jobName N listed sched (init listed) s
              (loader_Inv_init env jobName N listed) ltac:(by intros ? ?) Hrun)
    as [HI HS].
  destruct (HS r Hm) as [?|(Hp & Hagg & Hall)]; [by left|].
  right. repeat split; try done.
  rewrite <- (inv_ids _ _ _ _ _ HI), Hp, app_nil_r. done.
Qed.
End LoaderRunFacts.

(** ** Which jobs the pool loads *)
Section PoolObsFacts.
Import Pool.
Variable env : Env.
Variable jobs : list JobRow.

Lemma pool_only_collected_step (a : action) (s s' : state) :
  (forall j, j ∈ jobChan s -> j ∈ jobs) ->
  (forall w job, workers s !! w = Some (WRunning job) ->
                 job ∈ jobs /\ shouldCollectedDataForJobFn env job = true) ->
  (forall w err, workers s !! w = Some (WSend err) ->
                 exists job, job ∈ jobs /\ shouldCollectedDataForJobFn env job = true
                             /\ jobLoaderRun env (newJobBigQueryLoaderOptions job) = Some err) ->
  exec env a s = Some s' ->
  (forall j, j ∈ jobChan s' -> j ∈ jobs)
  /\ (forall w job, workers s' !! w = Some (WRunning job) ->
                    job ∈ jobs /\ shouldCollectedDataForJobFn env job = true)
  /\ (forall w err, workers s' !! w = Some (WSend err) ->
                    exists job, job ∈ jobs /\ shouldCollectedDataForJobFn env job = true
                                /\ jobLoaderRun env (newJobBigQueryLoaderOptions job)
                                   = Some err).
Proof.
  intros Hq Hrun Hsend Hex. destruct a as [w|]; simpl in Hex.
  - unfold step_worker in Hex.
    destruct (workers s !! w) as [x|] eqn:Hw; [|done].
    pose proof (lookup_lt_Some _ _ _ Hw) as Hlt.
    assert (forall y,
               (forall job, y = WRunning job ->
                            job ∈ jobs /\ shouldCollectedDataForJobFn env job = true) ->
               (forall err, y = WSend err ->
                            exists job, job ∈ jobs
                                        /\ shouldCollectedDataForJobFn env job = true
                                        /\ jobLoaderRun env (newJobBigQueryLoaderOptions job)
                                           = Some err) ->
               (forall w' job, <[w := y]> (workers s) !! w' = Some (WRunning job) ->
                               job ∈ jobs /\ shouldCollectedDataForJobFn env job = true)
               /\ (forall w' err, <[w := y]> (workers s) !! w' = Some (WSend err) ->
                                  exists job, job ∈ jobs
                                              /\ shouldCollectedDataForJobFn env job = true
                                              /\ jobLoaderRun env
                                                   (newJobBigQueryLoaderOptions job)
                                                 = Some err)) as Hins.
    { intros y Hy1 Hy2. split; intros w' z Hl;
        (destruct (decide (w = w')) as [<-|Hne];
         [ rewrite list_lookup_insert_eq in Hl by done; simplify_eq; eauto
         | rewrite list_lookup_insert_ne in Hl by done; eauto ]). }
    destruct x as [|job|err|]; [| | |done].
    + destruct (jobChan s) as [|job rest] eqn:Hjc; simplify_eq; simpl.
      * destruct (Hins WDone ltac:(done) ltac:(done)) as [H1 H2].
        split; [|done]. intros j Hj. by apply elem_of_nil in Hj.
      * assert (forall j, j ∈ rest -> j ∈ jobs) as Hrest.
        { intros j Hj. apply Hq. by apply list_elem_of_further. }
        destruct (shouldCollectedDataForJobFn env job) eqn:Hsc; simpl in Hex; simplify_eq;
          simpl; [|done].
        assert (forall job', WRunning job = WRunning job' ->
                             job' ∈ jobs /\ shouldCollectedDataForJobFn env job' = true)
          as Hy.
        { intros job' [= <-]. split; [|done]. apply Hq, list_elem_of_here. }
        by destruct (Hins (WRunning job) Hy ltac:(done)) as [H1 H2].
    + destruct (Hrun w job Hw) as [Hin Hsc].
      destruct (jobLoaderRun env (newJobBigQueryLoaderOptions job)) as [err|] eqn:Hl;
        simplify_eq; simpl.
      * assert (forall err', WSend err = WSend err' ->
                             exists job, job ∈ jobs
                                         /\ shouldCollectedDataForJobFn env job = true
                                         /\ jobLoaderRun env (newJobBigQueryLoaderOptions job)
                                            = Some err') as Hy.
        { intros err' [= <-]. by exists job. }
        by destruct (Hins (WSend err) ltac:(done) Hy) as [H1 H2].
      * by destruct (Hins WRange ltac:(done) ltac:(done)) as [H1 H2].
    + case_bool_decide; simplify_eq; simpl.
      by destruct (Hins WRange ltac:(done) ltac:(done)) as [H1 H2].
  - unfold step_main in Hex. repeat case_match; simplify_eq; done.
Qed.

(** X15. The pool never runs the loader of a job that
    [shouldCollectedDataForJobFn] rejects, and never of a job that was
    not listed: in every reachable state each worker that is inside
    [jobLoader.Run] is there for a listed job that is to be collected,
    and each error on its way to [errChan] is the error of such a job. *)
Theorem pool_loads_only_collected_jobs (sched : list action) (s : state) :
  run env sched (init jobs) = Some s ->
  (forall w job, workers s !! w = Some (WRunning job) ->
                 job ∈ jobs /\ shouldCollectedDataForJobFn env job = true)
  /\ (forall w err, workers s !! w = Some (WSend err) ->
                    exists job, job ∈ jobs /\ shouldCollectedDataForJobFn env job = true
                                /\ jobLoaderRun env (newJobBigQueryLoaderOptions job)
                                   = Some err).
Proof.
  intros Hrun.
  assert (forall sched s0 s1,
             (forall j, j ∈ jobChan s0 -> j ∈ jobs) ->
             (forall w job, workers s0 !! w = Some (WRunning job) ->
                            job ∈ jobs /\ shouldCollectedDataForJobFn env job = true) ->
             (forall w err, workers s0 !! w = Some (WSend err) ->
                            exists job, job ∈ jobs
                                        /\ shouldCollectedDataForJobFn env job = true
                                        /\ jobLoaderRun env (newJobBigQueryLoaderOptions job)
                                           = Some err) ->
             run env sched s0 = Some s1 ->
             (forall w job, workers s1 !! w = Some (WRunning job) ->
                            job ∈ jobs /\ shouldCollectedDataForJobFn env job = true)
             /\ (forall w err, workers s1 !! w = Some (WSend err) ->
                               exists job, job ∈ jobs
                                           /\ shouldCollectedDataForJobFn env job = true
                                           /\ jobLoaderRun env
                                                (newJobBigQueryLoaderOptions job)
                                              = Some err)) as Hind.
  { clear. induction sched as [|a sched IH]; intros s0 s1 H1 H2 H3 Hrun; simpl in Hrun.
    - by simplify_eq.
    - destruct (exec env a s0) as [s2|] eqn:Hex; [|done].
      destruct (pool_only_collected_step a s0 s2 H1 H2 H3 Hex) as (? & ? & ?).
      by apply (IH s2 s1). }
  apply (Hind sched (init jobs) s); try done.
  - intros w job Hw. unfold init in Hw. cbn [workers] in Hw.
    apply lookup_replicate in Hw as [? _]. discriminate.
  - intros w err Hw. unfold init in Hw. cbn [workers] in Hw.
    apply lookup_replicate in Hw as [? _]. discriminate.
Qed.
End PoolObsFacts.

(** ** The comparison of historical data *)
Section AnalyzerFacts.
Import Analyzer.
Variable getDurationFromString : string -> Z.
Variable leeway : Z.
Variable dataType : string.


Lemma wrap64_small (z : Z) : (- 2 ^ 63 <= z < 2 ^ 63)%Z -> wrap64 z = z.
Proof.
intros H. unfold wrap64.
rewrite Z.mod_small by lia. lia.
Qed.

Lemma count_where_cons {A : Type} (f : A -> bool) (x : A) (l : list A) :
  count_where f (x :: l) = ((if f x then 1 else 0) + count_where f l)%nat.
Proof.
unfold count_where.
destruct (f x) eqn:E.
- rewrite filter_cons_True by done. reflexivity.
- rewrite filter_cons_False by (rewrite E; discriminate). reflexivity.
Qed.

Lemma count_where_le {A : Type} (f : A -> bool) (l : list A) :
  (count_where f l <= length l)%nat.
Proof. unfold count_where. apply length_filter. Qed.

Lemma count_where_perm {A : Type} (f : A -> bool) (l l' : list A) :
  l ≡ₚ l' -> count_where f l = count_where f l'.
Proof. intros H. unfold count_where. by rewrite H. Qed.

Lemma count_where_pos {A : Type} (f : A -> bool) (l : list A) :
  (0 < count_where f l)%nat <-> exists x, x ∈ l /\ f x = true.
Proof.
unfold count_where. split.
- intros H. destruct (base.filter (fun x => f x = true) l) as [|x t] eqn:E.
  + simpl in H. lia.
  + exists x.
    assert (Hin : x ∈ base.filter (fun x => f x = true) l)
      by (rewrite E; apply list_elem_of_here).
    apply list_elem_of_filter in Hin. tauto.
- intros (x & Hx & Hf).
  assert (Hin : x ∈ base.filter (fun x => f x = true) l)
    by (apply list_elem_of_filter; done).
  destruct (base.filter (fun x => f x = true) l); [by apply elem_of_nil in Hin|].
  simpl. lia.
Qed.

Lemma added_spec cur release entry :
  added cur release entry = true <-> is_added cur release entry.
Proof.
unfold added, is_added. rewrite andb_true_iff, bool_decide_eq_true.
destruct (cur !! entry.1); split; intros [? ?]; split; done.
Qed.

Lemma increased_spec cur release entry :
  increased getDurationFromString leeway cur release entry = true <-> is_increase getDurationFromString leeway cur release entry.
Proof.
unfold increased, is_increase. rewrite andb_true_iff, bool_decide_eq_true.
destruct (cur !! entry.1) as [old|].
- rewrite !andb_true_iff, !bool_decide_eq_true, negb_true_iff, bool_decide_eq_false.
  split.
  + intros (? & (? & ?) & ?). split; [done|]. exists old. done.
  + intros (? & old' & [= <-] & ? & ? & ?). done.
- split; [intros [_ [=]]|intros (_ & ? & [=] & _)].
Qed.

Lemma decreased_spec cur release entry :
  decreased getDurationFromString cur release entry = true <-> is_decrease getDurationFromString cur release entry.
Proof.
unfold decreased, is_decrease. rewrite andb_true_iff, bool_decide_eq_true.
destruct (cur !! entry.1) as [old|].
- rewrite bool_decide_eq_true. split.
  + intros (? & ?). split; [done|]. exists old. done.
  + intros (? & old' & [= <-] & ?). done.
- split; [intros [_ [=]]|intros (_ & ? & [=] & _)].
Qed.

(** The classes exclude each other. *)
Lemma classes_exclusive cur release entry :
  ((if increased getDurationFromString leeway cur release entry then 1 else 0)
   + (if decreased getDurationFromString cur release entry then 1 else 0)
   + (if added cur release entry then 1 else 0)
   <= if bool_decide (in_release release entry) then 1 else 0)%nat.
Proof.
unfold increased, decreased, added, in_release.
destruct (bool_decide (Release entry.2 = release)); simpl; [|lia].
destruct (cur !! entry.1) as [old|]; simpl; [|lia].
repeat case_bool_decide; simpl; lia.
Qed.


(** One iteration of the first loop, by classes. *)
Lemma visit_new_step cur release a entry :
  visit_new getDurationFromString leeway dataType cur release a entry
  = mkAcc (if increased getDurationFromString leeway cur release entry
           then wrap64 (acc_increase a + 1) else acc_increase a)
          (if decreased getDurationFromString cur release entry
           then wrap64 (acc_decrease a + 1) else acc_decrease a)
          (acc_results a
             ++ if bool_decide (in_release release entry)
                then [report getDurationFromString leeway dataType cur entry] else [])
          (acc_added a ++ if added cur release entry then [entry.1] else []).
Proof.
destruct entry as [key new], a as [i d rs ad].
unfold visit_new, report, increased, decreased, added, in_release. simpl.
destruct (decide (Release new = release)) as [Hr|Hr].
- subst release. rewrite !bool_decide_eq_true_2 by done. simpl.
  destruct (cur !! key) as [old|]; simpl; [|reflexivity].
  rewrite ?app_nil_r. reflexivity.
- rewrite !(bool_decide_eq_false_2 _ Hr). simpl.
  rewrite ?app_nil_r. reflexivity.
Qed.

Lemma visit_new_fold cur release l : forall a,
  let a' := foldl (visit_new getDurationFromString leeway dataType cur release) a l in
  acc_results a'
  = acc_results a
      ++ (report getDurationFromString leeway dataType cur
            <$> base.filter (in_release release) l)
  /\ acc_added a'
     = acc_added a ++ (base.filter (fun e => added cur release e = true) l).*1
  /\ ((0 <= acc_increase a)%Z ->
      (acc_increase a + Z.of_nat (length l) < 2 ^ 63)%Z ->
      acc_increase a'
      = (acc_increase a
         + Z.of_nat (count_where (increased getDurationFromString leeway cur release) l))%Z)
  /\ ((0 <= acc_decrease a)%Z ->
      (acc_decrease a + Z.of_nat (length l) < 2 ^ 63)%Z ->
      acc_decrease a'
      = (acc_decrease a
         + Z.of_nat (count_where (decreased getDurationFromString cur release) l))%Z).
Proof.
induction l as [|entry l IH]; intros a; cbn [foldl].
- cbn. rewrite !app_nil_r. repeat split; intros; unfold count_where; simpl; lia.
- specialize (IH (visit_new getDurationFromString leeway dataType cur release a entry)).
  cbv zeta in IH. destruct IH as (Hr & Ha & Hi & Hd).
  rewrite Hr, Ha. rewrite visit_new_step in Hi, Hd |- *. cbn [acc_results acc_added acc_increase acc_decrease] in *.
  repeat split.
  + rewrite <- app_assoc. f_equal.
    case_bool_decide as Hin.
    * rewrite filter_cons_True by done. reflexivity.
    * rewrite filter_cons_False by done. reflexivity.
  + rewrite <- app_assoc. f_equal.
    destruct (added cur release entry) eqn:E.
    * rewrite filter_cons_True by done. reflexivity.
    * rewrite filter_cons_False by (rewrite E; discriminate). reflexivity.
  + intros H0 Hlt. rewrite count_where_cons. cbn [length] in Hlt.
    destruct (increased getDurationFromString leeway cur release entry).
    * rewrite (wrap64_small (acc_increase a + 1)) in Hi |- * by lia. rewrite Hi by lia. lia.
    * rewrite Hi by lia. lia.
  + intros H0 Hlt. rewrite count_where_cons. cbn [length] in Hlt.
    destruct (decreased getDurationFromString cur release entry).
    * rewrite (wrap64_small (acc_decrease a + 1)) in Hd |- * by lia. rewrite Hd by lia. lia.
    * rewrite Hd by lia. lia.
Qed.

Lemma visit_current_fold newData l : forall missing,
  foldl (visit_current newData) missing l
  = missing
      ++ ((fun e : string * HistoricalDataRow => mkParsed e.2 0 0 0 "" true)
            <$> base.filter (fun e : string * HistoricalDataRow => newData !! e.1 = None) l).
Proof.
induction l as [|[key old] l IH]; intros missing; cbn [foldl].
- cbn. by rewrite app_nil_r.
- rewrite IH. unfold visit_current.
  destruct (newData !! key) as [x|] eqn:E.
  + rewrite filter_cons_False by (simpl; rewrite E; discriminate). reflexivity.
  + rewrite filter_cons_True by done. rewrite <- app_assoc. reflexivity.
Qed.

(** Sums of the class indicators. *)
Lemma classes_count cur release l :
  (count_where (increased getDurationFromString leeway cur release) l
   + count_where (decreased getDurationFromString cur release) l
   + count_where (added cur release) l
   <= length (base.filter (in_release release) l))%nat.
Proof.
induction l as [|entry l IH]; [unfold count_where; simpl; lia|].
rewrite !count_where_cons.
pose proof (classes_exclusive cur release entry) as Hx.
case_bool_decide as Hin.
- rewrite filter_cons_True by done. cbn [length]. lia.
- rewrite filter_cons_False by done. lia.
Qed.


(** X16. Every row of the new data that belongs to the release is
    reported, once and in visiting order, and no other row is; a reported
    row carries the data type of the options, its parsed durations, and a
    time difference that is either absent (zero) or above the leeway. *)
Theorem compare_reports_release_rows
        (newData currentData : gmap string HistoricalDataRow)
        (newOrder currentOrder : list (string * HistoricalDataRow))
        (release : string) (newReleaseEvent : bool) :
  let r := compareAndUpdate getDurationFromString leeway dataType
             newData currentData newOrder currentOrder release newReleaseEvent in
  Row <$> jobs r = (base.filter (in_release release) newOrder).*2
  /\ Forall (fun d =>
               Release (Row d) = release
               /\ Type_ d = dataType
               /\ NoPrevData d = false
               /\ DurationP99 d = getDurationFromString (P99 (Row d))
               /\ DurationP95 d = getDurationFromString (P95 (Row d))
               /\ (TimeDiff d = 0 \/ leeway < TimeDiff d)%Z)
            (jobs r).
Proof.
intros r. subst r. unfold compareAndUpdate. cbn [jobs].
set (cur := if newReleaseEvent then ∅ else currentData).
destruct (visit_new_fold cur release newOrder (mkAcc 0 0 [] [])) as (Hr & _).
cbn [acc_results app] in Hr. rewrite Hr. split.
- rewrite <- list_fmap_compose. reflexivity.
- apply Forall_fmap, Forall_forall. intros entry Hin.
  apply list_elem_of_filter in Hin as [Hrel _]. unfold in_release in Hrel.
  unfold report. cbn. repeat split; try done.
  destruct (increased getDurationFromString leeway cur (Release entry.2) entry) eqn:E;
    [|by left].
  right. unfold increased in E.
  destruct (cur !! entry.1) as [old|]; [|by rewrite andb_false_r in E].
  rewrite !andb_true_iff, !bool_decide_eq_true in E. tauto.
Qed.

(** X17. As long as the new data has fewer than 2^63 entries, the two
    counters are exact tallies that exclude each other and the added
    jobs: a reported row is counted as an increase, as a decrease, as
    added, or not at all, never twice. *)
Theorem compare_counts_bounded
        (newData currentData : gmap string HistoricalDataRow)
        (newOrder currentOrder : list (string * HistoricalDataRow))
        (release : string) (newReleaseEvent : bool) :
  (Z.of_nat (length newOrder) < 2 ^ 63)%Z ->
  let cur := if newReleaseEvent then ∅ else currentData in
  let r := compareAndUpdate getDurationFromString leeway dataType
             newData currentData newOrder currentOrder release newReleaseEvent in
  increaseCount r
  = Z.of_nat (count_where (increased getDurationFromString leeway cur release) newOrder)
  /\ decreaseCount r
     = Z.of_nat (count_where (decreased getDurationFromString cur release) newOrder)
  /\ (increaseCount r + decreaseCount r + Z.of_nat (length (addedJobs r))
      <= Z.of_nat (length (jobs r)))%Z
  /\ (length (jobs r) <= length newOrder)%nat.
Proof.
intros Hlen cur r. subst r. unfold compareAndUpdate. fold cur.
cbn [jobs increaseCount decreaseCount addedJobs].
destruct (visit_new_fold cur release newOrder (mkAcc 0 0 [] [])) as (Hr & Ha & Hi & Hd).
cbn [acc_results acc_added acc_increase acc_decrease app] in Hr, Ha, Hi, Hd.
rewrite Hr, Ha, Hi, Hd by lia.
rewrite !length_fmap.
pose proof (classes_count cur release newOrder) as Hc.
pose proof (length_filter (in_release release) newOrder) as Hf.
unfold count_where in Hc at 3.
repeat split; lia.
Qed.

(** X18. A review is asked for ([increaseCount > 0]) exactly when the
    new data holds a row of the release whose P99 lies above a non-zero
    previous P99 by more than the leeway. *)
Theorem review_needed_iff_regression
        (newData currentData : gmap string HistoricalDataRow)
        (newOrder currentOrder : list (string * HistoricalDataRow))
        (release : string) (newReleaseEvent : bool) :
  (Z.of_nat (length newOrder) < 2 ^ 63)%Z ->
  let cur := if newReleaseEvent then ∅ else currentData in
  let r := compareAndUpdate getDurationFromString leeway dataType
             newData currentData newOrder currentOrder release newReleaseEvent in
  (0 < increaseCount r)%Z
  <-> exists entry, entry ∈ newOrder
                    /\ is_increase getDurationFromString leeway cur release entry.
Proof.
intros Hlen cur r. subst r. unfold compareAndUpdate. fold cur. cbn [increaseCount].
destruct (visit_new_fold cur release newOrder (mkAcc 0 0 [] [])) as (_ & _ & Hi & _).
cbn [acc_increase] in Hi. rewrite Hi by lia.
rewrite Z.add_0_l.
assert (Hpos := count_where_pos (increased getDurationFromString leeway cur release) newOrder).
split.
- intros H. destruct (proj1 Hpos ltac:(lia)) as (e & He & Hf).
  exists e. split; [done|]. by apply increased_spec.
- intros (e & He & Hf). apply increased_spec in Hf.
  assert (0 < count_where (increased getDurationFromString leeway cur release) newOrder)%nat
    by (apply Hpos; eauto).
  lia.
Qed.

(** X19. In a new release event the current data plays no part: nothing
    is counted as increased or decreased, no job is reported missing,
    every job of the release is reported as added, and no reported row
    carries a time difference. *)
Theorem new_release_event_ignores_current
        (newData currentData : gmap string HistoricalDataRow)
        (newOrder currentOrder : list (string * HistoricalDataRow))
        (release : string) :
  let r := compareAndUpdate getDurationFromString leeway dataType
             newData currentData newOrder currentOrder release true in
  increaseCount r = 0%Z
  /\ decreaseCount r = 0%Z
  /\ missingJobs r = []
  /\ addedJobs r = (base.filter (in_release release) newOrder).*1
  /\ Forall (fun d => TimeDiff d = 0%Z) (jobs r)
  /\ r = compareAndUpdate getDurationFromString leeway dataType
           newData ∅ newOrder [] release false.
Proof.
intros r. subst r. unfold compareAndUpdate.
cbn [jobs increaseCount decreaseCount addedJobs missingJobs foldl].
assert (Hfold : forall l a,
  let a' := foldl (visit_new getDurationFromString leeway dataType ∅ release) a l in
  acc_increase a' = acc_increase a /\ acc_decrease a' = acc_decrease a
  /\ acc_added a' = acc_added a ++ (base.filter (in_release release) l).*1
  /\ (Forall (fun d => TimeDiff d = 0%Z) (acc_results a) ->
      Forall (fun d => TimeDiff d = 0%Z) (acc_results a'))).
{ induction l as [|entry l IH]; intros a; cbn [foldl].
  - cbn. rewrite app_nil_r. done.
  - specialize (IH (visit_new getDurationFromString leeway dataType ∅ release a entry)).
    cbv zeta in IH. destruct IH as (Hi & Hd & Ha & Ht).
    rewrite Hi, Hd, Ha, visit_new_step in *.
    unfold increased, decreased, added, in_release in *.
    rewrite lookup_empty in *. rewrite !andb_false_r, andb_true_r in *.
    cbn [acc_results acc_added acc_increase acc_decrease] in *.
    repeat split.
    + rewrite <- app_assoc. f_equal.
      case_bool_decide.
      * rewrite filter_cons_True by done. reflexivity.
      * rewrite filter_cons_False by done. reflexivity.
    + intros Hall. apply Ht. apply Forall_app. split; [done|].
      case_bool_decide; [|constructor].
      repeat constructor. unfold report, increased. cbn.
      rewrite lookup_empty, andb_false_r. reflexivity. }
destruct (Hfold newOrder (mkAcc 0 0 [] [])) as (Hi & Hd & Ha & Ht).
cbn [acc_results acc_added acc_increase acc_decrease app] in *.
repeat split; auto.
Qed.

(** X20. The order in which Go happens to range over the two maps does
    not matter: two visiting orders of the same entries give the same
    counters and, up to order, the same added, reported and missing
    jobs. *)
Theorem compare_order_independent
        (newData currentData : gmap string HistoricalDataRow)
        (newOrder newOrder' currentOrder currentOrder' : list (string * HistoricalDataRow))
        (release : string) (newReleaseEvent : bool) :
  newOrder ≡ₚ newOrder' ->
  currentOrder ≡ₚ currentOrder' ->
  (Z.of_nat (length newOrder) < 2 ^ 63)%Z ->
  let r := compareAndUpdate getDurationFromString leeway dataType
             newData currentData newOrder currentOrder release newReleaseEvent in
  let r' := compareAndUpdate getDurationFromString leeway dataType
              newData currentData newOrder' currentOrder' release newReleaseEvent in
  increaseCount r = increaseCount r'
  /\ decreaseCount r = decreaseCount r'
  /\ addedJobs r ≡ₚ addedJobs r'
  /\ jobs r ≡ₚ jobs r'
  /\ missingJobs r ≡ₚ missingJobs r'.
Proof.
intros Hn Hc Hlen r r'. subst r r'. unfold compareAndUpdate.
cbn [jobs increaseCount decreaseCount addedJobs missingJobs].
set (cur := if newReleaseEvent then ∅ else currentData).
assert (Hlen' : (Z.of_nat (length newOrder') < 2 ^ 63)%Z) by (by rewrite <- Hn).
destruct (visit_new_fold cur release newOrder (mkAcc 0 0 [] [])) as (Hr & Ha & Hi & Hd).
destruct (visit_new_fold cur release newOrder' (mkAcc 0 0 [] [])) as (Hr' & Ha' & Hi' & Hd').
cbn [acc_results acc_added acc_increase acc_decrease app] in *.
rewrite Hr, Ha, Hi, Hd, Hr', Ha', Hi', Hd' by lia.
rewrite !visit_current_fold. cbn [app].
rewrite (count_where_perm _ _ _ Hn), (count_where_perm _ _ _ Hn).
repeat split.
- by rewrite Hn.
- by rewrite Hn.
- destruct newReleaseEvent; [done|]. by rewrite Hc.
Qed.


(** Counting over the keys of two duplicate-free listings. *)
Lemma length_split_filter {A : Type} (P : A -> Prop) `{!forall x, Decision (P x)}
      (l : list A) :
  length l = (length (base.filter P l) + length (base.filter (fun x => ~ P x) l))%nat.
Proof.
rewrite <- length_app. by rewrite filter_app_complement.
Qed.

Lemma keys_balance (xs ys : list string) :
  NoDup xs -> NoDup ys ->
  (length xs + length (base.filter (fun k => k ∉ xs) ys)
   = length ys + length (base.filter (fun k => k ∉ ys) xs))%nat.
Proof.
intros Hx Hy.
pose proof (length_split_filter (fun k => k ∈ ys) xs) as Hsx.
pose proof (length_split_filter (fun k => k ∈ xs) ys) as Hsy.
assert (Hp : base.filter (fun k => k ∈ ys) xs ≡ₚ base.filter (fun k => k ∈ xs) ys).
{ apply NoDup_Permutation; [by apply NoDup_filter..|].
  intros k. rewrite !list_elem_of_filter. tauto. }
rewrite Hp in Hsx. lia.
Qed.

Lemma length_filter_keys {A : Type} (P : string -> Prop) `{!forall k, Decision (P k)}
      (l : list (string * A)) :
  length (base.filter (fun e : string * A => P e.1) l) = length (base.filter P l.*1).
Proof.
induction l as [|e l IH]; [reflexivity|].
cbn [fmap list_fmap]. destruct (decide (P e.1)).
- rewrite !filter_cons_True by done. cbn [length]. by rewrite IH.
- rewrite !filter_cons_False by done. done.
Qed.

Lemma listing_lookup_None {A : Type} (m : gmap string A) (l : list (string * A)) (k : string) :
  l ≡ₚ map_to_list m -> m !! k = None <-> k ∉ l.*1.
Proof.
intros Hl. rewrite Hl. rewrite list_elem_of_fmap. split.
- intros Hn ([k' x] & -> & Hin). apply elem_of_map_to_list in Hin. simpl in Hn. congruence.
- intros Hn. destruct (m !! k) as [x|] eqn:E; [|done].
  exfalso. apply Hn. exists (k, x). split; [done|]. by apply elem_of_map_to_list.
Qed.

(** X21. Added and missing jobs balance the sizes of the two data sets:
    outside a new release event, when both visiting orders enumerate
    their maps, the new entries plus the missing jobs are at least the
    current entries plus the added jobs, with equality when every new
    row belongs to the release. *)
Theorem added_and_missing_balance
        (newData currentData : gmap string HistoricalDataRow)
        (newOrder currentOrder : list (string * HistoricalDataRow))
        (release : string) :
  newOrder ≡ₚ map_to_list newData ->
  currentOrder ≡ₚ map_to_list currentData ->
  let r := compareAndUpdate getDurationFromString leeway dataType
             newData currentData newOrder currentOrder release false in
  (length currentOrder + length (addedJobs r)
   <= length newOrder + length (missingJobs r))%nat
  /\ (Forall (in_release release) newOrder ->
      (length currentOrder + length (addedJobs r)
       = length newOrder + length (missingJobs r))%nat).
Proof.
intros Hn Hc r. subst r. unfold compareAndUpdate. cbn [addedJobs missingJobs].
destruct (visit_new_fold currentData release newOrder (mkAcc 0 0 [] [])) as (_ & Ha & _).
cbn [acc_added app] in Ha. rewrite Ha, visit_current_fold. cbn [app].
rewrite !length_fmap.
assert (Hxs : NoDup newOrder.*1) by (rewrite Hn; apply NoDup_fst_map_to_list).
assert (Hys : NoDup currentOrder.*1) by (rewrite Hc; apply NoDup_fst_map_to_list).
pose proof (keys_balance _ _ Hxs Hys) as Hb.
rewrite !length_fmap in Hb.
assert (Hm : length (base.filter (fun e : string * HistoricalDataRow => newData !! e.1 = None)
                                 currentOrder)
             = length (base.filter (fun k => k ∉ newOrder.*1) currentOrder.*1)).
{ etrans; [exact (length_filter_keys (fun k => newData !! k = None) currentOrder)|].
  f_equal. apply list_filter_iff. intros k. by apply listing_lookup_None. }
assert (Hk : length (base.filter (fun e : string * HistoricalDataRow => currentData !! e.1 = None)
                                 newOrder)
             = length (base.filter (fun k => k ∉ currentOrder.*1) newOrder.*1)).
{ etrans; [exact (length_filter_keys (fun k => currentData !! k = None) newOrder)|].
  f_equal. apply list_filter_iff. intros k. by apply listing_lookup_None. }
assert (Hle : forall l : list (string * HistoricalDataRow),
  (length (base.filter (fun e => added currentData release e = true) l)
   <= length (base.filter (fun e : string * HistoricalDataRow => currentData !! e.1 = None) l))%nat
  /\ (Forall (in_release release) l ->
      length (base.filter (fun e => added currentData release e = true) l)
      = length (base.filter (fun e : string * HistoricalDataRow => currentData !! e.1 = None) l))).
{ induction l as [|e l [IH1 IH2]]; [done|].
  destruct (added currentData release e) eqn:Ead.
  - rewrite (filter_cons_True (fun e => added currentData release e = true)) by done.
    unfold added in Ead. apply andb_true_iff in Ead as [_ Ead].
    destruct (currentData !! e.1) eqn:E; [discriminate|].
    rewrite (filter_cons_True (fun e => currentData !! e.1 = None)) by done.
    cbn [length]. split; [lia|].
    intros Hall. apply Forall_cons in Hall as [_ Hall]. rewrite IH2; done.
  - rewrite (filter_cons_False (fun e => added currentData release e = true))
      by (rewrite Ead; discriminate).
    destruct (currentData !! e.1) eqn:E.
    + rewrite (filter_cons_False (fun e => currentData !! e.1 = None))
        by (rewrite E; discriminate).
      split; [done|].
      intros Hall. apply Forall_cons in Hall as [_ Hall]. auto.
    + rewrite (filter_cons_True (fun e => currentData !! e.1 = None)) by done.
      cbn [length]. split; [lia|].
      intros Hall. apply Forall_cons in Hall as [He Hall].
      unfold added, in_release in *. rewrite E in Ead.
      rewrite bool_decide_eq_true_2 in Ead by done. discriminate. }
destruct (Hle newOrder) as [H1 H2].
split; [lia|]. intros Hall. rewrite H2 by done. lia.
Qed.

End AnalyzerFacts.

(** ** The groups made from the mapping and the rover groups *)
Section MakeGroupsFacts.
Import Groups Reconcile MakeGroups.
Variable Target : Type.
Variable RenameTo : Target -> string.
Variable ResolveClusters : Target -> gset string.
Variable GitHubUserGroup : string -> string.
Variable HiveCluster : string.
Variable DPTPRequesterLabel : string.
Variable toolName : string.

Lemma string_le_total : Total string_le.
Proof. intros a b. apply Stdlib.Strings.String.leb_total. Qed.

Lemma sortedMembers_elem_of (members : list string) (m : string) :
  m ∈ sortedMembers members <-> m ∈ members /\ m <> "".
Proof.
unfold sortedMembers. rewrite merge_sort_Permutation, elem_of_elements.
rewrite elem_of_difference, elem_of_list_to_set, elem_of_singleton. done.
Qed.

Lemma sortedMembers_NoDup (members : list string) : NoDup (sortedMembers members).
Proof.
unfold sortedMembers. rewrite merge_sort_Permutation. apply NoDup_elements.
Qed.

Lemma sortedMembers_Sorted (members : list string) :
  Sorted string_le (sortedMembers members).
Proof.
unfold sortedMembers. apply Sorted_merge_sort. apply string_le_total.
Qed.

Lemma userGroup_made clustersExceptHive groups entry :
  map_Forall (made DPTPRequesterLabel toolName) groups ->
  map_Forall (made DPTPRequesterLabel toolName)
             (userGroup GitHubUserGroup DPTPRequesterLabel toolName
                        clustersExceptHive groups entry).
Proof.
intros H. destruct entry as [login kerb]. unfold userGroup.
apply map_Forall_insert_2; [|done].
split; [done|]. split; [by eexists|by left].
Qed.

(** The rover loop panics at its first iteration on a nil config, and
    never otherwise. *)
Lemma roverGroup_fold_nil clusters (l : list (string * list string)) st :
  foldl (roverGroup Target RenameTo ResolveClusters DPTPRequesterLabel toolName
                    None clusters) st l
  = match l with [] => st | _ :: _ => None end.
Proof.
destruct l as [|e l]; [done|]. cbn [foldl].
assert (H : roverGroup Target RenameTo ResolveClusters DPTPRequesterLabel toolName
                       None clusters st e = None) by (by destruct st as [[? ?]|]).
rewrite H. clear H. induction l as [|e' l IH]; [done|]. exact IH.
Qed.

(** One iteration on a non-nil config. *)
Lemma roverGroup_step configGroups clusters groups errs entry :
  exists groups' new,
    roverGroup Target RenameTo ResolveClusters DPTPRequesterLabel toolName
               (Some configGroups) clusters (Some (groups, errs)) entry
    = Some (groups', errs ++ new)
    /\ (size groups' + length new = size groups + 1)%nat
    /\ (new = [] -> forall k gc, groups !! k = Some gc -> groups' !! k = Some gc)
    /\ (map_Forall (made DPTPRequesterLabel toolName) groups ->
        map_Forall (made DPTPRequesterLabel toolName) groups').
Proof.
destruct entry as [k v]. unfold roverGroup.
assert (Hlab : forall t : option Target,
  let '(groupName, _, labels) :=
    match t with
    | Some t =>
        if negb (bool_decide (RenameTo t = ""))
        then (RenameTo t,
              if bool_decide (0 < size (ResolveClusters t))%nat
              then ResolveClusters t else clusters,
              [("rover-group-name", k); (DPTPRequesterLabel, toolName)])
        else (k,
              if bool_decide (0 < size (ResolveClusters t))%nat
              then ResolveClusters t else clusters,
              [(DPTPRequesterLabel, toolName)])
    | None => (k, clusters, [(DPTPRequesterLabel, toolName)])
    end in
  labels = [(DPTPRequesterLabel, toolName)]
  \/ exists old, labels = [("rover-group-name", old); (DPTPRequesterLabel, toolName)]).
{ intros [t|]; [destruct (negb _)|]; [right; by eexists|by left|by left]. }
specialize (Hlab (configGroups !! k)). cbv zeta.
destruct (match configGroups !! k with
          | Some t => _
          | None => _
          end) as [[groupName clustersFor] labels].
assert (Hm : forall groups0 : gmap string GroupClusters,
  map_Forall (made DPTPRequesterLabel toolName) groups0 ->
  map_Forall (made DPTPRequesterLabel toolName)
    (<[groupName := mkGroupClusters clustersFor
                      (mkGroup groupName (Some (sortedMembers v)) labels)]> groups0)).
{ intros groups0 H0. apply map_Forall_insert_2; [|done].
  split; [done|]. split; [by eexists|done]. }
destruct (groups !! groupName) as [old|] eqn:E.
- eexists _, _. split; [reflexivity|]. split; [|split; [done|by apply Hm]].
  rewrite map_size_insert_Some by done. cbn. lia.
- exists (<[groupName := mkGroupClusters clustersFor
                           (mkGroup groupName (Some (sortedMembers v)) labels)]> groups), [].
  split; [by rewrite app_nil_r|]. split; [|split; [|by apply Hm]].
  + rewrite map_size_insert_None by done. cbn. lia.
  + intros _ k' gc Hk. rewrite lookup_insert_ne; [done|]. congruence.
Qed.

Lemma roverGroup_fold configGroups clusters (l : list (string * list string)) :
  forall groups errs,
    exists groups' new,
      foldl (roverGroup Target RenameTo ResolveClusters DPTPRequesterLabel toolName
                        (Some configGroups) clusters) (Some (groups, errs)) l
      = Some (groups', errs ++ new)
      /\ (size groups' + length new = size groups + length l)%nat
      /\ (new = [] -> forall k gc, groups !! k = Some gc -> groups' !! k = Some gc)
      /\ (map_Forall (made DPTPRequesterLabel toolName) groups ->
          map_Forall (made DPTPRequesterLabel toolName) groups').
Proof.
induction l as [|e l IH]; intros groups errs; cbn [foldl].
- exists groups, []. rewrite app_nil_r. cbn. split; [done|]. split; [lia|done].
- destruct (roverGroup_step configGroups clusters groups errs e)
    as (g1 & new1 & -> & Hs1 & Hk1 & Hm1).
  destruct (IH g1 (errs ++ new1)) as (g2 & new2 & -> & Hs2 & Hk2 & Hm2).
  exists g2, (new1 ++ new2). rewrite app_assoc. split; [done|].
  rewrite length_app. cbn [length]. split; [lia|]. split; [|auto].
  intros Hnil. apply app_eq_nil in Hnil as [-> ->]. auto.
Qed.

Lemma userGroup_fold_made clustersExceptHive (l : list (string * string)) :
  forall groups,
    map_Forall (made DPTPRequesterLabel toolName) groups ->
    map_Forall (made DPTPRequesterLabel toolName)
      (foldl (userGroup GitHubUserGroup DPTPRequesterLabel toolName clustersExceptHive)
             groups l).
Proof.
induction l as [|e l IH]; intros g Hg; cbn [foldl]; [done|].
apply IH. by apply userGroup_made.
Qed.

(** How a call of [makeGroups] ends. *)
Lemma makeGroups_cases mappingOrder roverOrder config clusters :
  let g0 := foldl (userGroup GitHubUserGroup DPTPRequesterLabel toolName
                             (clusters ∖ {[HiveCluster]})) ∅ mappingOrder in
  let r := makeGroups Target RenameTo ResolveClusters GitHubUserGroup HiveCluster
                      DPTPRequesterLabel toolName mappingOrder roverOrder config clusters in
  (config = None /\ roverOrder <> [] /\ r = None)
  \/ exists groups new,
       r = Some (groups, NewAggregate new)
       /\ (config = None -> roverOrder = [])
       /\ (size groups + length new = size g0 + length roverOrder)%nat
       /\ (new = [] -> forall k gc, g0 !! k = Some gc -> groups !! k = Some gc)
       /\ map_Forall (made DPTPRequesterLabel toolName) groups.
Proof.
intros g0 r. subst r. unfold makeGroups. fold g0.
assert (Hg0 : map_Forall (made DPTPRequesterLabel toolName) g0).
{ apply userGroup_fold_made, map_Forall_empty. }
destruct config as [configGroups|].
- right. destruct (roverGroup_fold configGroups clusters roverOrder g0 [])
    as (groups & new & -> & Hs & Hk & Hm).
  exists groups, new. cbn [app]. split; [done|]. split; [done|]. auto.
- rewrite roverGroup_fold_nil. destruct roverOrder as [|e l].
  + right. exists g0, []. cbn. split; [done|]. split; [done|]. split; [lia|done].
  + left. done.
Qed.

(** X22. Every group [makeGroups] returns is filed under its own name,
    lists its users sorted, passes [validate] unless that name is empty,
    and (the key of the requester label not being [rover-group-name])
    carries the label by which the pruning pass recognises the tool's
    groups. *)
Theorem made_groups_are_valid
        (mappingOrder : list (string * string)) (roverOrder : list (string * list string))
        (config : option (gmap string Target)) (clusters : gset string)
        (groups : gmap string GroupClusters) (err : option error)
        (name : string) (gc : GroupClusters) :
  makeGroups Target RenameTo ResolveClusters GitHubUserGroup HiveCluster
             DPTPRequesterLabel toolName mappingOrder roverOrder config clusters
  = Some (groups, err) ->
  groups !! name = Some gc ->
  Name (Group_ gc) = name
  /\ (exists users, Users (Group_ gc) = Some users /\ Sorted string_le users)
  /\ (validate (Group_ gc) = None <-> name <> "")
  /\ (DPTPRequesterLabel <> "rover-group-name" ->
      matches_label DPTPRequesterLabel toolName (Group_ gc) = true).
Proof.
intros Hret Hl.
destruct (makeGroups_cases mappingOrder roverOrder config clusters)
  as [(_ & _ & Hp)|(groups' & new & Hr & _ & _ & _ & Hmade)];
  cbv zeta in *; [congruence|].
rewrite Hret in Hr. injection Hr as <- _.
destruct (Hmade name gc Hl) as (Hn & (members & Hu) & Hlab).
split; [done|]. split; [|split].
- exists (sortedMembers members). split; [done|]. apply sortedMembers_Sorted.
- unfold validate. rewrite Hn, Hu. cbn [default].
  case_bool_decide as He; [done|]. split; [done|]. intros _.
  apply validate_members_None. split; [|split].
  + unfold id. rewrite sortedMembers_elem_of. by intros [_ ?].
  + apply sortedMembers_NoDup.
  + intros m _. apply not_elem_of_empty.
- intros Hne. unfold matches_label. apply bool_decide_eq_true.
  destruct Hlab as [->|[old ->]]; cbn.
  + apply lookup_insert_eq.
  + rewrite lookup_insert_ne by done. apply lookup_insert_eq.
Qed.

(** Sizes along the first loop. *)
Lemma userGroup_fold_size clustersExceptHive (l : list (string * string)) :
  forall groups,
    NoDup (GitHubUserGroup <$> l.*1) ->
    (forall e, e ∈ l -> groups !! GitHubUserGroup e.1 = None) ->
    let groups' := foldl (userGroup GitHubUserGroup DPTPRequesterLabel toolName
                                    clustersExceptHive) groups l in
    size groups' = (size groups + length l)%nat
    /\ (forall e, e ∈ l ->
          exists gc, groups' !! GitHubUserGroup e.1 = Some gc
                     /\ Clusters gc = clustersExceptHive).
Proof.
induction l as [|[login kerb] l IH]; intros groups Hnd Hfresh; cbn [foldl].
- cbn. split; [lia|]. intros e He. by apply elem_of_nil in He.
- cbn [fmap list_fmap fst] in Hnd. apply NoDup_cons in Hnd as [Hnin Hnd].
  set (g1 := userGroup _ _ _ _ groups (login, kerb)).
  assert (Hg1 : forall k, k <> GitHubUserGroup login -> g1 !! k = groups !! k).
  { intros k Hk. subst g1. unfold userGroup. by rewrite lookup_insert_ne. }
  assert (Hne : forall e, e ∈ l -> GitHubUserGroup e.1 <> GitHubUserGroup login).
  { intros e He Heq. apply Hnin. rewrite <- Heq.
    apply list_elem_of_fmap. exists e.1. split; [done|].
    apply list_elem_of_fmap. by exists e. }
  destruct (IH g1 Hnd) as [Hsz Hall].
  { intros e He. rewrite Hg1 by (by apply Hne).
    apply Hfresh. by apply list_elem_of_further. }
  split.
  + rewrite Hsz. subst g1. unfold userGroup.
    rewrite map_size_insert_None by (apply (Hfresh (login, kerb)), list_elem_of_here).
    cbn [length]. lia.
  + intros e He. apply elem_of_cons in He as [->|He]; [|by apply Hall].
    cbn [fst].
    assert (Hkeep : forall (l' : list (string * string)) g,
      (forall e, e ∈ l' -> GitHubUserGroup e.1 <> GitHubUserGroup login) ->
      foldl (userGroup GitHubUserGroup DPTPRequesterLabel toolName clustersExceptHive) g l'
        !! GitHubUserGroup login = g !! GitHubUserGroup login).
    { induction l' as [|[lg kb] l' IH']; intros g Hl'; cbn [foldl]; [done|].
      rewrite IH' by (intros; apply Hl'; by apply list_elem_of_further).
      unfold userGroup. rewrite lookup_insert_ne; [done|].
      apply (Hl' (lg, kb)), list_elem_of_here. }
    rewrite Hkeep by done. subst g1. unfold userGroup.
    rewrite lookup_insert_eq. by eexists.
Qed.

(** X23. [makeGroups] panics (nil pointer dereference at
    [config.Groups[k]]) exactly when it is given a nil config together
    with at least one rover group.  When it returns and distinct logins
    have distinct group names, no group is lost silently: it returns as
    many groups as there are entries in the mapping and in the rover
    groups exactly when it returns no error, and fewer otherwise. *)
Theorem makeGroups_error_iff_group_lost
        (mappingOrder : list (string * string)) (roverOrder : list (string * list string))
        (config : option (gmap string Target)) (clusters : gset string) :
  NoDup (GitHubUserGroup <$> mappingOrder.*1) ->
  let r := makeGroups Target RenameTo ResolveClusters GitHubUserGroup HiveCluster
                      DPTPRequesterLabel toolName mappingOrder roverOrder
                      config clusters in
  (r = None <-> config = None /\ roverOrder <> [])
  /\ forall groups err,
       r = Some (groups, err) ->
       (size groups <= length mappingOrder + length roverOrder)%nat
       /\ (err = None <-> size groups = (length mappingOrder + length roverOrder)%nat).
Proof.
intros Hnd r.
destruct (userGroup_fold_size (clusters ∖ {[HiveCluster]}) mappingOrder ∅ Hnd)
  as [Hsz _]; [intros; apply lookup_empty|].
cbv zeta in Hsz. rewrite map_size_empty in Hsz.
destruct (makeGroups_cases mappingOrder roverOrder config clusters)
  as [(Hc & Hr & Hp)|(groups' & new & Hret & Hc & Hs & _)]; cbv zeta in *; fold r in Hp || fold r in Hret.
- split; [by rewrite Hp|]. intros groups err Hsome. congruence.
- split.
  + rewrite Hret. split; [done|]. intros [Hn Hne]. by specialize (Hc Hn).
  + intros groups err Hsome. rewrite Hret in Hsome. injection Hsome as <- <-.
    rewrite Hsz in Hs. split; [lia|].
    destruct new as [|e new]; cbn in *; split; intros H; try done; lia.
Qed.

(** X24. When distinct logins have distinct group names and
    [makeGroups] returns without an error, the group of every GitHub
    user of the mapping is there and is not meant for the Hive cluster,
    so that the pruning pass on the Hive cluster is out to delete it. *)
Theorem user_groups_avoid_hive
        (mappingOrder : list (string * string)) (roverOrder : list (string * list string))
        (config : option (gmap string Target)) (clusters : gset string)
        (groups : gmap string GroupClusters)
        (githubLogin kerberosId : string) :
  NoDup (GitHubUserGroup <$> mappingOrder.*1) ->
  (githubLogin, kerberosId) ∈ mappingOrder ->
  makeGroups Target RenameTo ResolveClusters GitHubUserGroup HiveCluster
             DPTPRequesterLabel toolName mappingOrder roverOrder config clusters
  = Some (groups, None) ->
  exists gc,
    groups !! GitHubUserGroup githubLogin = Some gc
    /\ (HiveCluster ∉ Clusters gc)
    /\ Clusters gc ⊆ clusters
    /\ shouldDelete groups HiveCluster (Group_ gc) = true.
Proof.
intros Hnd Hin Hsome.
destruct (userGroup_fold_size (clusters ∖ {[HiveCluster]}) mappingOrder ∅ Hnd)
  as [_ Hall]; [intros; apply lookup_empty|].
cbv zeta in Hall. destruct (Hall _ Hin) as (gc & Hgc & Hcl). cbn [fst] in Hgc.
destruct (makeGroups_cases mappingOrder roverOrder config clusters)
  as [(_ & _ & Hp)|(groups' & new & Hret & _ & _ & Hk & Hmade)];
  cbv zeta in *; [congruence|].
rewrite Hsome in Hret. injection Hret as -> Hagg.
destruct new as [|e new]; [|discriminate].
exists gc. specialize (Hk eq_refl _ _ Hgc).
split; [done|].
assert (Hnot : HiveCluster ∉ Clusters gc).
{ rewrite Hcl, elem_of_difference, elem_of_singleton. tauto. }
split; [done|]. split.
- rewrite Hcl. intros x Hx. apply elem_of_difference in Hx. tauto.
- unfold shouldDelete. destruct (Hmade _ _ Hk) as (Hn & _). rewrite Hn, Hk.
  by rewrite bool_decide_eq_false_2.
Qed.
End MakeGroupsFacts.

(** ** The added theorems at work *)

Lemma demo_store_well_keyed : Groups.well_keyed Reconcile.demo_store.
Proof.
intros k g H. unfold Reconcile.demo_store in H.
repeat (apply lookup_insert_Some in H as [[<- <-]|[_ H]]; [reflexivity|]).
rewrite lookup_empty in H. discriminate.
Qed.

(** Upserting [devs] with a third user into the demo cluster. *)
Lemma UpsertGroup_success_means_present_witness :
  exists stored,
    Groups.store
      (Groups.UpsertGroup
         (Groups.mkGroup "devs" (Some ["ann"; "bob"; "hal"]) Reconcile.demo_label)
         (Groups.mkCluster Reconcile.demo_store [] [])).2 !! "devs" = Some stored
    /\ Groups.Users stored = Some ["ann"; "bob"; "hal"].
Proof.
destruct (Groups.UpsertGroup
            (Groups.mkGroup "devs" (Some ["ann"; "bob"; "hal"]) Reconcile.demo_label)
            (Groups.mkCluster Reconcile.demo_store [] [])) as [[created err] c'] eqn:E.
assert (Herr : err = None) by (vm_compute in E; congruence).
subst err.
destruct (UpsertGroup_success_means_present
            _ (Groups.mkCluster Reconcile.demo_store [] []) _ _
            demo_store_well_keyed E)
  as [(stored & Hs & Hu & _) _].
exists stored. split; [exact Hs|].
unfold Groups.SemanticDeepEqual in Hu. apply bool_decide_eq_true in Hu.
destruct (Groups.Users stored) as [us|] eqn:Eu; simpl in Hu; [congruence|discriminate].
Defined.

(** The same upsert against a client whose first call fails. *)
Lemma UpsertGroup_failure_effect_witness :
  (Groups.UpsertGroup
     (Groups.mkGroup "devs" (Some ["ann"; "bob"; "hal"]) Reconcile.demo_label)
     (Groups.mkCluster Reconcile.demo_store [Some (ErrMsg "etcd unavailable")] [])).1.1
  = false
  /\ forall k, k <> "devs" ->
       Groups.store
         (Groups.UpsertGroup
            (Groups.mkGroup "devs" (Some ["ann"; "bob"; "hal"]) Reconcile.demo_label)
            (Groups.mkCluster Reconcile.demo_store [Some (ErrMsg "etcd unavailable")] [])).2
         !! k
       = Reconcile.demo_store !! k.
Proof.
destruct (Groups.UpsertGroup
            (Groups.mkGroup "devs" (Some ["ann"; "bob"; "hal"]) Reconcile.demo_label)
            (Groups.mkCluster Reconcile.demo_store [Some (ErrMsg "etcd unavailable")] []))
  as [[created err] c'] eqn:E.
assert (Herr : err = Some (ErrMsg "etcd unavailable")) by (vm_compute in E; congruence).
subst err.
destruct (UpsertGroup_failure_effect
            _ (Groups.mkCluster Reconcile.demo_store [Some (ErrMsg "etcd unavailable")] [])
            _ _ _ demo_store_well_keyed E) as (Hc & Hk & _).
split; [exact Hc|exact Hk].
Defined.

(** The recreation fails after the delete went through. *)
Lemma UpsertGroup_can_lose_group_witness :
  (Groups.UpsertGroup
     (Groups.mkGroup "devs" (Some ["ann"; "bob"; "hal"]) Reconcile.demo_label)
     (Groups.mkCluster Reconcile.demo_store
                       [None; None; None; Some (ErrMsg "quota exceeded")] [])).1
  = (false, Some (ErrMsg "quota exceeded"))
  /\ Groups.store
       (Groups.UpsertGroup
          (Groups.mkGroup "devs" (Some ["ann"; "bob"; "hal"]) Reconcile.demo_label)
          (Groups.mkCluster Reconcile.demo_store
                            [None; None; None; Some (ErrMsg "quota exceeded")] [])).2
     !! "devs" = None.
Proof.
destruct (UpsertGroup_can_lose_group
            (Groups.mkGroup "devs" (Some ["ann"; "bob"; "hal"]) Reconcile.demo_label)
            (Groups.mkGroup "devs" (Some ["ann"; "bob"]) Reconcile.demo_label)
            (Groups.mkCluster Reconcile.demo_store
                              [None; None; None; Some (ErrMsg "quota exceeded")] [])
            (ErrMsg "quota exceeded") []
            demo_store_well_keyed eq_refl eq_refl eq_refl) as (H1 & _ & H3).
split; [exact H1|exact H3].
Defined.

(** Pruning the demo cluster [app.ci]: [old-team] goes, the rest stays. *)
Lemma prune_only_deletes_stale_witness :
  let c' := (Reconcile.prune "dptp.openshift.io/requester" "tool" "ci-admins"
               Reconcile.demo_wanted false "app.ci" []
               (Groups.mkCluster Reconcile.demo_store [] [])).2 in
  Groups.store c' !! "ci-admins" = Reconcile.demo_store !! "ci-admins"
  /\ Groups.store c' !! "old-team" = None.
Proof.
destruct (prune_only_deletes_stale "dptp.openshift.io/requester" "tool" "ci-admins"
            Reconcile.demo_wanted "app.ci" false []
            (Groups.mkCluster Reconcile.demo_store [] []) demo_store_well_keyed)
  as (_ & Hadm & _).
split; [exact Hadm|].
vm_compute. reflexivity.
Defined.

Lemma prune_removes_all_stale_witness :
  let r := Reconcile.prune "dptp.openshift.io/requester" "tool" "ci-admins"
             Reconcile.demo_wanted false "app.ci" []
             (Groups.mkCluster Reconcile.demo_store [] []) in
  Groups.store r.2 !! "old-team" = None
  /\ Groups.store r.2 !! "devs" = Reconcile.demo_store !! "devs"
  /\ Groups.store r.2 !! "manual" = Reconcile.demo_store !! "manual".
Proof.
destruct (prune_removes_all_stale "dptp.openshift.io/requester" "tool" "ci-admins"
            Reconcile.demo_wanted "app.ci" []
            (Groups.mkCluster Reconcile.demo_store [] []) eq_refl demo_store_well_keyed)
  as (Hk & _).
cbv zeta. rewrite !Hk. repeat split; vm_compute; reflexivity.
Defined.

(** Two repositories, a ceiling of one and a clone that always fails. *)
Lemma failed_clones_consume_ceiling_witness :
  (0 < 1 < 2 ^ 63)%Z
  /\ (Creator.count_events Creator.is_clone
        (Creator.run CreatorObs.failing_clone_env 1 Creator.demo_inputs) <= 1)%nat
  /\ Creator.count_events Creator.is_pr
       (Creator.run CreatorObs.failing_clone_env 1 Creator.demo_inputs) = 0%nat.
Proof.
assert (H : (0 < 1 < 2 ^ 63)%Z) by lia.
split; [exact H|].
destruct (failed_clones_consume_ceiling CreatorObs.failing_clone_env 1
            Creator.demo_inputs H) as (Hp & Hc & Hsum).
assert (Hco : Creator.count_events CreatorObs.is_checkout
                (Creator.run CreatorObs.failing_clone_env 1 Creator.demo_inputs) = 0%nat)
  by (vm_compute; reflexivity).
rewrite Hco in Hp, Hsum. split; lia.
Defined.

(** The demo configuration, once rewritten, is left alone. *)
Lemma rewritten_config_is_skipped_witness :
  let md := Creator.mkInfo "openshift" "console" "master" "" "console.yaml" in
  let cfg' := Creator.cfg_after
                (Creator.process CreatorObs.matching_env 0 0 Creator.demo_cfg md) in
  Creator.already_matches CreatorObs.matching_env Creator.demo_cfg md = true
  /\ Creator.process CreatorObs.matching_env 0 7 cfg' md
     = Creator.mkOutcome None cfg' 7 [].
Proof.
intros md cfg'.
assert (H : Creator.already_matches CreatorObs.matching_env Creator.demo_cfg md = true)
  by (vm_compute; reflexivity).
split; [exact H|].
exact (proj2 (rewritten_config_is_skipped CreatorObs.matching_env 0 0 7
                Creator.demo_cfg md H)).
Defined.

(** Runs 6, 7 (unfinished) and 8 of the demo job with two tokens: run 8
    is committed before run 6. *)
Lemma skipped_run_lets_successor_overtake_witness :
  exists s,
    Loader.run Loader.demo_env "release-amd64" 2 LoaderObs.overtaking_schedule
               (Loader.init ["6"; "7"; "8"]) = Some s
    /\ Loader.sink s
       = [Loader.mkRow "8" "release-amd64" ""; Loader.mkRow "6" "release-amd64" ""].
Proof.
destruct (skipped_run_lets_successor_overtake Loader.demo_env "release-amd64" 2
            "6" "7" "8" _ _ ltac:(lia) eq_refl eq_refl eq_refl)
  as (s & r & Hrun & _ & _ & Hs).
exists s. split; [exact Hrun|]. rewrite Hs. vm_compute. reflexivity.
Defined.


(** The lookup of the latest recorded run fails: [Run] returns that
    error before anything is started. *)
Lemma loader_return_shape_witness :
  LoaderObs.Run_full LoaderObs.failing_lookup_env "release-amd64" 20 []
  = Some (LoaderObs.ReturnedEarly (ErrMsg "bigquery unavailable"))
  /\ (Loader.getLastJobRunWithDataFn LoaderObs.failing_lookup_env "release-amd64"
      = inl (ErrMsg "bigquery unavailable")
      \/ exists lastJobRun,
          Loader.getLastJobRunWithDataFn LoaderObs.failing_lookup_env "release-amd64"
          = inr lastJobRun
          /\ Loader.ListJobRunNamesOlderThanFourHours LoaderObs.failing_lookup_env
               "release-amd64"
               (Loader.startingJobRunID LoaderObs.failing_lookup_env lastJobRun)
             = inl (ErrMsg "bigquery unavailable")).
Proof.
split; [reflexivity|].
destruct (loader_return_shape LoaderObs.failing_lookup_env "release-amd64" 20 []
            (LoaderObs.ReturnedEarly (ErrMsg "bigquery unavailable"))
            (Some (ErrMsg "bigquery unavailable")) eq_refl eq_refl)
  as [(err & Ho & _ & _ & H)|(s & last & listed & Ho & _)].
- injection Ho as <-. exact H.
- discriminate Ho.
Defined.

(** The demo pool after its first steps: whoever is running runs a
    collected job. *)
Lemma pool_loads_only_collected_jobs_witness :
  exists s,
    Pool.run Pool.demo_env [Pool.PWorker 0; Pool.PWorker 1] (Pool.init Pool.demo_jobs)
    = Some s
    /\ forall w job, Pool.workers s !! w = Some (Pool.WRunning job) ->
                     job ∈ Pool.demo_jobs.
Proof.
destruct (Pool.run Pool.demo_env [Pool.PWorker 0; Pool.PWorker 1]
                   (Pool.init Pool.demo_jobs)) as [s|] eqn:E;
  [|vm_compute in E; discriminate E].
exists s. split; [reflexivity|].
intros w job Hw.
destruct (pool_loads_only_collected_jobs Pool.demo_env Pool.demo_jobs _ s E) as (H & _).
exact (proj1 (H w job Hw)).
Defined.

Lemma demo_new_listing :
  Analyzer.demo_new ≡ₚ map_to_list (list_to_map Analyzer.demo_new : gmap string _).
Proof.
symmetry. apply map_to_list_to_map.
apply (bool_decide_unpack _). vm_compute. exact I.
Qed.

Lemma demo_current_listing :
  Analyzer.demo_current ≡ₚ map_to_list (list_to_map Analyzer.demo_current : gmap string _).
Proof.
symmetry. apply map_to_list_to_map.
apply (bool_decide_unpack _). vm_compute. exact I.
Qed.

Lemma compare_counts_bounded_witness :
  let r := Analyzer.compareAndUpdate Analyzer.demo_duration 1000000000 "disruptions"
             (list_to_map Analyzer.demo_new) (list_to_map Analyzer.demo_current)
             Analyzer.demo_new Analyzer.demo_current "4.14" false in
  (Z.of_nat (length Analyzer.demo_new) < 2 ^ 63)%Z
  /\ Analyzer.increaseCount r = 1%Z
  /\ Analyzer.decreaseCount r = 1%Z
  /\ length (Analyzer.addedJobs r) = 1%nat
  /\ length (Analyzer.jobs r) = 3%nat.
Proof.
assert (Hlen : (Z.of_nat (length Analyzer.demo_new) < 2 ^ 63)%Z) by (vm_compute; reflexivity).
pose proof (compare_counts_bounded Analyzer.demo_duration 1000000000 "disruptions"
              (list_to_map Analyzer.demo_new) (list_to_map Analyzer.demo_current)
              Analyzer.demo_new Analyzer.demo_current "4.14" false Hlen) as H.
cbv zeta in H. destruct H as (Hi & Hd & _ & _).
split; [exact Hlen|]. cbv zeta.
split; [rewrite Hi; vm_compute; reflexivity|].
split; [rewrite Hd; vm_compute; reflexivity|].
split; vm_compute; reflexivity.
Defined.

Lemma review_needed_iff_regression_witness :
  (Z.of_nat (length Analyzer.demo_new) < 2 ^ 63)%Z
  /\ exists entry,
       entry ∈ Analyzer.demo_new
       /\ Analyzer.is_increase Analyzer.demo_duration 1000000000
            (list_to_map Analyzer.demo_current) "4.14" entry.
Proof.
assert (Hlen : (Z.of_nat (length Analyzer.demo_new) < 2 ^ 63)%Z) by (vm_compute; reflexivity).
split; [exact Hlen|].
apply (review_needed_iff_regression Analyzer.demo_duration 1000000000 "disruptions"
         (list_to_map Analyzer.demo_new) (list_to_map Analyzer.demo_current)
         Analyzer.demo_new Analyzer.demo_current "4.14" false Hlen).
vm_compute. reflexivity.
Defined.

Lemma compare_order_independent_witness :
  let r := Analyzer.compareAndUpdate Analyzer.demo_duration 1000000000 "disruptions"
             (list_to_map Analyzer.demo_new) (list_to_map Analyzer.demo_current)
             Analyzer.demo_new Analyzer.demo_current "4.14" false in
  let r' := Analyzer.compareAndUpdate Analyzer.demo_duration 1000000000 "disruptions"
              (list_to_map Analyzer.demo_new) (list_to_map Analyzer.demo_current)
              (reverse Analyzer.demo_new) (reverse Analyzer.demo_current) "4.14" false in
  Analyzer.increaseCount r = Analyzer.increaseCount r'
  /\ Analyzer.decreaseCount r = Analyzer.decreaseCount r'
  /\ Analyzer.addedJobs r ≡ₚ Analyzer.addedJobs r'
  /\ Analyzer.jobs r ≡ₚ Analyzer.jobs r'
  /\ Analyzer.missingJobs r ≡ₚ Analyzer.missingJobs r'.
Proof.
apply (compare_order_independent Analyzer.demo_duration 1000000000 "disruptions").
- symmetry. apply reverse_Permutation.
- symmetry. apply reverse_Permutation.
- vm_compute. reflexivity.
Defined.

Lemma added_and_missing_balance_witness :
  let r := Analyzer.compareAndUpdate Analyzer.demo_duration 1000000000 "disruptions"
             (list_to_map Analyzer.demo_new) (list_to_map Analyzer.demo_current)
             Analyzer.demo_new Analyzer.demo_current "4.14" false in
  (length Analyzer.demo_current + length (Analyzer.addedJobs r)
   <= length Analyzer.demo_new + length (Analyzer.missingJobs r))%nat
  /\ length (Analyzer.addedJobs r) = 1%nat
  /\ length (Analyzer.missingJobs r) = 1%nat.
Proof.
split.
- apply (added_and_missing_balance Analyzer.demo_duration 1000000000 "disruptions"
           (list_to_map Analyzer.demo_new) (list_to_map Analyzer.demo_current)
           Analyzer.demo_new Analyzer.demo_current "4.14"
           demo_new_listing demo_current_listing).
- split; vm_compute; reflexivity.
Defined.

Lemma demo_group_names :
  NoDup ((fun login => login +:+ "-group") <$> MakeGroups.demo_mapping.*1).
Proof. apply (bool_decide_unpack _). vm_compute. exact I. Qed.

(** The demo: two GitHub users, the rover groups [team-a] (with a
    repeated and an empty member) and [team-b] (renamed, on one
    cluster). *)
Lemma made_groups_are_valid_witness :
  exists groups gc,
    MakeGroups.makeGroups MakeGroups.demo_target MakeGroups.demo_rename
      MakeGroups.demo_clusters (fun login => login +:+ "-group") "hive"
      "dptp.openshift.io/requester" "tool" MakeGroups.demo_mapping MakeGroups.demo_rover
      (Some MakeGroups.demo_config) {["app.ci"; "build01"; "hive"]} = Some (groups, None)
    /\ groups !! "team-a" = Some gc
    /\ Reconcile.validate (Reconcile.Group_ gc) = None
    /\ Groups.Users (Reconcile.Group_ gc) = Some ["ann"; "bob"].
Proof.
destruct (MakeGroups.makeGroups MakeGroups.demo_target MakeGroups.demo_rename
      MakeGroups.demo_clusters (fun login => login +:+ "-group") "hive"
      "dptp.openshift.io/requester" "tool" MakeGroups.demo_mapping MakeGroups.demo_rover
      (Some MakeGroups.demo_config) {["app.ci"; "build01"; "hive"]})
  as [[groups err]|] eqn:E; [|vm_compute in E; discriminate E].
assert (He : err = None) by (vm_compute in E; congruence).
subst err.
destruct (groups !! "team-a") as [gc|] eqn:Eg;
  [|vm_compute in E; injection E as <-; vm_compute in Eg; discriminate Eg].
exists groups, gc. split; [reflexivity|]. split; [exact Eg|].
destruct (made_groups_are_valid _ _ _ _ _ _ _ _ _ _ _ _ _ _ _ E Eg) as (_ & _ & Hv & _).
split; [apply Hv; discriminate|].
vm_compute in E. injection E as <-. vm_compute in Eg. injection Eg as <-. reflexivity.
Defined.

(** Without a config the same call panics; with it, four groups and no
    error. *)
Lemma makeGroups_error_iff_group_lost_witness :
  MakeGroups.makeGroups MakeGroups.demo_target MakeGroups.demo_rename
    MakeGroups.demo_clusters (fun login => login +:+ "-group") "hive"
    "dptp.openshift.io/requester" "tool" MakeGroups.demo_mapping
    MakeGroups.demo_rover None {["app.ci"; "build01"; "hive"]} = None
  /\ exists groups,
       MakeGroups.makeGroups MakeGroups.demo_target MakeGroups.demo_rename
         MakeGroups.demo_clusters (fun login => login +:+ "-group") "hive"
         "dptp.openshift.io/requester" "tool" MakeGroups.demo_mapping
         MakeGroups.demo_rover (Some MakeGroups.demo_config)
         {["app.ci"; "build01"; "hive"]} = Some (groups, None)
       /\ size groups = 4%nat.
Proof.
split.
- apply (makeGroups_error_iff_group_lost MakeGroups.demo_target MakeGroups.demo_rename
           MakeGroups.demo_clusters (fun login => login +:+ "-group") "hive"
           "dptp.openshift.io/requester" "tool" MakeGroups.demo_mapping
           MakeGroups.demo_rover None {["app.ci"; "build01"; "hive"]} demo_group_names).
  split; [reflexivity|discriminate].
- destruct (MakeGroups.makeGroups MakeGroups.demo_target MakeGroups.demo_rename
         MakeGroups.demo_clusters (fun login => login +:+ "-group") "hive"
         "dptp.openshift.io/requester" "tool" MakeGroups.demo_mapping
         MakeGroups.demo_rover (Some MakeGroups.demo_config)
         {["app.ci"; "build01"; "hive"]}) as [[groups err]|] eqn:E;
    [|vm_compute in E; discriminate E].
  assert (He : err = None) by (vm_compute in E; congruence).
  subst err. exists groups. split; [reflexivity|].
  destruct (makeGroups_error_iff_group_lost MakeGroups.demo_target MakeGroups.demo_rename
              MakeGroups.demo_clusters (fun login => login +:+ "-group") "hive"
              "dptp.openshift.io/requester" "tool" MakeGroups.demo_mapping
              MakeGroups.demo_rover (Some MakeGroups.demo_config)
              {["app.ci"; "build01"; "hive"]} demo_group_names) as [_ Hret].
  destruct (Hret groups None E) as [_ Hiff].
  exact (proj1 Hiff eq_refl).
Defined.

Lemma user_groups_avoid_hive_witness :
  exists groups gc,
    MakeGroups.makeGroups MakeGroups.demo_target MakeGroups.demo_rename
      MakeGroups.demo_clusters (fun login => login +:+ "-group") "hive"
      "dptp.openshift.io/requester" "tool" MakeGroups.demo_mapping MakeGroups.demo_rover
      (Some MakeGroups.demo_config) {["app.ci"; "build01"; "hive"]} = Some (groups, None)
    /\ groups !! "ann-gh-group" = Some gc
    /\ "hive" ∉ Reconcile.Clusters gc.
Proof.
destruct (MakeGroups.makeGroups MakeGroups.demo_target MakeGroups.demo_rename
      MakeGroups.demo_clusters (fun login => login +:+ "-group") "hive"
      "dptp.openshift.io/requester" "tool" MakeGroups.demo_mapping MakeGroups.demo_rover
      (Some MakeGroups.demo_config) {["app.ci"; "build01"; "hive"]})
  as [[groups err]|] eqn:E; [|vm_compute in E; discriminate E].
assert (He : err = None) by (vm_compute in E; congruence).
subst err.
destruct (user_groups_avoid_hive MakeGroups.demo_target MakeGroups.demo_rename
            MakeGroups.demo_clusters (fun login => login +:+ "-group") "hive"
            "dptp.openshift.io/requester" "tool" MakeGroups.demo_mapping
            MakeGroups.demo_rover (Some MakeGroups.demo_config)
            {["app.ci"; "build01"; "hive"]} groups
            "ann-gh" "ann" demo_group_names ltac:(apply list_elem_of_here) E)
  as (gc & Hgc & Hh & _).
exists groups, gc. split; [reflexivity|]. split; [exact Hgc|exact Hh].
Defined.
